(** * PyKV: the LRU cache, the write-ahead log and its recovery

    A shallow embedding of [app/lru.py], [app/store.py] and the recovery and
    compaction paths of [app/simple_store.py], with the properties of the
    storage engine proved over it.

    - [PyStr]: the [str] methods and text-file reads the stores rely on.
    - [LRU]: [Node], [DoublyLinkedList] and [LRUCache] over an object heap.
    - [Store]: [KeyValueStore] with its [action|key|value] log.
    - [AsyncLRU], [SimpleStore]: the TTL cache and the JSON-lines store.
    - [PyFloat]: the floats of the clock readings.
    - [LRUModel]: the recency list that [LRUCache] implements.
    - [Main]: the three handlers of [app/main.py]. *)

From Stdlib Require Import ZArith QArith Qround Qminmax Lqa Ascii String List Lia.
From Stdlib Require SpecFloat.
From stdpp Require Import gmap strings list fin_maps.

Local Open Scope string_scope.
Local Open Scope list_scope.

(** ** Exceptions and the state-and-exception monad

    A Python call either returns or raises, and in both cases the mutations
    it already made stay: the monad returns the state with the outcome. *)

Inductive exn : Type :=
| ValueError
| AttributeError
| KeyError
| OSError
| TypeError
| OverflowError
| JSONDecodeError
| UnicodeDecodeError
| RecursionError.

Inductive outcome (A : Type) : Type :=
| Ok (a : A)
| Raise (e : exn).
Arguments Ok {A} a.
Arguments Raise {A} e.

Definition M (S A : Type) : Type := S -> outcome A * S.

Definition ret {S A} (a : A) : M S A := fun s => (Ok a, s).

Definition bind {S A B} (m : M S A) (f : A -> M S B) : M S B :=
  fun s => match m s with
           | (Ok a, s') => f a s'
           | (Raise e, s') => (Raise e, s')
           end.

Definition raise {S A} (e : exn) : M S A := fun s => (Raise e, s).

Declare Scope py_scope.
Delimit Scope py_scope with py.
Notation "'let*' x ':=' m 'in' k" := (bind m (fun x => k))
  (at level 10, x name, m at level 99, k at level 200) : py_scope.
Notation "'do' m ';;' k" := (bind m (fun _ => k))
  (at level 10, m at level 99, k at level 200) : py_scope.

(** ** Python strings

    A [str] is modelled as a [string] whose characters are the code points
    below 256. *)

Module PyStr.

Definition LF : ascii := "010"%char.
Definition CR : ascii := "013"%char.
Definition PIPE : ascii := "|"%char.

(** [str.isspace] on one character: TAB, LF, VT, FF, CR, FS, GS, RS, US,
    SPACE, NEL and NBSP. *)
Definition isspace (c : ascii) : bool :=
  let n := nat_of_ascii c in
  ((9 <=? n) && (n <=? 13) || (28 <=? n) && (n <=? 32)
   || (n =? 133) || (n =? 160))%nat.

Fixpoint lstrip (s : string) : string :=
  match s with
  | EmptyString => EmptyString
  | String c s' => if isspace c then lstrip s' else s
  end.

Fixpoint rstrip (s : string) : string :=
  match s with
  | EmptyString => EmptyString
  | String c s' =>
      match rstrip s' with
      | EmptyString => if isspace c then EmptyString else String c EmptyString
      | r => String c r
      end
  end.

(** [s.strip()] *)
Definition strip (s : string) : string := rstrip (lstrip s).

(** [s.split(sep)] for a one-character separator: never the empty list. *)
Fixpoint split (sep : ascii) (s : string) : list string :=
  match s with
  | EmptyString => [EmptyString]
  | String c s' =>
      if Ascii.eqb c sep then EmptyString :: split sep s'
      else match split sep s' with
           | p :: ps => String c p :: ps
           | [] => [String c EmptyString]
           end
  end.

(** Reading in text mode translates ["\r\n"] and a lone ["\r"] to ["\n"]
    (universal newlines). *)
Fixpoint universal_newlines (s : string) : string :=
  match s with
  | EmptyString => EmptyString
  | String c s' =>
      if Ascii.eqb c CR then
        match s' with
        | String c' _ => if Ascii.eqb c' LF then universal_newlines s'
                         else String LF (universal_newlines s')
        | EmptyString => String LF EmptyString
        end
      else String c (universal_newlines s')
  end.

(** The lines of a translated text, each with its terminator, the last one
    possibly without. *)
Fixpoint lines (s : string) : list string :=
  match s with
  | EmptyString => []
  | String c s' =>
      if Ascii.eqb c LF then String LF EmptyString :: lines s'
      else match lines s' with
           | l :: ls => String c l :: ls
           | [] => [String c EmptyString]
           end
  end.

(** [for line in f] over a file opened for reading in text mode. *)
Definition readlines (content : string) : list string :=
  lines (universal_newlines content).

(** [c in s] for a character. *)
Fixpoint contains (c : ascii) (s : string) : bool :=
  match s with
  | EmptyString => false
  | String c' s' => Ascii.eqb c' c || contains c s'
  end.

Definition newline : string := String LF EmptyString.

(** The text of a file written line by line. *)
Fixpoint unlines (ls : list string) : string :=
  match ls with
  | [] => ""
  | l :: ls' => l +:+ newline +:+ unlines ls'
  end.

(** The number of occurrences of a character. *)
Fixpoint count (c : ascii) (s : string) : nat :=
  match s with
  | EmptyString => 0
  | String c' s' => (if Ascii.eqb c' c then 1 else 0) + count c s'
  end.

End PyStr.

(** ** app/lru.py

    Objects live in a heap and are named by their address; [None] is the
    absent reference.  A field access on [None] or on a dangling address
    raises [AttributeError]. *)

Module LRU.

Local Open Scope py_scope.

Record Node : Type := mkNode {
  key : option string;
  value : option string;
  prev : option nat;
  next : option nat
}.

Abbreviation Heap := (list Node).

Definition with_value (v : option string) (n : Node) : Node :=
  mkNode (key n) v (prev n) (next n).
Definition with_prev (p : option nat) (n : Node) : Node :=
  mkNode (key n) (value n) p (next n).
Definition with_next (x : option nat) (n : Node) : Node :=
  mkNode (key n) (value n) (prev n) x.

(** [Node(key, value)] *)
Definition new_Node (k v : option string) : M Heap nat :=
  fun h => (Ok (length h), h ++ [mkNode k v None None]).

(** [r.attr] *)
Definition getattr {A} (f : Node -> A) (r : option nat) : M Heap A :=
  fun h => match r with
           | Some a => match h !! a with
                       | Some n => (Ok (f n), h)
                       | None => (Raise AttributeError, h)
                       end
           | None => (Raise AttributeError, h)
           end.

(** [r.attr = x], as the update [upd] of the node *)
Definition setattr (upd : Node -> Node) (r : option nat) : M Heap unit :=
  fun h => match r with
           | Some a => match h !! a with
                       | Some n => (Ok tt, <[a := upd n]> h)
                       | None => (Raise AttributeError, h)
                       end
           | None => (Raise AttributeError, h)
           end.

Record DoublyLinkedList : Type := mkDLL { head : nat; tail : nat }.

(** [DoublyLinkedList()] *)
Definition new_DoublyLinkedList : M Heap DoublyLinkedList :=
  let* hd := new_Node None None in
  let* tl := new_Node None None in
  do setattr (with_next (Some tl)) (Some hd) ;;
  do setattr (with_prev (Some hd)) (Some tl) ;;
  ret (mkDLL hd tl).

Definition add_to_front (self : DoublyLinkedList) (node : nat) : M Heap unit :=
  let* first := getattr next (Some (head self)) in
  do setattr (with_next first) (Some node) ;;
  do setattr (with_prev (Some (head self))) (Some node) ;;
  let* first' := getattr next (Some (head self)) in
  do setattr (with_prev (Some node)) first' ;;
  setattr (with_next (Some node)) (Some (head self)).

Definition remove_node (self : DoublyLinkedList) (node : nat) : M Heap unit :=
  let* prev_node := getattr prev (Some node) in
  let* next_node := getattr next (Some node) in
  do setattr (with_next next_node) prev_node ;;
  setattr (with_prev prev_node) next_node.

Definition remove_from_end (self : DoublyLinkedList) : M Heap (option nat) :=
  let* last := getattr prev (Some (tail self)) in
  if decide (last = Some (head self)) then ret None
  else
    let* lru := getattr prev (Some (tail self)) in
    match lru with
    | Some l => do remove_node self l ;; ret lru
    | None => raise AttributeError
    end.

(** An [LRUCache] object together with the heap its nodes live in. *)
Record LRUCache : Type := mkLRU {
  heap : Heap;
  capacity : Z;
  cache : gmap string nat;
  dll : DoublyLinkedList
}.

Definition set_cache (m : gmap string nat) (c : LRUCache) : LRUCache :=
  mkLRU (heap c) (capacity c) m (dll c).

(** Run a heap computation on the cache's heap. *)
Definition on_heap {A} (m : M Heap A) : M LRUCache A :=
  fun c => match m (heap c) with
           | (r, h') => (r, mkLRU h' (capacity c) (cache c) (dll c))
           end.

(** [LRUCache(capacity)], built in an empty heap. *)
Definition new_LRUCache (cap : Z) : outcome unit * LRUCache :=
  match new_DoublyLinkedList [] with
  | (Ok d, h) => (Ok tt, mkLRU h cap ∅ d)
  | (Raise e, h) => (Raise e, mkLRU h cap ∅ (mkDLL 0 0))
  end.

(** [del self.cache[k]] *)
Definition del_cache (k : option string) : M LRUCache unit :=
  fun c => match k with
           | Some k' => match cache c !! k' with
                        | Some _ => (Ok tt, set_cache (delete k' (cache c)) c)
                        | None => (Raise KeyError, c)
                        end
           | None => (Raise KeyError, c)
           end.

(** [self.cache[k] = node] *)
Definition set_item (k : string) (node : nat) : M LRUCache unit :=
  fun c => (Ok tt, set_cache (<[k := node]> (cache c)) c).

Definition get (k : string) : M LRUCache (option string) :=
  fun c => match cache c !! k with
           | None => (Ok None, c)
           | Some node =>
               (do on_heap (remove_node (dll c) node) ;;
                do on_heap (add_to_front (dll c) node) ;;
                on_heap (getattr value (Some node))) c
           end.

Definition put (k : string) (v : string) : M LRUCache unit :=
  fun c => match cache c !! k with
           | Some node =>
               (do on_heap (setattr (with_value (Some v)) (Some node)) ;;
                do on_heap (remove_node (dll c) node) ;;
                on_heap (add_to_front (dll c) node)) c
           | None =>
               (do (if (Z.of_nat (size (cache c)) >=? capacity c)%Z then
                      let* lru := on_heap (remove_from_end (dll c)) in
                      match lru with
                      | Some _ => let* lk := on_heap (getattr key lru) in
                                  del_cache lk
                      | None => ret tt
                      end
                    else ret tt) ;;
                let* new_node := on_heap (new_Node (Some k) (Some v)) in
                do on_heap (add_to_front (dll c) new_node) ;;
                set_item k new_node) c
           end.

Definition delete (k : string) : M LRUCache bool :=
  fun c => match cache c !! k with
           | Some node =>
               (do on_heap (remove_node (dll c) node) ;;
                do del_cache (Some k) ;;
                ret true) c
           | None => (Ok false, c)
           end.

(** [len(self.cache)] *)
Definition size (c : LRUCache) : nat := base.size (cache c).

(** The fields of the object at an address, [None] when it has none. *)
Definition next_of (h : Heap) (a : nat) : option nat := h !! a ≫= next.
Definition prev_of (h : Heap) (a : nat) : option nat := h !! a ≫= prev.
Definition key_of (h : Heap) (a : nat) : option string := h !! a ≫= key.
Definition value_of (h : Heap) (a : nat) : option string := h !! a ≫= value.

(** The nodes between the sentinels, found by following [next] from the
    head; the fuel is the number of objects in the heap. *)
Fixpoint walk (h : Heap) (fuel : nat) (cur stop : nat) : list nat :=
  match fuel with
  | O => []
  | S fuel' =>
      match next_of h cur with
      | Some x => if decide (x = stop) then []
                  else x :: walk h fuel' x stop
      | None => []
      end
  end.

Definition nodes (c : LRUCache) : list nat :=
  walk (heap c) (length (heap c)) (head (dll c)) (tail (dll c)).

(** The cached pairs in recency order, most recent first. *)
Definition items (c : LRUCache) : list (option string * option string) :=
  map (fun a => match heap c !! a with
                | Some n => (key n, value n)
                | None => (None, None)
                end) (nodes c).

(** The value stored for a key, read without touching the recency order:
    [None] when the key is not in the index. *)
Definition peek (c : LRUCache) (k : string) : option (option string) :=
  (fun a => value_of (heap c) a) <$> cache c !! k.

(** *** The representation invariant

    [linked nx pv l]: along [l] every element points forward to its
    successor and the successor points back. *)
Fixpoint linked (nx pv : nat -> option nat) (l : list nat) : Prop :=
  match l with
  | a :: t => match t with
              | b :: _ => nx a = Some b /\ pv b = Some a /\ linked nx pv t
              | [] => True
              end
  | [] => True
  end.

(** The whole list of the cache: head sentinel, nodes, tail sentinel. *)
Definition chain (c : LRUCache) (ns : list nat) : list nat :=
  head (dll c) :: ns ++ [tail (dll c)].

(** [wf c ns]: the list of [c] holds exactly the nodes [ns], in this order,
    every one of them carries a key, and the index maps each key to the node
    that carries it. *)
Record wf (c : LRUCache) (ns : list nat) : Prop := mkWf {
  wf_nodup : NoDup (chain c ns);
  wf_linked : linked (next_of (heap c)) (prev_of (heap c)) (chain c ns);
  wf_keys : forall a, a ∈ ns -> is_Some (key_of (heap c) a);
  wf_index : forall k a,
    cache c !! k = Some a <-> a ∈ ns /\ key_of (heap c) a = Some k;
  wf_size : base.size (cache c) = length ns
}.

(** The invariant of a cache: well-formed, and within its capacity when the
    capacity is positive. *)
Definition inv (c : LRUCache) : Prop :=
  exists ns, wf c ns /\ (0 < capacity c -> Z.of_nat (length ns) <= capacity c)%Z.

(** Two heaps with the same objects up to their links. *)
Definition same_data (h h' : Heap) : Prop :=
  length h' = length h /\
  forall a, key_of h' a = key_of h a /\ value_of h' a = value_of h a.

(** The eviction step of [put], named for the proofs. *)
Definition evict (c : LRUCache) : M LRUCache unit :=
  (let* lru := on_heap (remove_from_end (dll c)) in
   match lru with
   | Some _ => let* lk := on_heap (getattr key lru) in del_cache lk
   | None => ret tt
   end)%py.

(** The operations of the cache, as data. *)
Inductive op : Type :=
| Put (k v : string)
| Get (k : string)
| Delete (k : string).

Definition run_op (o : op) : M LRUCache unit :=
  match o with
  | Put k v => put k v
  | Get k => do get k ;; ret tt
  | Delete k => do delete k ;; ret tt
  end.

Fixpoint run_ops (os : list op) : M LRUCache unit :=
  match os with
  | [] => ret tt
  | o :: os' => do run_op o ;; run_ops os'
  end.

End LRU.

(** ** app/store.py

    The file system is the content of the log file ([None] while the file
    does not exist) and a flag telling whether opening it for appending
    fails.  The lock only serialises callers and is released when an
    exception leaves the [with] block, so it carries no state here. *)

Module Store.

Import PyStr.
Local Open Scope py_scope.

Record FS : Type := mkFS {
  content : option string;
  append_fails : bool
}.

Record KeyValueStore : Type := mkStore {
  cache : LRU.LRUCache;
  log_file : FS
}.

Definition on_cache {A} (m : M LRU.LRUCache A) : M KeyValueStore A :=
  fun s => match m (cache s) with
           | (r, c') => (r, mkStore c' (log_file s))
           end.

(** [str(value)] inside the f-string: [None] prints as ["None"]. *)
Definition format_value (value : option string) : string :=
  match value with
  | Some v => v
  | None => "None"
  end.

(** [f"{action}|{key}|{value}\n"] *)
Definition format_line (action key : string) (value : option string) : string :=
  action +:+ "|" +:+ key +:+ "|" +:+ format_value value +:+ newline.

(** The same line without its terminator. *)
Definition line_of (action key : string) (value : option string) : string :=
  action +:+ "|" +:+ key +:+ "|" +:+ format_value value.

(** [with open(self.log_file, "a") as f: f.write(text)] *)
Definition append_file (text : string) : M KeyValueStore unit :=
  fun s =>
    if append_fails (log_file s) then (Raise OSError, s)
    else
      let old := match content (log_file s) with
                 | Some t => t
                 | None => ""
                 end in
      (Ok tt, mkStore (cache s)
                      (mkFS (Some (old +:+ text)) (append_fails (log_file s)))).

Definition _log (action key : string) (value : option string) : M KeyValueStore unit :=
  append_file (format_line action key value).

(** The body of the loop of [_recover] for one line. *)
Definition recover_line (line : string) : M LRU.LRUCache unit :=
  match split PIPE (strip line) with
  | [action; key; value] =>
      if String.eqb action "SET" then LRU.put key value
      else if String.eqb action "DEL" then
             do LRU.delete key ;; ret tt
           else ret tt
  | _ => raise ValueError
  end.

Fixpoint recover_lines (ls : list string) : M LRU.LRUCache unit :=
  match ls with
  | [] => ret tt
  | line :: ls' => do recover_line line ;; recover_lines ls'
  end.

Definition _recover : M KeyValueStore unit :=
  fun s => match content (log_file s) with
           | None => (Ok tt, s)
           | Some text => on_cache (recover_lines (readlines text)) s
           end.

(** [KeyValueStore(capacity, log_file)] on the file system [fs]. *)
Definition new_KeyValueStore (capacity : Z) (fs : FS) : outcome unit * KeyValueStore :=
  match LRU.new_LRUCache capacity with
  | (Ok _, c) => _recover (mkStore c fs)
  | (Raise e, c) => (Raise e, mkStore c fs)
  end.

Definition set (key value : string) : M KeyValueStore unit :=
  do on_cache (LRU.put key value) ;;
  _log "SET" key (Some value).

Definition get (key : string) : M KeyValueStore (option string) :=
  on_cache (LRU.get key).

Definition delete (key : string) : M KeyValueStore bool :=
  let* deleted := on_cache (LRU.delete key) in
  do (if deleted : bool then _log "DEL" key None else ret tt) ;;
  ret deleted.

(** A file system on which the log does not exist yet. *)
Definition no_file : FS := mkFS None false.

(** The key/value pairs of the store's cache, most recent first. *)
Definition items (s : KeyValueStore) : list (option string * option string) :=
  LRU.items (cache s).

(** The calls a client makes, as data. *)
Inductive op : Type :=
| SetOp (key value : string)
| GetOp (key : string)
| DeleteOp (key : string).

Definition run_op (o : op) : M KeyValueStore unit :=
  match o with
  | SetOp k v => set k v
  | GetOp k => do get k ;; ret tt
  | DeleteOp k => do delete k ;; ret tt
  end.

Fixpoint run_ops (os : list op) : M KeyValueStore unit :=
  match os with
  | [] => ret tt
  | o :: os' => do run_op o ;; run_ops os'
  end.

(** The stores a program can hold: built by the constructor, then used
    through [set], [get] and [delete], whether the call returns or raises. *)
Inductive reachable : KeyValueStore -> Prop :=
| reach_new capacity fs s :
    new_KeyValueStore capacity fs = (Ok tt, s) -> reachable s
| reach_set key value s r s' :
    reachable s -> set key value s = (r, s') -> reachable s'
| reach_get key s r s' :
    reachable s -> get key s = (r, s') -> reachable s'
| reach_delete key s r s' :
    reachable s -> delete key s = (r, s') -> reachable s'.

(** The text of the log, empty while the file does not exist. *)
Definition log_text (fs : FS) : string :=
  match content fs with
  | Some t => t
  | None => ""
  end.

(** [synced c0 s]: the log of [s] is a sequence of clean lines whose replay
    into the cache [c0] gives the cache of [s]. *)
Definition synced (c0 : LRU.LRUCache) (s : KeyValueStore) : Prop :=
  exists ls,
    Forall (fun l => contains CR l = false /\ contains LF l = false) ls
    /\ log_text (log_file s) = unlines ls
    /\ append_fails (log_file s) = false
    /\ recover_lines (map (fun l => l +:+ newline) ls) c0 = (Ok tt, cache s)
    /\ LRU.inv (cache s).

(** Strings that survive the line format: a key without ['|'], line feed or
    carriage return, and a value that moreover does not end in white space. *)
Definition safe_key (k : string) : bool :=
  negb (contains PIPE k) && negb (contains LF k) && negb (contains CR k).

Definition safe_value (v : string) : bool :=
  safe_key v && String.eqb (rstrip v) v.

(** [set] and [delete] calls on such strings; a [get] is not one of them. *)
Definition loggable (o : op) : bool :=
  match o with
  | SetOp k v => safe_key k && safe_value v
  | GetOp _ => false
  | DeleteOp k => safe_key k
  end.






End Store.

(** ** app/async_lru.py

    Time is the reading of [time.time()], a rational number of seconds; each
    operation takes the reading [now] made while it runs. *)

Module AsyncLRU.

(** Modelled from the spec: the Entry of section 3, a key, its value and an
    optional absolute expiry. *)
Record Entry : Type := mkEntry {
  key : string;
  value : option string;
  expires_at : option Q
}.

(** Modelled from the spec: [AsyncLRUCache] of [app/async_lru.py], which is
    not among the sources.  The cache of section 4.2: a capacity and the
    entries in recency order, most recently used first; [put] stores the
    absolute expiry [now + ttl], replaces and refreshes an existing key, and
    otherwise evicts the tail when the size equals the capacity; [get] treats
    an expired entry as absent and removes it; [get_raw] and [get_all_keys]
    inspect without touching the order.  A replayed record may carry no
    value, so a value is optional. *)
Record AsyncLRUCache : Type := mkCache {
  capacity : Z;
  entries : list Entry
}.

(** Modelled from the spec: the constructor of the absent [AsyncLRUCache],
    an empty cache of the given capacity. *)
Definition new_AsyncLRUCache (cap : Z) : AsyncLRUCache := mkCache cap [].

Definition has_key (k : string) (e : Entry) : bool := String.eqb (key e) k.

Definition remove (k : string) (es : list Entry) : list Entry :=
  List.filter (fun e => negb (has_key k e)) es.

Definition find (k : string) (es : list Entry) : option Entry :=
  List.find (has_key k) es.

(** Modelled from the spec: the expiry test of the absent [AsyncLRUCache];
    an entry is expired once the clock has reached its expiry. *)
Definition expired (now : Q) (e : Entry) : bool :=
  match expires_at e with
  | Some t => Qle_bool t now
  | None => false
  end.

(** Modelled from the spec: [size()] of the absent [AsyncLRUCache]. *)
Definition size (c : AsyncLRUCache) : nat := length (entries c).

(** Modelled from the spec: [put] of the absent [AsyncLRUCache].  An
    existing key gets the new value and expiry and moves to the front; a new
    key evicts the tail when the size equals the capacity, then enters at the
    front; the expiry is [now + ttl]. *)
Definition put (k : string) (v : option string) (ttl : option Q) (now : Q)
    (c : AsyncLRUCache) : AsyncLRUCache :=
  let e := mkEntry k v (option_map (fun t => (now + t)%Q) ttl) in
  match find k (entries c) with
  | Some _ => mkCache (capacity c) (e :: remove k (entries c))
  | None =>
      let es := if (Z.of_nat (size c) =? capacity c)%Z
                then removelast (entries c) else entries c in
      mkCache (capacity c) (e :: es)
  end.

(** Modelled from the spec: [get] of the absent [AsyncLRUCache].  A hit
    moves the entry to the front; an expired entry is removed and reported
    absent. *)
Definition get (k : string) (now : Q) (c : AsyncLRUCache)
    : option string * AsyncLRUCache :=
  match find k (entries c) with
  | None => (None, c)
  | Some e =>
      if expired now e then (None, mkCache (capacity c) (remove k (entries c)))
      else (value e, mkCache (capacity c) (e :: remove k (entries c)))
  end.

(** Modelled from the spec: [delete] of the absent [AsyncLRUCache], true
    when a key was present and removed. *)
Definition delete (k : string) (c : AsyncLRUCache) : bool * AsyncLRUCache :=
  match find k (entries c) with
  | Some _ => (true, mkCache (capacity c) (remove k (entries c)))
  | None => (false, c)
  end.

(** Modelled from the spec: [get_all_keys] of the absent [AsyncLRUCache],
    a snapshot of the keys. *)
Definition get_all_keys (c : AsyncLRUCache) : list string :=
  map key (entries c).

(** Modelled from the spec: [get_raw] of the absent [AsyncLRUCache], the
    value and expiry of a key without recency update. *)
Definition get_raw (k : string) (c : AsyncLRUCache)
    : option (option string * option Q) :=
  match find k (entries c) with
  | Some e => Some (value e, expires_at e)
  | None => None
  end.

(** A cache holds each key once and no more entries than its capacity. *)
Definition wf (c : AsyncLRUCache) : Prop :=
  NoDup (map key (entries c)) /\ (Z.of_nat (size c) <= capacity c)%Z.

End AsyncLRU.

(** ** Python floats

    A [float] is an IEEE 754 binary64 number; the operations round to
    nearest, ties to even, as the interpreter does. *)

Module PyFloat.

Definition float : Type := SpecFloat.spec_float.

Definition prec : Z := 53.
Definition emax : Z := 1024.

Definition zero : float := SpecFloat.S754_zero false.

(** The float nearest to an integer; an infinity beyond the range. *)
Definition of_Z (n : Z) : float :=
  SpecFloat.binary_normalize prec emax n 0 false.

(** The conversion of an [int] operand in mixed arithmetic. *)
Definition of_int (n : Z) : outcome float :=
  match of_Z n with
  | SpecFloat.S754_infinity _ => Raise OverflowError
  | x => Ok x
  end.

(** [x - y] *)
Definition sub (x y : float) : float := SpecFloat.SFsub prec emax x y.

(** [x <= y]: false when one of them is not a number. *)
Definition leb (x y : float) : bool := SpecFloat.SFleb x y.

(** [bool(x)]: false for the two zeros only. *)
Definition truthy (x : float) : bool := negb (SpecFloat.SFeqb x zero).

(** [int(x)]: truncation towards zero. *)
Definition int (x : float) : outcome Z :=
  match x with
  | SpecFloat.S754_zero _ => Ok 0%Z
  | SpecFloat.S754_finite s m e =>
      let a := if (0 <=? e)%Z then (Zpos m * 2 ^ e)%Z
               else (Zpos m / 2 ^ (- e))%Z in
      Ok (if s then (- a)%Z else a)
  | SpecFloat.S754_infinity _ => Raise OverflowError
  | SpecFloat.S754_nan => Raise ValueError
  end.

(** The rational a finite float denotes. *)
Definition to_Q (x : float) : option Q :=
  match x with
  | SpecFloat.S754_zero _ => Some 0%Q
  | SpecFloat.S754_finite s m e =>
      let a := if (0 <=? e)%Z then inject_Z (Zpos m * 2 ^ e)
               else (Zpos m # Z.to_pos (2 ^ (- e)))%Q in
      Some (if s then Qopp a else a)
  | _ => None
  end.

(** The float nearest to a rational: the quotient is taken with at least
    sixty-two bits and one bit for the remainder, then rounded. *)
Definition of_Q (q : Q) : float :=
  match Qnum q with
  | Z0 => zero
  | n =>
      let d := Zpos (Qden q) in
      let a := Z.abs n in
      let k := Z.max 0 (64 + Z.log2 d - Z.log2 a) in
      let num := (a * 2 ^ k)%Z in
      let sticky := if (num mod d =? 0)%Z then 0%Z else 1%Z in
      SpecFloat.binary_round prec emax (n <? 0)%Z
        (Z.to_pos (2 * (num / d) + sticky)) (- k - 1)
  end.

End PyFloat.

(** ** app/simple_store.py

    The log is kept as its lines after [json.loads]: the library's decoding
    of a line is not modelled, its outcome is.  A reading of [time.time()] is
    a float; the cache of section 4.2 keeps its own clock and its times as
    rationals. *)

Module SimpleStore.

Import AsyncLRU.

(** What [json.loads] returns.  An object is the list of the items of the
    dict, each name once. *)
#[local] Unset Elimination Schemes.
Inductive json : Type :=
| JNull
| JBool (b : bool)
| JInt (n : Z)
| JFloat (x : PyFloat.float)
| JStr (s : string)
| JArr (items : list json)
| JObj (items : list (string * json)).
#[local] Set Elimination Schemes.

(** A line of the log file as the loop of [_recover] meets it: empty after
    [strip]; or reading it from the file or [json.loads] on it raises; or
    [json.loads] returns a value. *)
Inductive line : Type :=
| Blank
| Fails (e : exn)
| Parsed (entry : json).

(** The dict [_log_operation] and [compact_log] dump, as [json.loads] gives
    it back. *)
Definition record (timestamp : PyFloat.float) (action key : string)
    (value : option string) (ttl : option Z) : line :=
  Parsed (JObj [("timestamp", JFloat timestamp);
                ("action", JStr action);
                ("key", JStr key);
                ("value", match value with Some v => JStr v | None => JNull end);
                ("ttl", match ttl with Some t => JInt t | None => JNull end)]).

(** The object [_log_operation] writes. *)
Definition log_entry (timestamp : Q) (action key : string)
    (value : option string) (ttl : option Z) : line :=
  record (PyFloat.of_Q timestamp) action key value ttl.

(** The log file and the backups beside it, each under the number in its
    name. *)
Record FS : Type := mkFS {
  content : option (list line);
  backups : list (Z * list line);
  append_fails : bool
}.

Record SimpleAsyncKeyValueStore : Type := mkStore {
  cache : AsyncLRUCache;
  log_file : FS;
  log_size : nat
}.

(** [entry[name]], [None] for the [KeyError]. *)
Fixpoint lookup (name : string) (entry : list (string * json)) : option json :=
  match entry with
  | [] => None
  | (n, v) :: entry' => if String.eqb n name then Some v else lookup name entry'
  end.

(** [entry.get(name)] *)
Definition get_field (name : string) (entry : list (string * json)) : json :=
  match lookup name entry with
  | Some v => v
  | None => JNull
  end.

(** [if x:] *)
Definition truthy (x : json) : bool :=
  match x with
  | JNull => false
  | JBool b => b
  | JInt n => negb (n =? 0)%Z
  | JFloat x => PyFloat.truthy x
  | JStr s => negb (String.eqb s "")
  | JArr items => match items with [] => false | _ => true end
  | JObj items => match items with [] => false | _ => true end
  end.

(** [x == s] for a string [s] *)
Definition is_str (s : string) (x : json) : bool :=
  match x with
  | JStr s' => String.eqb s' s
  | _ => false
  end.

(** The operand [x] of a subtraction whose other operand is a float: a
    number is converted, anything else is a [TypeError]. *)
Definition number (x : json) : outcome PyFloat.float :=
  match x with
  | JBool b => Ok (PyFloat.of_Z (if b then 1 else 0))
  | JInt n => PyFloat.of_int n
  | JFloat x => Ok x
  | _ => Raise TypeError
  end.


(** [except (json.JSONDecodeError, KeyError)] *)
Definition caught (e : exn) : bool :=
  match e with
  | JSONDecodeError | KeyError => true
  | _ => false
  end.

(** What the body of the loop of [_recover] does with one line. *)
Inductive step : Type :=
| Skip                 (* blank line, or an expired record: [continue] *)
| Warn                 (* [JSONDecodeError] or [KeyError]: warning, [continue] *)
| Abort (e : exn)      (* any other exception leaves [_recover] *)
| DoPut (key value : json) (ttl : option PyFloat.float)
| DoDelete (key : json)
| Ignore.              (* an action that is neither SET nor DEL *)

(** [now] is the reading of [time.time()] in [elapsed]. *)
Definition recover_step (now : PyFloat.float) (l : line) : step :=
  match l with
  | Blank => Skip
  | Fails e => if caught e then Warn else Abort e
  | Parsed (JObj entry) =>
      match lookup "action" entry with
      | None => Warn
      | Some action =>
          match lookup "key" entry with
          | None => Warn
          | Some key =>
              let value := get_field "value" entry in
              let ttl := get_field "ttl" entry in
              if is_str "SET" action then
                if truthy ttl then
                  match lookup "timestamp" entry with
                  | None => Warn
                  | Some timestamp =>
                      match number timestamp with
                      | Raise e => Abort e
                      | Ok ts =>
                          let elapsed := PyFloat.sub now ts in
                          match number ttl with
                          | Raise e => Abort e
                          | Ok t =>
                              let remaining_ttl := PyFloat.sub t elapsed in
                              if PyFloat.leb remaining_ttl PyFloat.zero then Skip
                              else DoPut key value (Some remaining_ttl)
                          end
                      end
                  end
                else DoPut key value None
              else if is_str "DEL" action then DoDelete key
              else Ignore
          end
      end
  | Parsed _ => Abort TypeError
  end.

(** Modelled from the spec: the cache of section 4.2 has keys that are
    strings, values that are strings, or [None] from a record without a
    value, and times that are rationals.  An argument of another kind has no
    counterpart in it. *)
Definition as_key (x : json) : option string :=
  match x with
  | JStr s => Some s
  | _ => None
  end.

Definition as_value (x : json) : option (option string) :=
  match x with
  | JStr s => Some (Some s)
  | JNull => Some None
  | _ => None
  end.

Definition as_ttl (ttl : option PyFloat.float) : option (option Q) :=
  match ttl with
  | Some x => option_map Some (PyFloat.to_Q x)
  | None => Some None
  end.

(** The call of the cache a step makes; [now] is the reading of the clock
    of the cache.  The result is [None] when an argument of the call has no
    counterpart in the cache of section 4.2: the run is then outside this
    model. *)
Definition apply_step (now : Q) (st : step) (c : AsyncLRUCache)
    : option (outcome unit * AsyncLRUCache) :=
  match st with
  | Skip | Warn | Ignore => Some (Ok tt, c)
  | Abort e => Some (Raise e, c)
  | DoPut k v ttl =>
      match as_key k, as_value v, as_ttl ttl with
      | Some k', Some v', Some ttl' => Some (Ok tt, put k' v' ttl' now c)
      | _, _, _ => None
      end
  | DoDelete k =>
      match as_key k with
      | Some k' => Some (Ok tt, snd (delete k' c))
      | None => None
      end
  end.

(** One turn of the loop; [now] is the pair of the reading of [time.time()]
    in [_recover] and the reading of the cache in [put]. *)
Definition recover_line (now : PyFloat.float * Q) (l : line) (c : AsyncLRUCache)
    : option (outcome unit * AsyncLRUCache) :=
  apply_step (snd now) (recover_step (fst now) l) c.

(** The loop of [_recover]; each line comes with the readings made while it
    is processed.  An exception that is not caught ends the loop with the
    cache as the lines before made it. *)
Fixpoint recover_lines (ls : list ((PyFloat.float * Q) * line)) (c : AsyncLRUCache)
    : option (outcome unit * AsyncLRUCache) :=
  match ls with
  | [] => Some (Ok tt, c)
  | (now, l) :: ls' =>
      match recover_line now l c with
      | Some (Ok _, c') => recover_lines ls' c'
      | r => r
      end
  end.

(** [_recover]; [clock i] holds the readings made while line [i] is
    processed. *)
Definition _recover (clock : nat -> PyFloat.float * Q) (s : SimpleAsyncKeyValueStore)
    : option (outcome unit * SimpleAsyncKeyValueStore) :=
  match content (log_file s) with
  | None => Some (Ok tt, s)
  | Some ls =>
      match recover_lines (imap (fun i l => (clock i, l)) ls) (cache s) with
      | Some (r, c) => Some (r, mkStore c (log_file s) (log_size s))
      | None => None
      end
  end.

Definition _log_operation (now : Q) (action key : string)
    (value : option string) (ttl : option Z) : M SimpleAsyncKeyValueStore unit :=
  fun s =>
    if append_fails (log_file s) then (Raise OSError, s)
    else
      let old := match content (log_file s) with
                 | Some ls => ls
                 | None => []
                 end in
      (Ok tt, mkStore (cache s)
                      (mkFS (Some (old ++ [log_entry now action key value ttl]))
                            (backups (log_file s)) (append_fails (log_file s)))
                      (S (log_size s))).

Local Open Scope py_scope.

Definition on_cache {A} (f : AsyncLRUCache -> A * AsyncLRUCache)
    : M SimpleAsyncKeyValueStore A :=
  fun s => match f (cache s) with
           | (a, c') => (Ok a, mkStore c' (log_file s) (log_size s))
           end.

Definition set (now : Q) (key value : string) (ttl : option Z)
    : M SimpleAsyncKeyValueStore unit :=
  do on_cache (fun c => (tt, put key (Some value) (option_map inject_Z ttl) now c)) ;;
  _log_operation now "SET" key (Some value) ttl.

Definition delete (now : Q) (key : string) : M SimpleAsyncKeyValueStore bool :=
  let* deleted := on_cache (AsyncLRU.delete key) in
  do (if deleted : bool then _log_operation now "DEL" key None None else ret tt) ;;
  ret deleted.

(** [current_state[key] = value] on a dict kept in insertion order. *)
Fixpoint dict_set {V} (k : string) (v : V) (d : list (string * V)) : list (string * V) :=
  match d with
  | [] => [(k, v)]
  | (k', v') :: d' => if String.eqb k' k then (k, v) :: d'
                      else (k', v') :: dict_set k v d'
  end.

(** The first loop of [compact_log]: the snapshot of the cache. *)
Fixpoint snapshot (c : AsyncLRUCache) (keys : list string)
    (current_state : list (string * (option string * option Q)))
    : list (string * (option string * option Q)) :=
  match keys with
  | [] => current_state
  | k :: keys' =>
      match get_raw k c with
      | Some raw => snapshot c keys' (dict_set k raw current_state)
      | None => snapshot c keys' current_state
      end
  end.

(** One turn of the second loop.  [clock n] is the [n]-th reading of
    [time.time()] that [compact_log] makes and [i] the number of readings
    made so far; the result is the record written, if any, with the number
    of readings made then.  The cache hands out an expiry as the float
    nearest to it. *)
Definition compact_item (clock : nat -> PyFloat.float) (i : nat)
    (item : string * (option string * option Q)) : outcome (option line) * nat :=
  let '(key, (value, expires_at)) := item in
  let untimed := (Ok (Some (record (clock i) "SET" key value None)), S i) in
  match expires_at with
  | Some e =>
      let expires_at := PyFloat.of_Q e in
      if PyFloat.truthy expires_at then
        match PyFloat.int (PyFloat.sub expires_at (clock i)) with
        | Raise x => (Raise x, S i)
        | Ok n =>
            let ttl := Z.max 0 n in
            if (ttl <=? 0)%Z then (Ok None, S i)
            else (Ok (Some (record (clock (S i)) "SET" key value (Some ttl))),
                  S (S i))
        end
      else untimed
  | None => untimed
  end.

(** The second loop: the lines written to the temporary file. *)
Fixpoint compact_items (clock : nat -> PyFloat.float) (i : nat)
    (items : list (string * (option string * option Q)))
    : outcome (list line) * nat :=
  match items with
  | [] => (Ok [], i)
  | item :: items' =>
      match compact_item clock i item with
      | (Raise x, j) => (Raise x, j)
      | (Ok l, j) =>
          match compact_items clock j items' with
          | (Raise x, j') => (Raise x, j')
          | (Ok ls, j') =>
              (Ok (match l with Some l' => l' :: ls | None => ls end), j')
          end
      end
  end.

(** [os.rename(self.log_file, backup_file)]: a backup of the same name is
    replaced. *)
Definition rename (name : Z) (old : list line) (backups : list (Z * list line))
    : list (Z * list line) :=
  (name, old) :: List.filter (fun b => negb (fst b =? name)%Z) backups.

(** [compact_log], on a file system whose writes and renames succeed and
    replace what is there.  An exception of the second loop leaves the log
    as it is; the temporary file is not kept in the model. *)
Definition compact_log (clock : nat -> PyFloat.float) : M SimpleAsyncKeyValueStore unit :=
  fun s =>
    match content (log_file s) with
    | None => (Ok tt, s)
    | Some old =>
        match compact_items clock 0
                (snapshot (cache s) (get_all_keys (cache s)) []) with
        | (Raise x, _) => (Raise x, s)
        | (Ok new, i) =>
            match PyFloat.int (clock i) with
            | Raise x => (Raise x, s)
            | Ok name =>
                (Ok tt, mkStore (cache s)
                                (mkFS (Some new)
                                      (rename name old (backups (log_file s)))
                                      (append_fails (log_file s)))
                                (length new))
            end
        end
    end.

(** The backup of a name, if there is one. *)
Fixpoint backup (name : Z) (backups : list (Z * list line)) : option (list line) :=
  match backups with
  | [] => None
  | (n, ls) :: backups' => if (n =? name)%Z then Some ls else backup name backups'
  end.

End SimpleStore.

(** ** The cache as a recency list

    What a client of [LRUCache] sees: the cached pairs, most recently used
    first, and what each call returns. *)

Module LRUModel.

Import LRU.
Local Open Scope py_scope.

(** The first value bound to a key in an association list. *)
Fixpoint assoc {K V} `{EqDecision K} (k : K) (l : list (K * V)) : option V :=
  match l with
  | [] => None
  | (k', v) :: l' => if decide (k' = k) then Some v else assoc k l'
  end.

(** The pairs of an association list that are not bound to a key. *)
Definition without {K V} `{EqDecision K} (k : K) (l : list (K * V)) : list (K * V) :=
  List.filter (fun p => negb (bool_decide (fst p = k))) l.

(** The recency list after [get]: a hit moves the pair to the front. *)
Definition m_get (k : string) (L : list (string * string))
    : option string * list (string * string) :=
  match assoc k L with
  | Some v => (Some v, (k, v) :: without k L)
  | None => (None, L)
  end.

(** The recency list after [put]: an existing key is rebound at the front;
    a new key enters at the front, after the last pair has left when the
    list holds [capacity] pairs or more. *)
Definition m_put (capacity : Z) (k v : string) (L : list (string * string))
    : list (string * string) :=
  match assoc k L with
  | Some _ => (k, v) :: without k L
  | None =>
      (k, v) :: (if (Z.of_nat (length L) >=? capacity)%Z then removelast L else L)
  end.

(** The recency list after [delete]. *)
Definition m_delete (k : string) (L : list (string * string))
    : bool * list (string * string) :=
  match assoc k L with
  | Some _ => (true, without k L)
  | None => (false, L)
  end.

(** What a call returns. *)
Inductive result : Type :=
| Done
| Got (v : option string)
| Deleted (b : bool).

Definition m_step (capacity : Z) (o : op) (L : list (string * string))
    : result * list (string * string) :=
  match o with
  | Put k v => (Done, m_put capacity k v L)
  | Get k => let (v, L') := m_get k L in (Got v, L')
  | Delete k => let (b, L') := m_delete k L in (Deleted b, L')
  end.

Fixpoint m_run (capacity : Z) (os : list op) (L : list (string * string))
    : list result * list (string * string) :=
  match os with
  | [] => ([], L)
  | o :: os' =>
      let (r, L1) := m_step capacity o L in
      let (rs, L2) := m_run capacity os' L1 in
      (r :: rs, L2)
  end.

(** The calls on the cache itself, with what they return. *)
Definition step (o : op) : M LRUCache result :=
  match o with
  | Put k v => do put k v ;; ret Done
  | Get k => let* v := get k in ret (Got v)
  | Delete k => let* b := delete k in ret (Deleted b)
  end.

Fixpoint run (os : list op) : M LRUCache (list result) :=
  match os with
  | [] => ret []
  | o :: os' => let* r := step o in let* rs := run os' in ret (r :: rs)
  end.

(** The caches a program can hold: built by the constructor, then used
    through [put], [get] and [delete]. *)
Definition reachable (c : LRUCache) : Prop :=
  exists capacity os rs, run os (snd (new_LRUCache capacity)) = (Ok rs, c).

(** The pairs of a recency list as the nodes of the cache carry them. *)
Definition embed (L : list (string * string)) : list (option string * option string) :=
  map (fun p => (Some (fst p), Some (snd p))) L.

(** The cached pairs, most recently used first. *)
Definition contents (c : LRUCache) : list (string * string) :=
  omap (fun p => match p with
                 | (Some k, Some v) => Some (k, v)
                 | _ => None
                 end) (items c).

(** [repr c L]: the cache [c] keeps its invariant and holds the list [L]. *)
Definition repr (c : LRUCache) (L : list (string * string)) : Prop :=
  inv c /\ items c = embed L.

(** The nodes of a list, found by following [next] from its head. *)
Definition list_nodes (d : DoublyLinkedList) (h : Heap) : list nat :=
  walk h (length h) (head d) (tail d).

(** [is_list d h ns]: in the heap [h] the list [d] links its head sentinel,
    the nodes [ns] in this order and its tail sentinel, forward and back. *)
Definition is_list (d : DoublyLinkedList) (h : Heap) (ns : list nat) : Prop :=
  NoDup (head d :: ns ++ [tail d])
  /\ linked (next_of h) (prev_of h) (head d :: ns ++ [tail d]).

(** A computation that may allocate objects but rewrites the key of none. *)
Definition keeps_keys {S A} (hp : S -> Heap) (m : M S A) : Prop :=
  forall s r s', m s = (r, s') ->
    length (hp s) <= length (hp s')
    /\ forall b, b < length (hp s) -> key_of (hp s') b = key_of (hp s) b.

End LRUModel.

(** ** app/main.py

    The three handlers over the store [kv_store].  A handler returns the
    JSON object of its reply or raises [HTTPException], which the framework
    answers with that status; an exception of the store leaves the handler
    uncaught. *)

Module Main.

Import Store.

(** [SetRequest] of app/models.py. *)
Record SetRequest : Type := mkSetRequest {
  key : string;
  value : string;
  ttl : option Z
}.

(** How a handler ends. *)
Inductive handled : Type :=
| Return (body : list (string * string))
| HTTPException (status_code : Z) (detail : string)
| Uncaught (e : exn).

Definition handler : Type := KeyValueStore -> handled * KeyValueStore.

Definition set_key (data : SetRequest) : handler :=
  fun kv_store =>
    match set (key data) (value data) kv_store with
    | (Ok _, s) => (Return [("status", "success")], s)
    | (Raise e, s) => (Uncaught e, s)
    end.

Definition get_key (key : string) : handler :=
  fun kv_store =>
    match get key kv_store with
    | (Ok None, s) => (HTTPException 404 "Key not found", s)
    | (Ok (Some value), s) => (Return [("key", key); ("value", value)], s)
    | (Raise e, s) => (Uncaught e, s)
    end.

Definition delete_key (key : string) : handler :=
  fun kv_store =>
    match delete key kv_store with
    | (Ok deleted, s) =>
        if negb deleted then (HTTPException 404 "Key not found", s)
        else (Return [("status", "deleted")], s)
    | (Raise e, s) => (Uncaught e, s)
    end.

End Main.


(** * Properties *)

(** ** The monad *)

Lemma bind_Ok {S A B} (m : M S A) (f : A -> M S B) s a s' :
  m s = (Ok a, s') -> bind m f s = f a s'.
Proof. intros H. unfold bind. now rewrite H. Qed.

Lemma bind_Raise {S A B} (m : M S A) (f : A -> M S B) s e s' :
  m s = (Raise e, s') -> bind m f s = (Raise e, s').
Proof. intros H. unfold bind. now rewrite H. Qed.

(** ** Strings and lines *)

Module PyStrFacts.

Import PyStr.

Lemma app_String c s t : String c s +:+ t = String c (s +:+ t).
Proof. reflexivity. Qed.

Lemma app_Empty s : "" +:+ s = s.
Proof. reflexivity. Qed.

(** [String.append] does not unfold under [simpl]: unfold it by rewriting. *)
Ltac sapp := rewrite ?app_String, ?app_Empty; simpl.

Lemma app_assoc_s (a b c : string) : (a +:+ b) +:+ c = a +:+ b +:+ c.
Proof. induction a as [|x a IH]; sapp; [reflexivity | f_equal; exact IH]. Qed.

Lemma app_empty_r (a : string) : a +:+ "" = a.
Proof. induction a as [|x a IH]; sapp; [reflexivity | f_equal; exact IH]. Qed.

Lemma contains_app c a b : contains c (a +:+ b) = contains c a || contains c b.
Proof.
  induction a as [|x a IH]; sapp; [reflexivity|]. rewrite IH. now rewrite orb_assoc.
Qed.

Lemma universal_newlines_clean s :
  contains CR s = false -> universal_newlines s = s.
Proof.
  induction s as [|c s IH]; simpl; [reflexivity|].
  intros H. apply orb_false_iff in H as [Hc Hs]. rewrite Hc. now rewrite IH.
Qed.

Lemma lines_clean_cons l t :
  contains LF l = false -> lines (l +:+ String LF t) = (l +:+ newline) :: lines t.
Proof.
  induction l as [|c l IH]; sapp; [reflexivity|].
  intros H. apply orb_false_iff in H as [Hc Hl]. rewrite Hc. now rewrite IH.
Qed.


Lemma unlines_app ls ms : unlines (ls ++ ms) = unlines ls +:+ unlines ms.
Proof.
  induction ls as [|l ls IH]; simpl; [reflexivity|].
  now rewrite IH, !app_assoc_s.
Qed.

Lemma contains_unlines_CR ls :
  Forall (fun l => contains CR l = false) ls -> contains CR (unlines ls) = false.
Proof.
  induction 1 as [|l ls Hl _ IH]; simpl; [reflexivity|].
  rewrite !contains_app, Hl, IH. reflexivity.
Qed.

Lemma readlines_unlines ls :
  Forall (fun l => contains CR l = false /\ contains LF l = false) ls ->
  readlines (unlines ls) = map (fun l => l +:+ newline) ls.
Proof.
  intros H. unfold readlines. rewrite universal_newlines_clean.
  - induction H as [|l ls [_ Hl] _ IH]; simpl; [reflexivity|].
    unfold newline at 1. sapp. rewrite lines_clean_cons by exact Hl. now rewrite IH.
  - apply contains_unlines_CR. eapply Forall_impl; [exact H|]. now intros l [? _].
Qed.

Lemma rstrip_app_space s c :
  isspace c = true -> rstrip (s +:+ String c "") = rstrip s.
Proof.
  intros Hc. induction s as [|x s IH]; sapp; [now rewrite Hc|]. now rewrite IH.
Qed.

Lemma rstrip_app a b : rstrip b <> "" -> rstrip (a +:+ b) = a +:+ rstrip b.
Proof.
  intros Hb. induction a as [|x a IH]; sapp; [reflexivity|].
  rewrite IH. destruct (a +:+ rstrip b) eqn:E; [|reflexivity].
  destruct a; [contradiction | discriminate].
Qed.

Lemma rstrip_cons_nonspace c s :
  isspace c = false -> rstrip s = s -> rstrip (String c s) = String c s.
Proof. intros Hc Hs. simpl. rewrite Hs. destruct s; [now rewrite Hc | reflexivity]. Qed.

Lemma split_clean sep s : contains sep s = false -> split sep s = [s].
Proof.
  induction s as [|c s IH]; simpl; [reflexivity|].
  intros H. apply orb_false_iff in H as [Hc Hs]. rewrite Hc, IH by exact Hs. reflexivity.
Qed.

Lemma split_app sep a b :
  contains sep a = false -> split sep (a +:+ String sep b) = a :: split sep b.
Proof.
  induction a as [|c a IH]; sapp; [now rewrite Ascii.eqb_refl|].
  intros H. apply orb_false_iff in H as [Hc Ha]. rewrite Hc, IH by exact Ha. reflexivity.
Qed.

Lemma length_split sep s : length (split sep s) = S (count sep s).
Proof.
  induction s as [|c s IH]; simpl; [reflexivity|].
  destruct (Ascii.eqb c sep); simpl; [now rewrite IH|].
  destruct (split sep s); simpl in *; lia.
Qed.

Lemma count_app c a b : count c (a +:+ b) = count c a + count c b.
Proof. induction a as [|x a IH]; sapp; [reflexivity|]. rewrite IH. lia. Qed.

Lemma count_lstrip s : count PIPE (lstrip s) = count PIPE s.
Proof.
  induction s as [|c s IH]; simpl; [reflexivity|].
  destruct (isspace c) eqn:E; [|reflexivity].
  rewrite IH. destruct (Ascii.eqb c PIPE) eqn:E'; [|reflexivity].
  apply Ascii.eqb_eq in E'. subst c. discriminate.
Qed.

Lemma count_rstrip s : count PIPE (rstrip s) = count PIPE s.
Proof.
  induction s as [|c s IH]; simpl; [reflexivity|].
  destruct (rstrip s) eqn:E.
  - simpl in IH. rewrite <- IH. destruct (isspace c) eqn:Ec; simpl; [|lia].
    destruct (Ascii.eqb c PIPE) eqn:E'; [|reflexivity].
    apply Ascii.eqb_eq in E'. subst c. discriminate.
  - simpl in *. now rewrite IH.
Qed.

Lemma count_strip s : count PIPE (strip s) = count PIPE s.
Proof. unfold strip. now rewrite count_rstrip, count_lstrip. Qed.

Lemma count_contains c s : contains c s = true -> 1 <= count c s.
Proof.
  induction s as [|x s IH]; simpl; [discriminate|].
  destruct (Ascii.eqb x c); simpl; [lia|]. intros H. apply IH in H. lia.
Qed.

End PyStrFacts.

(** ** The object heap *)

Module LRUFacts.

Import LRU.
Local Open Scope py_scope.

Section Setattr.
Variables (h : Heap) (a : nat) (n : Node).
Hypothesis Ha : h !! a = Some n.

Lemma setattr_Ok upd :
  setattr upd (Some a) h = (Ok tt, <[a := upd n]> h).
Proof. unfold setattr. now rewrite Ha. Qed.

Lemma lookup_upd upd b :
  <[a := upd n]> h !! b = if decide (b = a) then Some (upd n) else h !! b.
Proof.
  destruct (decide (b = a)) as [->|Hne].
  - apply list_lookup_insert_eq. eapply lookup_lt_Some, Ha.
  - apply list_lookup_insert_ne. congruence.
Qed.

Lemma next_of_with_next x b :
  next_of (<[a := with_next x n]> h) b
  = if decide (b = a) then x else next_of h b.
Proof. unfold next_of. rewrite lookup_upd. now destruct (decide (b = a)). Qed.

Lemma prev_of_with_next x b :
  prev_of (<[a := with_next x n]> h) b = prev_of h b.
Proof.
  unfold prev_of. rewrite lookup_upd.
  destruct (decide (b = a)) as [->|]; [now rewrite Ha | reflexivity].
Qed.

Lemma next_of_with_prev x b :
  next_of (<[a := with_prev x n]> h) b = next_of h b.
Proof.
  unfold next_of. rewrite lookup_upd.
  destruct (decide (b = a)) as [->|]; [now rewrite Ha | reflexivity].
Qed.

Lemma prev_of_with_prev x b :
  prev_of (<[a := with_prev x n]> h) b
  = if decide (b = a) then x else prev_of h b.
Proof. unfold prev_of. rewrite lookup_upd. now destruct (decide (b = a)). Qed.

Lemma key_of_upd upd b :
  (key (upd n) = key n) -> key_of (<[a := upd n]> h) b = key_of h b.
Proof.
  intros Hk. unfold key_of. rewrite lookup_upd.
  destruct (decide (b = a)) as [->|]; [rewrite Ha; simpl; exact Hk | reflexivity].
Qed.

Lemma value_of_upd upd b :
  (value (upd n) = value n) -> value_of (<[a := upd n]> h) b = value_of h b.
Proof.
  intros Hk. unfold value_of. rewrite lookup_upd.
  destruct (decide (b = a)) as [->|]; [rewrite Ha; simpl; exact Hk | reflexivity].
Qed.
End Setattr.

Lemma of_Some {A} (f : Node -> option A) (h : Heap) a x :
  h !! a ≫= f = Some x -> exists n, h !! a = Some n /\ f n = Some x.
Proof. destruct (h !! a) as [n|] eqn:E; simpl; [eauto | discriminate]. Qed.

Lemma getattr_Ok {A} (f : Node -> A) h a n :
  h !! a = Some n -> getattr f (Some a) h = (Ok (f n), h).
Proof. intros H. unfold getattr. now rewrite H. Qed.

Lemma remove_node_spec d n h p q :
  prev_of h n = Some p -> next_of h n = Some q ->
  is_Some (h !! p) -> is_Some (h !! q) ->
  exists h', remove_node d n h = (Ok tt, h')
    /\ (forall a, next_of h' a = if decide (a = p) then Some q else next_of h a)
    /\ (forall a, prev_of h' a = if decide (a = q) then Some p else prev_of h a)
    /\ same_data h h'.
Proof.
  intros Hp Hq [np Hnp] [nq Hnq].
  apply of_Some in Hp as (nd & Hn & Hp). apply of_Some in Hq as (nd' & Hn' & Hq).
  assert (nd' = nd) by congruence. subst nd'.
  unfold remove_node.
  rewrite (bind_Ok _ _ _ _ _ (getattr_Ok prev h n nd Hn)).
  rewrite (bind_Ok _ _ _ _ _ (getattr_Ok next h n nd Hn)).
  rewrite Hp, Hq.
  rewrite (bind_Ok _ _ _ _ _ (setattr_Ok h p np Hnp _)).
  set (h1 := <[p := with_next (Some q) np]> h).
  assert (exists nq1, h1 !! q = Some nq1 /\ key nq1 = key nq /\ value nq1 = value nq
                      /\ next nq1 = (if decide (q = p) then Some q else next nq)) as (nq1 & Hq1 & Hk1 & Hv1 & Hx1).
  { unfold h1. rewrite (lookup_upd h p np Hnp). destruct (decide (q = p)) as [->|].
    - eexists; split; [reflexivity|]. simpl. replace nq with np by congruence. auto.
    - eauto. }
  rewrite (setattr_Ok h1 q nq1 Hq1).
  eexists; split; [reflexivity|].
  split; [|split; [|split]].
  - intros a. rewrite (next_of_with_prev h1 q nq1 Hq1). unfold h1.
    apply (next_of_with_next h p np Hnp).
  - intros a. rewrite (prev_of_with_prev h1 q nq1 Hq1). unfold h1.
    rewrite (prev_of_with_next h p np Hnp). reflexivity.
  - unfold h1. rewrite !length_insert. reflexivity.
  - intros a. rewrite (key_of_upd h1 q nq1 Hq1), (value_of_upd h1 q nq1 Hq1) by reflexivity.
    unfold h1. rewrite (key_of_upd h p np Hnp), (value_of_upd h p np Hnp) by reflexivity. auto.
Qed.

Lemma add_to_front_spec d n h f :
  next_of h (head d) = Some f -> is_Some (h !! n) -> is_Some (h !! f) ->
  n <> head d -> n <> f ->
  exists h', add_to_front d n h = (Ok tt, h')
    /\ (forall a, next_of h' a = if decide (a = head d) then Some n
                                else if decide (a = n) then Some f else next_of h a)
    /\ (forall a, prev_of h' a = if decide (a = f) then Some n
                                else if decide (a = n) then Some (head d) else prev_of h a)
    /\ same_data h h'.
Proof.
  intros Hf [nn Hn] [nf Hnf] Hnh Hnf'.
  apply of_Some in Hf as (nh & Hh & Hf).
  unfold add_to_front.
  rewrite (bind_Ok _ _ _ _ _ (getattr_Ok next h _ nh Hh)).
  rewrite (bind_Ok _ _ _ _ _ (setattr_Ok h n nn Hn _)).
  set (h1 := <[n := with_next (next nh) nn]> h).
  assert (H1 : h1 !! n = Some (with_next (next nh) nn)).
  { unfold h1. rewrite (lookup_upd h n nn Hn). now rewrite decide_True. }
  rewrite (bind_Ok _ _ _ _ _ (setattr_Ok h1 n _ H1 _)).
  set (h2 := <[n := _]> h1).
  assert (H2 : h2 !! head d = Some nh).
  { unfold h2. rewrite (lookup_upd h1 n _ H1). rewrite decide_False by congruence.
    unfold h1. rewrite (lookup_upd h n nn Hn). now rewrite decide_False by congruence. }
  rewrite (bind_Ok _ _ _ _ _ (getattr_Ok next h2 _ nh H2)). rewrite Hf.
  assert (H2f : h2 !! f = Some nf).
  { unfold h2. rewrite (lookup_upd h1 n _ H1). rewrite decide_False by congruence.
    unfold h1. rewrite (lookup_upd h n nn Hn). now rewrite decide_False by congruence. }
  rewrite (bind_Ok _ _ _ _ _ (setattr_Ok h2 f nf H2f _)).
  set (h3 := <[f := _]> h2).
  assert (exists nh3, h3 !! head d = Some nh3 /\ key nh3 = key nh /\ value nh3 = value nh)
    as (nh3 & H3 & Hk3 & Hv3).
  { unfold h3. rewrite (lookup_upd h2 f nf H2f). destruct (decide (head d = f)) as [E|].
    - eexists; split; [reflexivity|]. simpl. rewrite E in H2. replace nf with nh by congruence. auto.
    - eauto. }
  rewrite (setattr_Ok h3 _ nh3 H3).
  eexists; split; [reflexivity|].
  split; [|split; [|split]].
  - intros a. rewrite (next_of_with_next h3 _ nh3 H3).
    destruct (decide (a = head d)); [reflexivity|].
    unfold h3. rewrite (next_of_with_prev h2 f nf H2f).
    unfold h2. rewrite (next_of_with_prev h1 n _ H1).
    unfold h1. rewrite (next_of_with_next h n nn Hn). rewrite Hf. reflexivity.
  - intros a. rewrite (prev_of_with_next h3 _ nh3 H3).
    unfold h3. rewrite (prev_of_with_prev h2 f nf H2f).
    destruct (decide (a = f)); [reflexivity|].
    unfold h2. rewrite (prev_of_with_prev h1 n _ H1).
    destruct (decide (a = n)); [reflexivity|].
    unfold h1. rewrite (prev_of_with_next h n nn Hn). reflexivity.
  - unfold h3, h2, h1. rewrite !length_insert. reflexivity.
  - intros a. rewrite (key_of_upd h3 _ nh3 H3), (value_of_upd h3 _ nh3 H3) by reflexivity.
    unfold h3. rewrite (key_of_upd h2 f nf H2f), (value_of_upd h2 f nf H2f) by reflexivity.
    unfold h2. rewrite (key_of_upd h1 n _ H1), (value_of_upd h1 n _ H1) by reflexivity.
    unfold h1. rewrite (key_of_upd h n nn Hn), (value_of_upd h n nn Hn) by reflexivity. auto.
Qed.

Section Linked.
Variables nx pv : nat -> option nat.

Lemma linked_cons a b t :
  linked nx pv (a :: b :: t) <-> nx a = Some b /\ pv b = Some a /\ linked nx pv (b :: t).
Proof. reflexivity. Qed.

Lemma linked_app_cons l1 a l2 :
  linked nx pv (l1 ++ a :: l2) <-> linked nx pv (l1 ++ [a]) /\ linked nx pv (a :: l2).
Proof.
  induction l1 as [|x l1 IH].
  - simpl. tauto.
  - destruct l1 as [|y l1].
    + simpl. tauto.
    + change ((x :: y :: l1) ++ a :: l2) with (x :: y :: (l1 ++ a :: l2)).
      change ((x :: y :: l1) ++ [a]) with (x :: y :: (l1 ++ [a])).
      rewrite !linked_cons.
      change (y :: l1 ++ a :: l2) with ((y :: l1) ++ a :: l2).
      change (y :: l1 ++ [a]) with ((y :: l1) ++ [a]).
      rewrite IH. tauto.
Qed.

Variables nx' pv' : nat -> option nat.

(** Changes of [next] outside all but the last element and of [prev]
    outside all but the first leave a chain linked. *)
Lemma linked_frame l :
  (forall i a, l !! i = Some a -> S i < length l -> nx' a = nx a) ->
  (forall i a, l !! S i = Some a -> pv' a = pv a) ->
  linked nx pv l -> linked nx' pv' l.
Proof.
  induction l as [|a l IH]; [easy|].
  destruct l as [|b l]; [easy|].
  intros Hn Hp. rewrite !linked_cons. intros (H1 & H2 & H3).
  split; [|split].
  - rewrite <- H1. apply (Hn 0); [reflexivity | simpl; lia].
  - rewrite <- H2. apply (Hp 0). reflexivity.
  - apply IH; [| |exact H3].
    + intros i c Hi Hlt. apply (Hn (S i)); [exact Hi | simpl in *; lia].
    + intros i c Hi. apply (Hp (S i)). exact Hi.
Qed.

Lemma linked_frame_init l z :
  (forall a, a ∈ l -> nx' a = nx a) ->
  (forall a, a ∈ l ++ [z] -> pv' a = pv a) ->
  linked nx pv (l ++ [z]) -> linked nx' pv' (l ++ [z]).
Proof.
  intros Hn Hp. apply linked_frame.
  - intros i a Hi Hlt. apply Hn. rewrite length_app in Hlt. simpl in Hlt.
    rewrite lookup_app_l in Hi by lia. eapply list_elem_of_lookup_2, Hi.
  - intros i a Hi. apply Hp. eapply list_elem_of_lookup_2, Hi.
Qed.

Lemma linked_frame_tail z l :
  (forall a, a ∈ z :: l -> nx' a = nx a) ->
  (forall a, a ∈ l -> pv' a = pv a) ->
  linked nx pv (z :: l) -> linked nx' pv' (z :: l).
Proof.
  intros Hn Hp. apply linked_frame.
  - intros i a Hi _. apply Hn. eapply list_elem_of_lookup_2, Hi.
  - intros i a Hi. apply Hp. simpl in Hi. eapply list_elem_of_lookup_2, Hi.
Qed.
End Linked.

Lemma is_Some_of {A} (f : Node -> option A) (h : list Node) a x :
  h !! a ≫= f = Some x -> a < length h.
Proof. intros H. apply of_Some in H as (n & Hn & _). eapply lookup_lt_Some, Hn. Qed.

Lemma remove_node_mid d h pre n post :
  pre <> [] -> post <> [] ->
  NoDup (pre ++ n :: post) ->
  linked (next_of h) (prev_of h) (pre ++ n :: post) ->
  exists h', remove_node d n h = (Ok tt, h')
    /\ linked (next_of h') (prev_of h') (pre ++ post)
    /\ same_data h h'.
Proof.
  intros Hpre Hpost Hnd Hl.
  destruct (exists_last Hpre) as (l1 & p & ->).
  destruct post as [|q l2]; [congruence|].
  rewrite <- app_assoc in Hl, Hnd |- *. simpl in Hl, Hnd |- *.
  apply linked_app_cons in Hl as (Hl1 & Hl2).
  apply linked_cons in Hl2 as (Hpn & Hnp & Hl2).
  apply linked_cons in Hl2 as (Hnq & Hqn & Hl2).
  apply NoDup_app in Hnd as (Hnd1 & Hnd2 & Hnd3).
  apply NoDup_cons in Hnd3 as (Hp & Hnd3).
  apply NoDup_cons in Hnd3 as (Hn & Hnd3).
  apply NoDup_cons in Hnd3 as (Hq & Hnd3).
  destruct (remove_node_spec d n h p q) as (h' & Hrun & Hnx & Hpv & Hsd); auto.
  { apply lookup_lt_is_Some. eapply is_Some_of, Hpn. }
  { apply lookup_lt_is_Some. eapply is_Some_of, Hqn. }
  exists h'. split; [exact Hrun|]. split; [|exact Hsd].
  apply linked_app_cons. split.
  - apply (linked_frame_init (next_of h) (prev_of h)); [| |exact Hl1].
    + intros a Ha. rewrite Hnx. rewrite decide_False; [reflexivity|].
      intros ->. apply (Hnd2 p Ha). left.
    + intros a Ha. rewrite Hpv. rewrite decide_False; [reflexivity|].
      intros ->. apply elem_of_app in Ha as [Ha|Ha].
      * apply (Hnd2 q Ha). do 2 right. left.
      * apply list_elem_of_singleton in Ha. subst. apply Hp. right. left.
  - apply linked_cons. split; [|split].
    + rewrite Hnx. now rewrite decide_True.
    + rewrite Hpv. now rewrite decide_True.
    + apply (linked_frame_tail (next_of h) (prev_of h)); [| |exact Hl2].
      * intros a Ha. rewrite Hnx. rewrite decide_False; [reflexivity|].
        intros ->. apply Hp. right. exact Ha.
      * intros a Ha. rewrite Hpv. rewrite decide_False; [reflexivity|].
        intros ->. exact (Hq Ha).
Qed.

Lemma add_to_front_chain d h n f rest :
  n < length h -> n ∉ head d :: f :: rest ->
  NoDup (head d :: f :: rest) ->
  linked (next_of h) (prev_of h) (head d :: f :: rest) ->
  exists h', add_to_front d n h = (Ok tt, h')
    /\ linked (next_of h') (prev_of h') (head d :: n :: f :: rest)
    /\ same_data h h'.
Proof.
  intros Hn Hnin Hnd Hl.
  apply linked_cons in Hl as (Hhf & Hfh & Hl).
  apply NoDup_cons in Hnd as (Hh & Hnd).
  apply NoDup_cons in Hnd as (Hf & Hnd).
  assert (n <> head d) by (intros ->; apply Hnin; left).
  assert (n <> f) by (intros ->; apply Hnin; right; left).
  assert (f <> head d) by (intros ->; apply Hh; left).
  destruct (add_to_front_spec d n h f) as (h' & Hrun & Hnx & Hpv & Hsd); auto.
  { now apply lookup_lt_is_Some. }
  { apply lookup_lt_is_Some. eapply is_Some_of, Hfh. }
  exists h'. split; [exact Hrun|]. split; [|exact Hsd].
  apply linked_cons. split; [|split].
  - rewrite Hnx. now rewrite decide_True.
  - rewrite Hpv. rewrite decide_False by assumption. now rewrite decide_True.
  - apply linked_cons. split; [|split].
    + rewrite Hnx. rewrite decide_False by assumption. now rewrite decide_True.
    + rewrite Hpv. now rewrite decide_True.
    + apply (linked_frame_tail (next_of h) (prev_of h)); [| |exact Hl].
      * intros a Ha. rewrite Hnx. rewrite !decide_False; [reflexivity| |].
        -- intros ->. apply Hnin. right. exact Ha.
        -- intros ->. apply Hh. exact Ha.
      * intros a Ha. rewrite Hpv. rewrite !decide_False; [reflexivity| |].
        -- intros ->. apply Hnin. do 2 right. exact Ha.
        -- intros ->. exact (Hf Ha).
Qed.

Lemma linked_last_prev nx pv l a z :
  linked nx pv (l ++ [a; z]) -> pv z = Some a.
Proof.
  intros H. change (l ++ [a; z]) with (l ++ a :: [z]) in H.
  apply linked_app_cons in H as (_ & H). apply H.
Qed.

Lemma remove_from_end_empty d h :
  linked (next_of h) (prev_of h) [head d; tail d] ->
  remove_from_end d h = (Ok None, h).
Proof.
  intros H. apply (linked_last_prev (next_of h) _ []) in H.
  apply of_Some in H as (nt & Ht & Hp).
  unfold remove_from_end.
  rewrite (bind_Ok _ _ _ _ _ (getattr_Ok prev h _ nt Ht)).
  rewrite Hp. now rewrite decide_True.
Qed.

Lemma remove_from_end_last d h ns l :
  NoDup (head d :: (ns ++ [l]) ++ [tail d]) ->
  linked (next_of h) (prev_of h) (head d :: (ns ++ [l]) ++ [tail d]) ->
  exists h', remove_from_end d h = (Ok (Some l), h')
    /\ linked (next_of h') (prev_of h') (head d :: ns ++ [tail d])
    /\ same_data h h'.
Proof.
  intros Hnd Hl.
  assert (Hp : prev_of h (tail d) = Some l).
  { apply (linked_last_prev (next_of h) _ (head d :: ns)). now rewrite <- app_assoc in Hl. }
  assert (Hne : l <> head d).
  { intros ->. apply NoDup_cons in Hnd as (Hh & _). apply Hh.
    apply elem_of_app. left. apply elem_of_app. right. left. }
  pose proof Hp as Hp'. apply of_Some in Hp' as (nt & Ht & Hpt).
  unfold remove_from_end.
  rewrite (bind_Ok _ _ _ _ _ (getattr_Ok prev h _ nt Ht)).
  rewrite Hpt. rewrite decide_False by congruence.
  rewrite (bind_Ok _ _ _ _ _ (getattr_Ok prev h _ nt Ht)). rewrite Hpt.
  destruct (remove_node_mid d h (head d :: ns) l [tail d]) as (h' & Hrun & Hl' & Hsd);
    [easy | easy | | | ].
  - now rewrite <- app_assoc in Hnd.
  - now rewrite <- app_assoc in Hl.
  - exists h'. rewrite (bind_Ok _ _ _ _ _ Hrun). auto.
Qed.

Lemma walk_linked h stop ns : forall fuel cur,
  length ns < fuel -> stop ∉ ns ->
  linked (next_of h) (prev_of h) (cur :: ns ++ [stop]) ->
  walk h fuel cur stop = ns.
Proof.
  induction ns as [|x ns IH]; intros fuel cur Hf Hs Hl.
  - destruct fuel; [simpl in Hf; lia|]. simpl in *. destruct Hl as (-> & _).
    now rewrite decide_True.
  - destruct fuel; [simpl in Hf; lia|].
    change (cur :: (x :: ns) ++ [stop]) with (cur :: x :: ns ++ [stop]) in Hl.
    apply linked_cons in Hl as (Hx & _ & Hl). simpl. rewrite Hx.
    rewrite decide_False.
    + f_equal. apply IH; [simpl in Hf; lia | | exact Hl].
      intros H. apply Hs. now right.
    + intros ->. apply Hs. left.
Qed.

Lemma linked_alloc h l :
  linked (next_of h) (prev_of h) l -> 2 <= length l ->
  forall a, a ∈ l -> a < length h.
Proof.
  induction l as [|x l IH]; intros Hl Hlen a Ha; [simpl in Hlen; lia|].
  destruct l as [|y l]; [simpl in Hlen; lia|].
  apply linked_cons in Hl as (Hx & Hy & Hl).
  apply elem_of_cons in Ha as [->|Ha]; [eapply is_Some_of, Hx|].
  destruct l as [|z l].
  - apply list_elem_of_singleton in Ha. subst. eapply is_Some_of, Hy.
  - apply IH; [exact Hl | simpl; lia | exact Ha].
Qed.

Lemma same_data_trans h1 h2 h3 :
  same_data h1 h2 -> same_data h2 h3 -> same_data h1 h3.
Proof.
  intros [L1 D1] [L2 D2]. split; [congruence|].
  intros a. destruct (D1 a), (D2 a). split; congruence.
Qed.

Lemma same_data_refl h : same_data h h.
Proof. split; auto. Qed.

(** [remove_node] then [add_to_front]: the node moves to the front. *)
Lemma touch_chain d h l1 a l2 :
  NoDup (head d :: l1 ++ a :: l2 ++ [tail d]) ->
  linked (next_of h) (prev_of h) (head d :: l1 ++ a :: l2 ++ [tail d]) ->
  exists h1 h2, remove_node d a h = (Ok tt, h1)
    /\ add_to_front d a h1 = (Ok tt, h2)
    /\ linked (next_of h2) (prev_of h2) (head d :: a :: l1 ++ l2 ++ [tail d])
    /\ same_data h h1 /\ same_data h h2.
Proof.
  intros Hnd Hl.
  assert (Ha : a < length h).
  { eapply linked_alloc; [exact Hl | simpl; rewrite !length_app; simpl; lia |].
    right. apply elem_of_app. right. left. }
  destruct (remove_node_mid d h (head d :: l1) a (l2 ++ [tail d]))
    as (h1 & Hrun1 & Hl1 & Hsd1); [easy | now destruct l2 | exact Hnd | exact Hl |].
  assert (Hnd1 : NoDup (a :: head d :: l1 ++ l2 ++ [tail d])).
  { eapply NoDup_Permutation_proper; [|exact Hnd].
    apply (Permutation_middle (head d :: l1) (l2 ++ [tail d]) a). }
  apply NoDup_cons in Hnd1 as (Hnin & Hnd1).
  simpl in Hl1.
  destruct (l1 ++ l2 ++ [tail d]) as [|f rest] eqn:E.
  { destruct l1; [destruct l2|]; discriminate. }
  destruct (add_to_front_chain d h1 a f rest) as (h2 & Hrun2 & Hl2 & Hsd2); auto.
  { destruct Hsd1 as [-> _]. exact Ha. }
  exists h1, h2. split; [exact Hrun1|]. split; [exact Hrun2|].
  split; [exact Hl2|]. split; [exact Hsd1|].
  eapply same_data_trans; eauto.
Qed.

Lemma linked_frame_all nx pv nx' pv' l :
  (forall a, a ∈ l -> nx' a = nx a /\ pv' a = pv a) ->
  linked nx pv l -> linked nx' pv' l.
Proof.
  intros H. apply linked_frame; intros i a Hi; intros;
    apply H; eapply list_elem_of_lookup_2, Hi.
Qed.

Lemma on_heap_run {A} (m : M (list Node) A) c r h' :
  m (heap c) = (r, h') ->
  on_heap m c = (r, mkLRU h' (capacity c) (cache c) (dll c)).
Proof. intros H. unfold on_heap. now rewrite H. Qed.

Lemma wf_lookup c ns k a :
  wf c ns -> cache c !! k = Some a ->
  exists l1 l2, ns = l1 ++ a :: l2 /\ key_of (heap c) a = Some k.
Proof.
  intros W H. apply (wf_index _ _ W) in H as (Hin & Hk).
  apply list_elem_of_split in Hin as (l1 & l2 & ->). eauto.
Qed.

Lemma wf_chain_alloc c ns a :
  wf c ns -> a ∈ chain c ns -> a < length (heap c).
Proof.
  intros W. eapply linked_alloc; [apply (wf_linked _ _ W)|].
  unfold chain. simpl. rewrite length_app. simpl. lia.
Qed.

(** A cache whose list holds a permutation of the nodes, over a heap with the
    same keys and the same index, is well formed once its list is linked. *)
Lemma wf_transport c ns h' ns' :
  wf c ns -> ns' ≡ₚ ns ->
  linked (next_of h') (prev_of h') (head (dll c) :: ns' ++ [tail (dll c)]) ->
  (forall a, key_of h' a = key_of (heap c) a) ->
  wf (mkLRU h' (capacity c) (cache c) (dll c)) ns'.
Proof.
  intros W P L K. constructor; simpl.
  - unfold chain. simpl. rewrite P. apply (wf_nodup _ _ W).
  - exact L.
  - intros a. rewrite K, P. apply (wf_keys _ _ W).
  - intros k a. rewrite (wf_index _ _ W), K, P. reflexivity.
  - rewrite (wf_size _ _ W), P. reflexivity.
Qed.

Lemma get_miss c k : cache c !! k = None -> get k c = (Ok None, c).
Proof. intros H. unfold get. now rewrite H. Qed.

Lemma get_hit c ns k a :
  wf c ns -> cache c !! k = Some a ->
  exists c' l1 l2, ns = l1 ++ a :: l2
    /\ get k c = (Ok (value_of (heap c) a), c')
    /\ wf c' (a :: l1 ++ l2)
    /\ capacity c' = capacity c /\ cache c' = cache c /\ dll c' = dll c
    /\ same_data (heap c) (heap c').
Proof.
  intros W H. destruct (wf_lookup _ _ _ _ W H) as (l1 & l2 & -> & Hk).
  pose proof (wf_nodup _ _ W) as Hnd. pose proof (wf_linked _ _ W) as Hl.
  unfold chain in Hnd, Hl. rewrite <- app_assoc in Hnd, Hl. simpl in Hnd, Hl.
  destruct (touch_chain _ _ _ _ _ Hnd Hl) as (h1 & h2 & R1 & R2 & L2 & S1 & S2).
  eexists _, l1, l2. split; [reflexivity|].
  unfold get. rewrite H.
  rewrite (bind_Ok _ _ _ _ _ (on_heap_run _ c _ _ R1)).
  rewrite (bind_Ok _ _ _ _ _ (on_heap_run _ (mkLRU h1 _ _ _) _ _ R2)). simpl.
  assert (exists n, h2 !! a = Some n /\ value n = value_of (heap c) a) as (n & Hn & Hv).
  { destruct S2 as [Hlen D]. destruct (D a) as [_ Dv].
    assert (Ha : a < length h2).
    { rewrite Hlen. eapply is_Some_of, Hk. }
    apply lookup_lt_is_Some in Ha as [n Hn]. exists n. split; [exact Hn|].
    rewrite <- Dv. unfold value_of. now rewrite Hn. }
  rewrite (on_heap_run _ (mkLRU h2 _ _ _) _ _ (getattr_Ok value h2 a n Hn)). simpl.
  rewrite Hv. split; [reflexivity|].
  split; [|auto].
  apply (wf_transport c (l1 ++ a :: l2)); [exact W | apply Permutation_middle | |].
  - simpl. now rewrite <- app_assoc.
  - intros b. apply S2.
Qed.

Lemma delete_miss c k : cache c !! k = None -> delete k c = (Ok false, c).
Proof. intros H. unfold delete. now rewrite H. Qed.

Lemma delete_hit c ns k a :
  wf c ns -> cache c !! k = Some a ->
  exists c' l1 l2, ns = l1 ++ a :: l2
    /\ delete k c = (Ok true, c')
    /\ wf c' (l1 ++ l2)
    /\ capacity c' = capacity c /\ cache c' = base.delete k (cache c)
    /\ dll c' = dll c /\ same_data (heap c) (heap c').
Proof.
  intros W H. destruct (wf_lookup _ _ _ _ W H) as (l1 & l2 & -> & Hk).
  pose proof (wf_nodup _ _ W) as Hnd. pose proof (wf_linked _ _ W) as Hl.
  unfold chain in Hnd, Hl.
  change (head (dll c) :: (l1 ++ a :: l2) ++ [tail (dll c)])
    with ((head (dll c) :: l1 ++ a :: l2) ++ [tail (dll c)]) in Hnd, Hl.
  rewrite (app_comm_cons l1), <- app_assoc in Hnd, Hl. simpl in Hnd, Hl.
  destruct (remove_node_mid (dll c) (heap c) (head (dll c) :: l1) a (l2 ++ [tail (dll c)]))
    as (h1 & R1 & L1 & S1); [easy | now destruct l2 | exact Hnd | exact Hl |].
  eexists _, l1, l2. split; [reflexivity|].
  unfold delete. rewrite H.
  rewrite (bind_Ok _ _ _ _ _ (on_heap_run _ c _ _ R1)).
  unfold del_cache, bind, ret. simpl. rewrite H. simpl.
  split; [reflexivity|]. split; [|auto].
  change (NoDup ((head (dll c) :: l1) ++ a :: l2 ++ [tail (dll c)])) in Hnd.
  apply NoDup_app in Hnd as (N1 & N2 & N3). apply NoDup_cons in N3 as (N3 & N4).
  constructor; simpl.
  - unfold chain. simpl. rewrite <- app_assoc.
    change (NoDup ((head (dll c) :: l1) ++ l2 ++ [tail (dll c)])).
    apply NoDup_app. split; [exact N1|]. split; [|exact N4].
    intros x Hx Hx'. apply (N2 x Hx). now right.
  - unfold chain. simpl. now rewrite <- app_assoc.
  - intros b Hb. destruct S1 as [_ D]. destruct (D b) as [-> _].
    apply (wf_keys _ _ W).
    apply elem_of_app in Hb as [Hb|Hb]; apply elem_of_app; [left|right; right]; auto.
  - intros k' b. destruct S1 as [_ D]. destruct (D b) as [-> _].
    destruct (decide (k' = k)) as [->|Hne].
    + rewrite lookup_delete_eq. split; [discriminate|]. intros [Hb Hkb].
      exfalso. assert (Hb' : cache c !! k = Some b).
      { apply (wf_index _ _ W). split; [|exact Hkb].
        apply elem_of_app in Hb as [Hb|Hb]; apply elem_of_app; [left|right; right]; auto. }
      assert (b = a) by congruence. subst b.
      apply elem_of_app in Hb as [Hb|Hb].
      * apply (N2 a); [now right | left].
      * apply N3. apply elem_of_app. now left.
    + rewrite lookup_delete_ne by congruence. rewrite (wf_index _ _ W).
      split; intros [Hb Hkb]; (split; [|exact Hkb]).
      * apply elem_of_app in Hb as [Hb|Hb]; [apply elem_of_app; now left|].
        apply elem_of_cons in Hb as [->|Hb]; [congruence|]. apply elem_of_app. now right.
      * apply elem_of_app in Hb as [Hb|Hb]; apply elem_of_app; [left|right; right]; auto.
  - rewrite map_size_delete_Some by eauto. rewrite (wf_size _ _ W).
    rewrite !length_app. simpl. lia.
Qed.

Lemma next_of_with_value h a n v b :
  h !! a = Some n -> next_of (<[a := with_value v n]> h) b = next_of h b.
Proof.
  intros Ha. unfold next_of. rewrite (lookup_upd h a n Ha).
  destruct (decide (b = a)) as [->|]; [now rewrite Ha | reflexivity].
Qed.

Lemma prev_of_with_value h a n v b :
  h !! a = Some n -> prev_of (<[a := with_value v n]> h) b = prev_of h b.
Proof.
  intros Ha. unfold prev_of. rewrite (lookup_upd h a n Ha).
  destruct (decide (b = a)) as [->|]; [now rewrite Ha | reflexivity].
Qed.

Lemma value_of_with_value h a n v b :
  h !! a = Some n ->
  value_of (<[a := with_value v n]> h) b = if decide (b = a) then v else value_of h b.
Proof.
  intros Ha. unfold value_of. rewrite (lookup_upd h a n Ha).
  now destruct (decide (b = a)).
Qed.

Lemma put_hit c ns k v a :
  wf c ns -> cache c !! k = Some a ->
  exists c' l1 l2, ns = l1 ++ a :: l2
    /\ put k v c = (Ok tt, c')
    /\ wf c' (a :: l1 ++ l2)
    /\ capacity c' = capacity c /\ cache c' = cache c /\ dll c' = dll c
    /\ length (heap c') = length (heap c)
    /\ (forall b, key_of (heap c') b = key_of (heap c) b)
    /\ (forall b, value_of (heap c') b
                  = if decide (b = a) then Some v else value_of (heap c) b).
Proof.
  intros W H. destruct (wf_lookup _ _ _ _ W H) as (l1 & l2 & -> & Hk).
  pose proof (wf_nodup _ _ W) as Hnd. pose proof (wf_linked _ _ W) as Hl.
  unfold chain in Hnd, Hl. rewrite <- app_assoc in Hnd, Hl. simpl in Hnd, Hl.
  pose proof Hk as Hk'. apply of_Some in Hk' as (n & Hn & Hkn).
  set (h0 := <[a := with_value (Some v) n]> (heap c)).
  assert (Hl0 : linked (next_of h0) (prev_of h0)
                  (head (dll c) :: l1 ++ a :: l2 ++ [tail (dll c)])).
  { eapply linked_frame_all; [|exact Hl]. intros b _. unfold h0.
    now rewrite (next_of_with_value _ _ _ _ _ Hn), (prev_of_with_value _ _ _ _ _ Hn). }
  destruct (touch_chain _ _ _ _ _ Hnd Hl0) as (h1 & h2 & R1 & R2 & L2 & S1 & S2).
  eexists _, l1, l2. split; [reflexivity|].
  unfold put. rewrite H.
  rewrite (bind_Ok _ _ _ _ _ (on_heap_run _ c _ _ (setattr_Ok _ _ _ Hn _))).
  rewrite (bind_Ok _ _ _ _ _ (on_heap_run _ (mkLRU h0 _ _ _) _ _ R1)).
  rewrite (on_heap_run _ (mkLRU h1 _ _ _) _ _ R2). simpl.
  split; [reflexivity|].
  assert (K : forall b, key_of h2 b = key_of (heap c) b).
  { intros b. destruct S2 as [_ D]. destruct (D b) as [-> _].
    unfold h0. now rewrite (key_of_upd _ _ _ Hn). }
  split.
  { apply (wf_transport c (l1 ++ a :: l2)); [exact W | apply Permutation_middle | | exact K].
    simpl. now rewrite <- app_assoc. }
  do 3 (split; [reflexivity|]).
  split; [|split; [exact K|]].
  - simpl. destruct S2 as [E _]. rewrite E. unfold h0. now rewrite length_insert.
  - intros b. simpl. destruct S2 as [_ D]. destruct (D b) as [_ E]. rewrite E.
    unfold h0. now rewrite (value_of_with_value _ _ _ _ _ Hn).
Qed.

Lemma evict_spec c ns :
  wf c ns ->
  exists c1, evict c c = (Ok tt, c1)
    /\ wf c1 (removelast ns)
    /\ capacity c1 = capacity c /\ dll c1 = dll c
    /\ same_data (heap c) (heap c1)
    /\ (forall k, cache c !! k = None -> cache c1 !! k = None).
Proof.
  intros W. destruct ns as [|x ns' _] using rev_ind.
  - exists c. unfold evict.
    rewrite (bind_Ok _ _ _ _ _ (on_heap_run _ c _ _
               (remove_from_end_empty (dll c) (heap c) (wf_linked _ _ W)))).
    split; [destruct c; reflexivity|]. split; [exact W|].
    do 2 (split; [reflexivity|]). split; [apply same_data_refl | auto].
  - pose proof (wf_nodup _ _ W) as Hnd. pose proof (wf_linked _ _ W) as Hl.
    unfold chain in Hnd, Hl.
    destruct (remove_from_end_last _ _ _ _ Hnd Hl) as (h1 & R1 & L1 & S1).
    assert (Hx : x ∈ ns' ++ [x]) by (apply elem_of_app; right; left).
    destruct (wf_keys _ _ W x Hx) as [kx Hkx].
    assert (Hcx : cache c !! kx = Some x) by now apply (wf_index _ _ W).
    assert (exists n, h1 !! x = Some n /\ key n = Some kx) as (n & Hn & Hkn).
    { apply of_Some. destruct S1 as [_ D]. destruct (D x) as [E _].
      unfold key_of in E. rewrite E. exact Hkx. }
    eexists. unfold evict.
    rewrite (bind_Ok _ _ _ _ _ (on_heap_run _ c _ _ R1)).
    rewrite (bind_Ok _ _ _ _ _ (on_heap_run _ (mkLRU h1 _ _ _) _ _ (getattr_Ok key h1 x n Hn))).
    rewrite Hkn. unfold del_cache. simpl. rewrite Hcx.
    split; [reflexivity|]. rewrite removelast_last.
    apply NoDup_cons in Hnd as (N0 & Hnd). rewrite <- app_assoc in Hnd.
    apply NoDup_app in Hnd as (N1 & N2 & N3). apply NoDup_cons in N3 as (N3 & N4).
    split; [|simpl; repeat split; auto; try apply S1].
    + constructor; simpl.
      * unfold chain. simpl. apply NoDup_cons. split.
        -- intros Hh. apply N0. apply elem_of_app in Hh as [Hh|Hh];
             apply elem_of_app; [left; apply elem_of_app; now left | now right].
        -- apply NoDup_app. split; [exact N1|]. split; [|exact N4].
           intros y Hy Hy'. apply (N2 y Hy). now right.
      * exact L1.
      * intros b Hb. destruct S1 as [_ D]. destruct (D b) as [-> _].
        apply (wf_keys _ _ W). apply elem_of_app. now left.
      * intros k b. destruct S1 as [_ D]. destruct (D b) as [-> _].
        destruct (decide (k = kx)) as [->|Hne].
        -- rewrite lookup_delete_eq. split; [discriminate|]. intros [Hb Hkb].
           exfalso. assert (Hb' : cache c !! kx = Some b).
           { apply (wf_index _ _ W). split; [apply elem_of_app; now left | exact Hkb]. }
           assert (b = x) by congruence. subst b. apply (N2 x Hb). left.
        -- rewrite lookup_delete_ne by congruence. rewrite (wf_index _ _ W).
           split; intros [Hb Hkb]; (split; [|exact Hkb]).
           ++ apply elem_of_app in Hb as [Hb|Hb]; [exact Hb|].
              apply list_elem_of_singleton in Hb. subst b. congruence.
           ++ apply elem_of_app. now left.
      * rewrite map_size_delete_Some by eauto. rewrite (wf_size _ _ W).
        rewrite length_app. simpl. lia.
    + intros k Hk. destruct (decide (k = kx)) as [->|Hne];
        [apply lookup_delete_eq | rewrite lookup_delete_ne by congruence; exact Hk].
Qed.

Lemma lookup_alloc (h : list Node) n b :
  (h ++ [n]) !! b = if decide (b = length h) then Some n else h !! b.
Proof.
  destruct (decide (b = length h)) as [->|Hne].
  - now rewrite list_lookup_middle.
  - destruct (decide (b < length h)).
    + now rewrite lookup_app_l.
    + rewrite !lookup_ge_None_2; [reflexivity | lia |].
      rewrite length_app. simpl. lia.
Qed.

Lemma put_miss_unfold c k v :
  cache c !! k = None ->
  put k v c =
  (do (if (Z.of_nat (base.size (cache c)) >=? capacity c)%Z then evict c else ret tt) ;;
   let* new_node := on_heap (new_Node (Some k) (Some v)) in
   do on_heap (add_to_front (dll c) new_node) ;;
   set_item k new_node)%py c.
Proof. intros H. unfold put, evict. now rewrite H. Qed.

Lemma put_miss c ns k v :
  wf c ns -> cache c !! k = None ->
  exists c', put k v c = (Ok tt, c')
    /\ wf c' (length (heap c)
              :: (if (Z.of_nat (base.size (cache c)) >=? capacity c)%Z
                  then removelast ns else ns))
    /\ capacity c' = capacity c /\ dll c' = dll c
    /\ cache c' !! k = Some (length (heap c))
    /\ value_of (heap c') (length (heap c)) = Some v
    /\ (forall b, b <> length (heap c) ->
          value_of (heap c') b = value_of (heap c) b)
    /\ ((Z.of_nat (base.size (cache c)) >=? capacity c)%Z = false ->
        cache c' = <[k := length (heap c)]> (cache c)).
Proof.
  intros W Hk. rewrite (put_miss_unfold c k v Hk).
  set (ns1 := if (Z.of_nat (base.size (cache c)) >=? capacity c)%Z
              then removelast ns else ns).
  assert (exists c1,
    (if (Z.of_nat (base.size (cache c)) >=? capacity c)%Z then evict c else ret tt) c
      = (Ok tt, c1)
    /\ wf c1 ns1 /\ capacity c1 = capacity c /\ dll c1 = dll c
    /\ same_data (heap c) (heap c1) /\ cache c1 !! k = None
    /\ ((Z.of_nat (base.size (cache c)) >=? capacity c)%Z = false -> c1 = c))
    as (c1 & R1 & W1 & C1 & D1 & S1 & K1 & E1).
  { unfold ns1. destruct (Z.of_nat (base.size (cache c)) >=? capacity c)%Z.
    - destruct (evict_spec c ns W) as (c1 & ? & ? & ? & ? & ? & Hnone).
      exists c1. do 5 (split; [assumption|]). split; [now apply Hnone | discriminate].
    - exists c. split; [reflexivity|]. split; [exact W|].
      do 2 (split; [reflexivity|]). split; [apply same_data_refl|].
      split; [exact Hk | reflexivity]. }
  rewrite (bind_Ok _ _ _ _ _ R1). clearbody ns1.
  set (a := length (heap c)).
  assert (Ea : a = length (heap c1)) by (destruct S1 as [E _]; now rewrite E).
  set (n := mkNode (Some k) (Some v) None None).
  set (h2 := heap c1 ++ [n]).
  assert (R2 : new_Node (Some k) (Some v) (heap c1) = (Ok a, h2)).
  { unfold new_Node. now rewrite Ea. }
  rewrite (bind_Ok _ _ _ _ _ (on_heap_run _ c1 _ _ R2)).
  pose proof (wf_nodup _ _ W1) as Hnd. pose proof (wf_linked _ _ W1) as Hl.
  assert (Hall : forall b, b ∈ chain c1 ns1 -> b < a).
  { intros b Hb. rewrite Ea. eapply wf_chain_alloc; eauto. }
  assert (Hl2 : linked (next_of h2) (prev_of h2) (chain c1 ns1)).
  { eapply linked_frame_all; [|exact Hl]. intros b Hb. apply Hall in Hb.
    unfold next_of, prev_of, h2. rewrite lookup_alloc.
    rewrite decide_False by lia. auto. }
  unfold chain in Hnd, Hl2, Hall. rewrite D1 in Hnd, Hl2, Hall.
  destruct (ns1 ++ [tail (dll c)]) as [|f rest] eqn:E; [now destruct ns1|].
  destruct (add_to_front_chain (dll c) h2 a f rest) as (h3 & R3 & L3 & S3).
  { unfold h2. rewrite length_app. simpl. lia. }
  { intros Hin. apply Hall in Hin. lia. }
  { exact Hnd. }
  { exact Hl2. }
  rewrite (bind_Ok _ _ _ _ _ (on_heap_run _ (mkLRU h2 _ _ _) _ _ R3)).
  unfold set_item, set_cache. simpl.
  eexists. split; [reflexivity|].
  assert (Kof : forall b, key_of h3 b = if decide (b = a) then Some k else key_of (heap c1) b).
  { intros b. destruct S3 as [_ D]. destruct (D b) as [-> _].
    unfold key_of, h2. rewrite lookup_alloc, <- Ea. now destruct (decide (b = a)). }
  split; [|simpl; repeat split; auto].
  - constructor; simpl.
    + unfold chain. simpl. rewrite D1, E.
      eapply NoDup_Permutation_proper; [apply perm_swap|].
      apply NoDup_cons. split; [|exact Hnd]. intros Hin. apply Hall in Hin. lia.
    + unfold chain. simpl. rewrite D1, E. exact L3.
    + intros b Hb. rewrite Kof. destruct (decide (b = a)); [eauto|].
      apply elem_of_cons in Hb as [->|Hb]; [congruence|]. apply (wf_keys _ _ W1 b Hb).
    + intros k' b. rewrite Kof.
      assert (Hns : forall x, x ∈ ns1 -> x <> a).
      { intros x Hx ->. assert (a < a); [|lia]. apply Hall. right.
        rewrite <- E. apply elem_of_app. now left. }
      destruct (decide (k' = k)) as [->|Hne].
      * rewrite lookup_insert_eq. split.
        -- intros [= <-]. split; [left|]. now rewrite decide_True.
        -- intros [Hb Hkb]. destruct (decide (b = a)) as [->|Hba]; [reflexivity|].
           exfalso. apply elem_of_cons in Hb as [->|Hb]; [congruence|].
           assert (cache c1 !! k = Some b) by (apply (wf_index _ _ W1); auto).
           congruence.
      * rewrite lookup_insert_ne by congruence. rewrite (wf_index _ _ W1).
        split.
        -- intros [Hb Hkb]. rewrite decide_False by (now apply Hns).
           split; [now right | exact Hkb].
        -- intros [Hb Hkb]. destruct (decide (b = a)) as [->|Hba]; [congruence|].
           apply elem_of_cons in Hb as [->|Hb]; [congruence|]. auto.
    + rewrite map_size_insert_None by exact K1. now rewrite (wf_size _ _ W1).
  - apply lookup_insert_eq.
  - destruct S3 as [_ D]. destruct (D a) as [_ ->].
    unfold value_of, h2. rewrite lookup_alloc, <- Ea. now rewrite decide_True.
  - intros b Hb. destruct S3 as [_ D]. destruct (D b) as [_ ->].
    destruct S1 as [_ D']. destruct (D' b) as [_ <-].
    unfold value_of, h2. rewrite lookup_alloc, <- Ea. now rewrite decide_False.
  - intros Hfull. now rewrite (E1 Hfull).
Qed.

Lemma new_LRUCache_eq cap :
  new_LRUCache cap
  = (Ok tt, mkLRU [mkNode None None None (Some 1); mkNode None None (Some 0) None]
                  cap ∅ (mkDLL 0 1)).
Proof. reflexivity. Qed.

Lemma wf_new cap c : new_LRUCache cap = (Ok tt, c) -> wf c [] /\ capacity c = cap.
Proof.
  rewrite new_LRUCache_eq. intros [= <-]. split; [|reflexivity].
  constructor; simpl.
  - unfold chain. simpl. apply NoDup_cons. split.
    + intros H. apply list_elem_of_singleton in H. discriminate.
    + apply NoDup_singleton.
  - unfold chain. simpl. auto.
  - intros a H. inversion H.
  - intros k a. rewrite lookup_empty. split; [discriminate|]. intros [H _]. inversion H.
  - apply map_size_empty.
Qed.

Lemma NoDup_bounded_length (l : list nat) n :
  NoDup l -> (forall a, a ∈ l -> a < n) -> length l <= n.
Proof.
  intros Hnd Hb. rewrite <- (length_seq n 0) at 1.
  apply submseteq_length, NoDup_submseteq; [exact Hnd|].
  intros a Ha. apply elem_of_seq. specialize (Hb a Ha). lia.
Qed.

Lemma nodes_wf c ns : wf c ns -> nodes c = ns.
Proof.
  intros W. unfold nodes. apply walk_linked.
  - pose proof (NoDup_bounded_length _ (length (heap c)) (wf_nodup _ _ W)
                  (fun a => wf_chain_alloc c ns a W)) as H.
    unfold chain in H. simpl in H. rewrite length_app in H. simpl in H. lia.
  - pose proof (wf_nodup _ _ W) as Hnd. unfold chain in Hnd.
    apply NoDup_cons in Hnd as (_ & Hnd). apply NoDup_app in Hnd as (_ & H & _).
    intros Hin. apply (H _ Hin). left.
  - apply (wf_linked _ _ W).
Qed.

Lemma put_inv k v c :
  inv c -> exists c', put k v c = (Ok tt, c') /\ inv c' /\ capacity c' = capacity c.
Proof.
  intros (ns & W & Hcap). destruct (cache c !! k) as [a|] eqn:Hk.
  - destruct (put_hit c ns k v a W Hk) as (c' & l1 & l2 & -> & R & W' & C & _).
    exists c'. split; [exact R|]. split; [|exact C].
    exists (a :: l1 ++ l2). split; [exact W'|].
    rewrite C. intros Hpos. specialize (Hcap Hpos).
    rewrite length_app in Hcap. simpl in *. rewrite length_app. lia.
  - destruct (put_miss c ns k v W Hk) as (c' & R & W' & C & _).
    exists c'. split; [exact R|]. split; [|exact C].
    eexists. split; [exact W'|].
    rewrite C. intros Hpos. specialize (Hcap Hpos).
    pose proof (wf_size _ _ W) as Hsz. simpl.
    destruct (Z.of_nat (base.size (cache c)) >=? capacity c)%Z eqn:E.
    + apply Z.geb_le in E. destruct ns as [|x ns _] using rev_ind.
      * simpl in *. lia.
      * rewrite removelast_last. rewrite length_app in Hcap. simpl in Hcap. lia.
    + rewrite Z.geb_leb in E. apply Z.leb_gt in E. lia.
Qed.

Lemma get_inv k c :
  inv c -> exists r c', get k c = (Ok r, c') /\ inv c' /\ capacity c' = capacity c.
Proof.
  intros (ns & W & Hcap). destruct (cache c !! k) as [a|] eqn:Hk.
  - destruct (get_hit c ns k a W Hk) as (c' & l1 & l2 & -> & R & W' & C & _).
    eexists _, c'. split; [exact R|]. split; [|exact C].
    exists (a :: l1 ++ l2). split; [exact W'|].
    rewrite C. intros Hpos. specialize (Hcap Hpos).
    rewrite length_app in Hcap. simpl in *. rewrite length_app. lia.
  - exists None, c. rewrite (get_miss c k Hk). split; [reflexivity|].
    split; [|reflexivity]. exists ns. auto.
Qed.

Lemma delete_inv k c :
  inv c -> exists r c', delete k c = (Ok r, c') /\ inv c' /\ capacity c' = capacity c.
Proof.
  intros (ns & W & Hcap). destruct (cache c !! k) as [a|] eqn:Hk.
  - destruct (delete_hit c ns k a W Hk) as (c' & l1 & l2 & -> & R & W' & C & _).
    eexists _, c'. split; [exact R|]. split; [|exact C].
    exists (l1 ++ l2). split; [exact W'|].
    rewrite C. intros Hpos. specialize (Hcap Hpos).
    rewrite length_app in Hcap. simpl in *. rewrite length_app. lia.
  - exists false, c. rewrite (delete_miss c k Hk). split; [reflexivity|].
    split; [|reflexivity]. exists ns. auto.
Qed.

Lemma run_op_inv o c :
  inv c -> exists c', run_op o c = (Ok tt, c') /\ inv c' /\ capacity c' = capacity c.
Proof.
  intros I. destruct o as [k v|k|k]; simpl.
  - apply put_inv, I.
  - destruct (get_inv k c I) as (r & c' & R & H). exists c'.
    now rewrite (bind_Ok _ _ _ _ _ R).
  - destruct (delete_inv k c I) as (r & c' & R & H). exists c'.
    now rewrite (bind_Ok _ _ _ _ _ R).
Qed.

Lemma run_ops_inv os : forall c,
  inv c -> exists c', run_ops os c = (Ok tt, c') /\ inv c' /\ capacity c' = capacity c.
Proof.
  induction os as [|o os IH]; intros c I; simpl.
  - exists c. auto.
  - destruct (run_op_inv o c I) as (c1 & R1 & I1 & C1).
    destruct (IH c1 I1) as (c2 & R2 & I2 & C2).
    exists c2. rewrite (bind_Ok _ _ _ _ _ R1). split; [exact R2|].
    split; [exact I2 | congruence].
Qed.

Lemma inv_new cap c : new_LRUCache cap = (Ok tt, c) -> inv c.
Proof.
  intros H. apply wf_new in H as [W C]. exists []. split; [exact W|]. simpl. lia.
Qed.







(** C3. Capacity invariant: a cache created with a positive capacity [C]
    runs every sequence of [put], [get] and [delete] without raising, and
    afterwards holds at most [C] keys; its index has as many entries as its
    list has nodes, and the two are in bijection: a key is indexed to a node
    exactly when that node is in the list and carries the key.  As this holds
    for every sequence, it holds after each operation of a run. *)
Theorem capacity_invariant (C : Z) (os : list op) :
  (0 < C)%Z ->
  exists c0 c,
    new_LRUCache C = (Ok tt, c0)
    /\ run_ops os c0 = (Ok tt, c)
    /\ (Z.of_nat (size c) <= C)%Z
    /\ size c = length (nodes c)
    /\ NoDup (nodes c)
    /\ (forall k a, cache c !! k = Some a <-> a ∈ nodes c /\ key_of (heap c) a = Some k)
    /\ (forall a, a ∈ nodes c -> exists k, key_of (heap c) a = Some k /\ cache c !! k = Some a).
Proof.
  intros Hpos. eexists. rewrite new_LRUCache_eq.
  destruct (run_ops_inv os _ (inv_new C _ (new_LRUCache_eq C))) as (c & R & (ns & W & Hcap) & Cc).
  exists c. split; [reflexivity|]. split; [exact R|].
  rewrite (nodes_wf c ns W). unfold size. rewrite (wf_size _ _ W).
  simpl in Cc. rewrite Cc in Hcap.
  split; [auto|]. split; [reflexivity|]. split; [|split].
  - pose proof (wf_nodup _ _ W) as Hnd. unfold chain in Hnd.
    apply NoDup_cons in Hnd as (_ & Hnd). now apply NoDup_app in Hnd as (Hnd & _).
  - apply (wf_index _ _ W).
  - intros a Ha. destruct (wf_keys _ _ W a Ha) as [k Hk]. exists k.
    split; [exact Hk|]. now apply (wf_index _ _ W).
Qed.

Lemma capacity_invariant_witness :
  exists c0 c,
    new_LRUCache 2 = (Ok tt, c0)
    /\ run_ops [Put "a" "1"; Put "b" "2"; Get "a"; Put "c" "3"; Delete "c"; Put "d" "4"] c0 = (Ok tt, c)
    /\ (Z.of_nat (size c) <= 2)%Z
    /\ size c = length (nodes c)
    /\ NoDup (nodes c)
    /\ (forall k a, cache c !! k = Some a <-> a ∈ nodes c /\ key_of (heap c) a = Some k)
    /\ (forall a, a ∈ nodes c -> exists k, key_of (heap c) a = Some k /\ cache c !! k = Some a).
Proof. apply (capacity_invariant 2); lia. Defined.

(** C10. With a capacity of zero or less, [put] of a new key into the new
    cache still inserts it: [remove_from_end] on the empty list returns
    [None], nothing is evicted, the node is added, and the size, now 1,
    exceeds the capacity. *)
Theorem capacity_needs_positive (cap : Z) (k v : string) :
  (cap <= 0)%Z ->
  exists c0 c,
    new_LRUCache cap = (Ok tt, c0)
    /\ remove_from_end (dll c0) (heap c0) = (Ok None, heap c0)
    /\ put k v c0 = (Ok tt, c)
    /\ size c = 1
    /\ is_Some (cache c !! k)
    /\ length (nodes c) = 1
    /\ (capacity c < Z.of_nat (size c))%Z.
Proof.
  intros Hcap. eexists. rewrite new_LRUCache_eq.
  destruct (wf_new cap _ (new_LRUCache_eq cap)) as [W C].
  set (c0 := mkLRU _ _ _ _) in *.
  destruct (put_miss c0 [] k v W (lookup_empty k)) as (c & R & W' & C' & _ & Hk & _).
  exists c. split; [reflexivity|].
  split; [apply remove_from_end_empty, (wf_linked _ _ W)|].
  split; [exact R|].
  assert (E : (if (Z.of_nat (base.size (cache c0)) >=? capacity c0)%Z
               then removelast [] else @nil nat) = []) by now destruct (_ >=? _)%Z.
  rewrite E in W'.
  unfold size. rewrite (nodes_wf _ _ W'), (wf_size _ _ W'). simpl.
  split; [reflexivity|]. split; [eauto|]. split; [reflexivity|].
  rewrite C', C. lia.
Qed.

Lemma capacity_needs_positive_witness :
  exists c0 c,
    new_LRUCache 0 = (Ok tt, c0)
    /\ remove_from_end (dll c0) (heap c0) = (Ok None, heap c0)
    /\ put "a" "1" c0 = (Ok tt, c)
    /\ size c = 1
    /\ is_Some (cache c !! "a")
    /\ length (nodes c) = 1
    /\ (capacity c < Z.of_nat (size c))%Z.
Proof. apply (capacity_needs_positive 0 "a" "1"). lia. Defined.

End LRUFacts.

(** ** The synchronous store *)

Module StoreFacts.

Import PyStr PyStrFacts Store LRUFacts.
Local Open Scope py_scope.

Lemma format_line_line_of action k v :
  format_line action k v = line_of action k v +:+ newline.
Proof. unfold format_line, line_of. now rewrite !app_assoc_s. Qed.

Lemma safe_key_spec k :
  safe_key k = true ->
  contains PIPE k = false /\ contains LF k = false /\ contains CR k = false.
Proof.
  unfold safe_key. intros H. apply andb_true_iff in H as [H H3].
  apply andb_true_iff in H as [H1 H2].
  repeat split; now apply negb_true_iff.
Qed.

Lemma safe_value_spec v :
  safe_value v = true ->
  contains PIPE v = false /\ contains LF v = false /\ contains CR v = false
  /\ rstrip v = v.
Proof.
  unfold safe_value. intros H. apply andb_true_iff in H as [H1 H2].
  apply safe_key_spec in H1 as (? & ? & ?). apply String.eqb_eq in H2. auto.
Qed.

(** Stripping a written line gives back the three fields joined by ['|']. *)
Lemma strip_line c a k v :
  isspace c = false -> rstrip v = v ->
  strip (String c a +:+ "|" +:+ k +:+ "|" +:+ v +:+ newline)
  = String c a +:+ "|" +:+ k +:+ "|" +:+ v.
Proof.
  intros Hc Hv. unfold strip. rewrite app_String. simpl lstrip. rewrite Hc.
  rewrite <- app_String.
  replace (String c a +:+ "|" +:+ k +:+ "|" +:+ v +:+ newline)
    with ((String c a +:+ "|" +:+ k +:+ "|" +:+ v) +:+ newline)
    by now rewrite !app_assoc_s.
  unfold newline. rewrite rstrip_app_space by reflexivity.
  replace (String c a +:+ "|" +:+ k +:+ "|" +:+ v)
    with ((String c a +:+ "|" +:+ k) +:+ "|" +:+ v)
    by now rewrite !app_assoc_s.
  assert (E : rstrip ("|" +:+ v) = "|" +:+ v).
  { rewrite app_String, app_Empty. now apply rstrip_cons_nonspace. }
  rewrite rstrip_app; rewrite E; [reflexivity|].
  rewrite app_String. discriminate.
Qed.

Lemma split_line action k v :
  contains PIPE action = false -> contains PIPE k = false -> contains PIPE v = false ->
  split PIPE (action +:+ "|" +:+ k +:+ "|" +:+ v) = [action; k; v].
Proof.
  intros Ha Hk Hv.
  change ("|" +:+ k +:+ "|" +:+ v) with (String PIPE (k +:+ "|" +:+ v)).
  rewrite split_app by exact Ha.
  change ("|" +:+ v) with (String PIPE v).
  rewrite split_app by exact Hk. now rewrite split_clean.
Qed.

Lemma recover_line_SET k v :
  safe_key k = true -> safe_value v = true ->
  recover_line (line_of "SET" k (Some v) +:+ newline) = LRU.put k v.
Proof.
  intros Hk Hv. apply safe_key_spec in Hk as (Hk & _).
  apply safe_value_spec in Hv as (Hv & _ & _ & Hr).
  unfold recover_line, line_of. simpl format_value.
  rewrite !app_assoc_s.
  rewrite (strip_line "S" "ET" k v) by (reflexivity || exact Hr).
  rewrite (split_line "SET" k v) by (reflexivity || assumption).
  reflexivity.
Qed.

Lemma recover_line_DEL k :
  safe_key k = true ->
  recover_line (line_of "DEL" k None +:+ newline)
  = (do LRU.delete k ;; ret tt).
Proof.
  intros Hk. apply safe_key_spec in Hk as (Hk & _).
  unfold recover_line, line_of. simpl format_value.
  rewrite !app_assoc_s.
  rewrite (strip_line "D" "EL" k "None") by reflexivity.
  rewrite (split_line "DEL" k "None") by (reflexivity || assumption).
  reflexivity.
Qed.

Lemma line_of_clean action k v :
  contains CR action = false -> contains LF action = false ->
  safe_key k = true -> safe_key (format_value v) = true ->
  contains CR (line_of action k v) = false /\ contains LF (line_of action k v) = false.
Proof.
  intros A1 A2 Hk Hv. apply safe_key_spec in Hk as (_ & K1 & K2).
  apply safe_key_spec in Hv as (_ & V1 & V2).
  unfold line_of. rewrite !contains_app, A1, A2, K1, K2, V1, V2. auto.
Qed.

Lemma on_cache_run {A} (m : M LRU.LRUCache A) s r c' :
  m (cache s) = (r, c') -> on_cache m s = (r, mkStore c' (log_file s)).
Proof. intros H. unfold on_cache. now rewrite H. Qed.

Lemma recover_lines_app ls ms c :
  recover_lines (ls ++ ms) c = (do recover_lines ls ;; recover_lines ms) c.
Proof.
  revert c. induction ls as [|l ls IH]; intros c; simpl; [reflexivity|].
  unfold bind.
  destruct (recover_line l c) as [[[]|e] c1]; [|reflexivity].
  rewrite IH. reflexivity.
Qed.

Lemma recover_lines_snoc ls l c0 c m :
  recover_lines ls c0 = (Ok tt, c) ->
  recover_line l = m ->
  recover_lines (ls ++ [l]) c0 = (do m ;; ret tt) c.
Proof.
  intros H <-. rewrite recover_lines_app, (bind_Ok _ _ _ _ _ H). reflexivity.
Qed.

Lemma bind_ret_tt {S} (m : M S unit) s : (do m ;; ret tt) s = m s.
Proof. unfold bind, ret. destruct (m s) as [[[]|e] s']; reflexivity. Qed.

Import LRUFacts.

Lemma append_file_Ok text s :
  append_fails (log_file s) = false ->
  append_file text s
  = (Ok tt, mkStore (cache s) (mkFS (Some (log_text (log_file s) +:+ text)) false)).
Proof. intros H. unfold append_file, log_text. now rewrite H. Qed.

Lemma append_file_fails text s :
  append_fails (log_file s) = true -> append_file text s = (Raise OSError, s).
Proof. intros H. unfold append_file. now rewrite H. Qed.

Lemma delete_absent s k :
  LRU.cache (cache s) !! k = None -> delete k s = (Ok false, s).
Proof.
  intros H. unfold delete.
  rewrite (bind_Ok _ _ _ _ _ (on_cache_run _ s _ _ (delete_miss _ k H))).
  destruct s; reflexivity.
Qed.

(** [delete] when the cache removes the key: the outcome is that of the log
    append. *)
Lemma delete_run s k c' r s' :
  LRU.delete k (cache s) = (Ok true, c') ->
  _log "DEL" k None (mkStore c' (log_file s)) = (r, s') ->
  delete k s = (match r with Ok _ => Ok true | Raise e => Raise e end, s').
Proof.
  intros R R'. unfold delete.
  rewrite (bind_Ok _ _ _ _ _ (on_cache_run _ s _ _ R)).
  unfold bind. rewrite R'. now destruct r.
Qed.

(** Appending the line of a replayable call keeps the log in step with the
    cache. *)
Lemma synced_append c0 s c' action k v m :
  synced c0 s ->
  contains CR action = false -> contains LF action = false ->
  safe_key k = true -> safe_key (format_value v) = true ->
  recover_line (line_of action k v +:+ newline) = m ->
  (do m ;; ret tt) (cache s) = (Ok tt, c') -> LRU.inv c' ->
  exists s', _log action k v (mkStore c' (log_file s)) = (Ok tt, s')
    /\ cache s' = c' /\ synced c0 s'
    /\ content (log_file s')
       = Some (log_text (log_file s) +:+ format_line action k v).
Proof.
  intros (ls & Hcl & Htext & Hok & Hrec & _) A1 A2 Hk Hv Hm Hrun Hinv.
  unfold _log. rewrite append_file_Ok by exact Hok. simpl.
  eexists. split; [reflexivity|]. split; [reflexivity|]. split; [|reflexivity].
  exists (ls ++ [line_of action k v]). simpl.
  split; [|split; [|split; [reflexivity|split; [|exact Hinv]]]].
  - apply Forall_app. split; [exact Hcl|]. apply Forall_singleton.
    now apply line_of_clean.
  - unfold log_text at 1. simpl. rewrite Htext, unlines_app. simpl.
    now rewrite app_empty_r, format_line_line_of.
  - rewrite map_app. simpl. rewrite (recover_lines_snoc _ _ _ _ _ Hrec Hm). exact Hrun.
Qed.

Lemma run_op_synced c0 o s :
  loggable o = true -> synced c0 s ->
  exists s', run_op o s = (Ok tt, s') /\ synced c0 s'.
Proof.
  intros Hl Hs. pose proof Hs as (ls & Hcl & Htext & Hok & Hrec & Hinv).
  destruct o as [k v|k|k]; simpl in Hl; [|discriminate|].
  - apply andb_true_iff in Hl as [Hk Hv].
    destruct (put_inv k v _ Hinv) as (c' & R & I' & _).
    simpl. unfold set.
    rewrite (bind_Ok _ _ _ _ _ (on_cache_run _ s _ _ R)).
    destruct (synced_append c0 s c' "SET" k (Some v) (LRU.put k v) Hs)
      as (s' & R' & _ & S' & _); auto.
    + unfold safe_value in Hv. now apply andb_true_iff in Hv as [Hv _].
    + now apply recover_line_SET.
    + now rewrite bind_ret_tt.
    + eauto.
  - simpl.
    destruct (LRU.cache (cache s) !! k) as [a|] eqn:Hc.
    + destruct Hinv as (ns & W & Hcap).
      destruct (delete_hit _ ns k a W Hc) as (c' & l1 & l2 & -> & R & W' & C' & _).
      destruct (synced_append c0 s c' "DEL" k None (do LRU.delete k ;; ret tt)%py Hs)
        as (s' & R' & _ & S' & _); auto.
      * now apply recover_line_DEL.
      * rewrite bind_ret_tt. now rewrite (bind_Ok _ _ _ _ _ R).
      * exists (l1 ++ l2). split; [exact W'|]. rewrite C'. intros Hp.
        specialize (Hcap Hp). rewrite length_app in *. simpl in Hcap. lia.
      * exists s'. rewrite (bind_Ok _ _ _ _ _ (delete_run _ _ _ _ _ R R')). auto.
    + exists s. rewrite (bind_Ok _ _ _ _ _ (delete_absent _ _ Hc)). auto.
Qed.

Lemma run_ops_synced c0 os : forall s,
  Forall (fun o => loggable o = true) os -> synced c0 s ->
  exists s', run_ops os s = (Ok tt, s') /\ synced c0 s'.
Proof.
  induction os as [|o os IH]; intros s Hl Hs; simpl.
  - exists s. auto.
  - apply Forall_cons in Hl as [Ho Hl].
    destruct (run_op_synced c0 o s Ho Hs) as (s1 & R1 & S1).
    destruct (IH s1 Hl S1) as (s2 & R2 & S2).
    exists s2. now rewrite (bind_Ok _ _ _ _ _ R1).
Qed.

Lemma synced_recover c0 s :
  synced c0 s -> _recover (mkStore c0 (log_file s)) = (Ok tt, s).
Proof.
  intros (ls & Hcl & Htext & Hok & Hrec & _). unfold _recover. simpl.
  unfold log_text in Htext. destruct (content (log_file s)) as [t|] eqn:E.
  - subst t. rewrite (on_cache_run _ (mkStore c0 (log_file s)) (Ok tt) (cache s)).
    + destruct s; reflexivity.
    + simpl. now rewrite readlines_unlines.
  - destruct ls as [|l ls].
    + simpl in Hrec. injection Hrec as ->. destruct s; reflexivity.
    + exfalso. simpl in Htext. destruct l; discriminate.
Qed.

Lemma new_KeyValueStore_no_file cap :
  exists c0, LRU.new_LRUCache cap = (Ok tt, c0)
    /\ new_KeyValueStore cap no_file = (Ok tt, mkStore c0 no_file)
    /\ synced c0 (mkStore c0 no_file).
Proof.
  eexists. rewrite new_LRUCache_eq. split; [reflexivity|].
  split; [unfold new_KeyValueStore; rewrite new_LRUCache_eq; reflexivity|].
  exists []. repeat split; auto. apply (inv_new cap), new_LRUCache_eq.
Qed.


(** *** Reachable stores keep the cache invariant *)

Lemma recover_line_inv l c :
  LRU.inv c -> exists r c', recover_line l c = (r, c') /\ LRU.inv c'.
Proof.
  intros I. unfold recover_line.
  destruct (split PIPE (strip l)) as [|action [|k [|v [|x xs]]]];
    try (eexists _, c; split; [reflexivity | exact I]).
  destruct (String.eqb action "SET").
  - destruct (put_inv k v c I) as (c' & R & I' & _). eauto.
  - destruct (String.eqb action "DEL").
    + destruct (delete_inv k c I) as (r & c' & R & I' & _).
      rewrite (bind_Ok _ _ _ _ _ R). eexists _, c'. split; [reflexivity | exact I'].
    + eexists _, c; split; [reflexivity | exact I].
Qed.

Lemma recover_lines_inv ls : forall c,
  LRU.inv c -> exists r c', recover_lines ls c = (r, c') /\ LRU.inv c'.
Proof.
  induction ls as [|l ls IH]; intros c I; simpl.
  - eexists _, c. split; [reflexivity | exact I].
  - destruct (recover_line_inv l c I) as (r & c1 & R & I1).
    destruct r as [[]|e].
    + rewrite (bind_Ok _ _ _ _ _ R). apply IH, I1.
    + rewrite (bind_Raise _ _ _ _ _ R). eauto.
Qed.

Lemma reachable_inv s : reachable s -> LRU.inv (cache s).
Proof.
  induction 1 as [cap fs s Hnew | k v s r s' _ IH Hrun | k s r s' _ IH Hrun
                 | k s r s' _ IH Hrun].
  - unfold new_KeyValueStore in Hnew. rewrite new_LRUCache_eq in Hnew.
    pose proof (inv_new cap _ (new_LRUCache_eq cap)) as I0.
    unfold _recover in Hnew. simpl in Hnew. destruct (content fs) as [t|].
    + unfold on_cache in Hnew. simpl in Hnew.
      destruct (recover_lines_inv (readlines t) _ I0) as (r & c' & R & I').
      rewrite R in Hnew. injection Hnew as _ <-. exact I'.
    + injection Hnew as <-. exact I0.
  - unfold set in Hrun. destruct (put_inv k v _ IH) as (c' & R & I' & _).
    rewrite (bind_Ok _ _ _ _ _ (on_cache_run _ s _ _ R)) in Hrun.
    unfold _log, append_file in Hrun. simpl in Hrun.
    destruct (append_fails (log_file s)); injection Hrun as _ <-; exact I'.
  - unfold get in Hrun. destruct (get_inv k _ IH) as (x & c' & R & I' & _).
    rewrite (on_cache_run _ s _ _ R) in Hrun. injection Hrun as _ <-. exact I'.
  - unfold delete in Hrun. destruct (delete_inv k _ IH) as (x & c' & R & I' & _).
    rewrite (bind_Ok _ _ _ _ _ (on_cache_run _ s _ _ R)) in Hrun.
    unfold bind, ret, _log, append_file in Hrun. simpl in Hrun.
    destruct x; simpl in Hrun; [destruct (append_fails (log_file s))|];
      injection Hrun as _ <-; exact I'.
Qed.

(** C8. Delete semantics: on a reachable store whose log can be appended
    to, [delete] of an absent key returns [False] and leaves the store, cache
    and log, as it was; [delete] of a present key returns [True], removes its
    node from the list and its entry from the index, and appends one [DEL]
    line to the log. *)
Theorem delete_semantics (s : KeyValueStore) (k : string) :
  reachable s -> append_fails (log_file s) = false ->
  (LRU.cache (cache s) !! k = None -> delete k s = (Ok false, s))
  /\ (forall a, LRU.cache (cache s) !! k = Some a ->
      exists s' l1 l2,
        delete k s = (Ok true, s')
        /\ LRU.nodes (cache s) = l1 ++ a :: l2
        /\ LRU.nodes (cache s') = l1 ++ l2
        /\ (a ∉ LRU.nodes (cache s'))
        /\ LRU.cache (cache s') = base.delete k (LRU.cache (cache s))
        /\ content (log_file s')
           = Some (log_text (log_file s) +:+ format_line "DEL" k None)).
Proof.
  intros Hr Hok. split; [apply delete_absent|].
  intros a Ha. destruct (reachable_inv s Hr) as (ns & W & _).
  destruct (delete_hit _ ns k a W Ha) as (c' & l1 & l2 & -> & R & W' & _ & C' & _).
  pose proof (delete_run s k c' _ _ R (append_file_Ok _ (mkStore c' (log_file s)) Hok)) as D.
  eexists _, l1, l2. split; [exact D|]. simpl.
  rewrite (nodes_wf _ _ W), (nodes_wf _ _ W').
  split; [reflexivity|]. split; [reflexivity|]. split; [|split; [exact C' | reflexivity]].
  pose proof (LRU.wf_nodup _ _ W) as Hnd. unfold LRU.chain in Hnd.
  apply NoDup_cons in Hnd as (_ & Hnd). apply NoDup_app in Hnd as (Hnd & _).
  apply NoDup_app in Hnd as (_ & N1 & N2). apply NoDup_cons in N2 as (N2 & _).
  intros Hin. apply elem_of_app in Hin as [Hin|Hin]; [|contradiction].
  apply (N1 a Hin). left.
Qed.

Lemma delete_semantics_witness :
  let s := snd (set "a" "1" (snd (new_KeyValueStore 2 no_file))) in
  reachable s
  /\ append_fails (log_file s) = false
  /\ delete "b" s = (Ok false, s)
  /\ fst (delete "a" s) = Ok true
  /\ items (snd (delete "a" s)) = []
  /\ content (log_file (snd (delete "a" s)))
     = Some (unlines ["SET|a|1"; "DEL|a|None"]).
Proof.
  intros s.
  assert (Hr : reachable s).
  { apply (reach_set "a" "1" (snd (new_KeyValueStore 2 no_file)) (Ok tt) s).
    - apply (reach_new 2 no_file). reflexivity.
    - reflexivity. }
  split; [exact Hr|]. split; [reflexivity|].
  destruct (delete_semantics s "b" Hr eq_refl) as [Hb _].
  destruct (delete_semantics s "a" Hr eq_refl) as [_ Ha].
  split; [apply Hb; reflexivity|].
  destruct (Ha 2 eq_refl) as (s' & l1 & l2 & Hd & _).
  rewrite Hd. split; [reflexivity|].
  vm_compute in Hd. injection Hd as <-. split; reflexivity.
Defined.

(** A failed append leaves the mutation of the cache in place. *)
Lemma set_delete_raise_keeps_mutation (s : KeyValueStore) (k v : string) :
  reachable s -> append_fails (log_file s) = true ->
  (exists c' a,
     LRU.put k v (cache s) = (Ok tt, c')
     /\ set k v s = (Raise OSError, mkStore c' (log_file s))
     /\ LRU.cache c' !! k = Some a
     /\ LRU.value_of (LRU.heap c') a = Some v)
  /\ (is_Some (LRU.cache (cache s) !! k) ->
      exists c',
        LRU.delete k (cache s) = (Ok true, c')
        /\ delete k s = (Raise OSError, mkStore c' (log_file s))
        /\ LRU.cache c' !! k = None).
Proof.
  intros Hr Hf. destruct (reachable_inv s Hr) as (ns & W & _). split.
  - assert (exists c' a, LRU.put k v (cache s) = (Ok tt, c')
                         /\ LRU.cache c' !! k = Some a
                         /\ LRU.value_of (LRU.heap c') a = Some v)
      as (c' & a & R & Hk & Hv).
    { destruct (LRU.cache (cache s) !! k) as [a|] eqn:E.
      - destruct (put_hit _ ns k v a W E) as (c' & l1 & l2 & _ & R & _ & _ & C' & _ & _ & _ & V).
        exists c', a. split; [exact R|]. rewrite C'. split; [exact E|].
        rewrite V. now rewrite decide_True.
      - destruct (put_miss _ ns k v W E) as (c' & R & _ & _ & _ & Hk & Hv & _). eauto. }
    exists c', a. split; [exact R|]. split; [|auto].
    unfold set. rewrite (bind_Ok _ _ _ _ _ (on_cache_run _ s _ _ R)).
    unfold _log. now rewrite append_file_fails.
  - intros [a Ha].
    destruct (delete_hit _ ns k a W Ha) as (c' & l1 & l2 & _ & R & _ & _ & C' & _).
    exists c'. split; [exact R|]. split.
    + apply (delete_run s k c' (Raise OSError) _ R). unfold _log.
      now rewrite append_file_fails.
    + rewrite C'. apply lookup_delete_eq.
Qed.

Lemma recover_line_pipes l c :
  count PIPE l <> 2 -> recover_line l c = (Raise ValueError, c).
Proof.
  intros H. unfold recover_line.
  pose proof (length_split PIPE (strip l)) as E. rewrite count_strip in E.
  destruct (split PIPE (strip l)) as [|x1 [|x2 [|x3 [|x4 xs]]]]; try reflexivity.
  simpl in E. lia.
Qed.

Lemma readlines_single l :
  contains CR l = false -> contains LF l = false ->
  readlines (l +:+ newline) = [l +:+ newline].
Proof.
  intros H1 H2. pose proof (readlines_unlines [l]) as E. simpl in E.
  rewrite app_empty_r in E. apply E. now apply Forall_singleton.
Qed.

(** C9. The line format is injectable.  A key or value with a ['|'] (and no
    line break) is accepted by [set], and the log it leaves makes the next
    recovery raise [ValueError] before anything is recovered; a key with a
    line feed does the same; and a key built from a ['|'] and a line feed makes
    recovery succeed with two records that were never set. *)
Theorem log_format_injectable :
  (forall (capacity : Z) (k v : string),
     contains PIPE k || contains PIPE v = true ->
     contains LF k || contains CR k || contains LF v || contains CR v = false ->
     exists s0 s c,
       new_KeyValueStore capacity no_file = (Ok tt, s0)
       /\ set k v s0 = (Ok tt, s)
       /\ new_KeyValueStore capacity (log_file s)
          = (Raise ValueError, mkStore c (log_file s))
       /\ LRU.size c = 0)
  /\ (exists s0 s c,
        new_KeyValueStore 2 no_file = (Ok tt, s0)
        /\ set ("a" +:+ newline +:+ "b") "1" s0 = (Ok tt, s)
        /\ new_KeyValueStore 2 (log_file s)
           = (Raise ValueError, mkStore c (log_file s)))
  /\ (exists s0 s s',
        new_KeyValueStore 2 no_file = (Ok tt, s0)
        /\ set ("a|b" +:+ newline +:+ "SET|c") "d" s0 = (Ok tt, s)
        /\ items s = [(Some ("a|b" +:+ newline +:+ "SET|c"), Some "d")]
        /\ new_KeyValueStore 2 (log_file s) = (Ok tt, s')
        /\ items s' = [(Some "c", Some "d"); (Some "a", Some "b")]).
Proof.
  split; [|split].
  - intros cap k v Hp Hn.
    apply orb_false_iff in Hn as [Hn Hv2]. apply orb_false_iff in Hn as [Hn Hv1].
    apply orb_false_iff in Hn as [Hk1 Hk2].
    destruct (new_KeyValueStore_no_file cap) as (c0 & Hc0 & Hnew & Hs0).
    pose proof Hs0 as (_ & _ & _ & _ & _ & I0).
    destruct (put_inv k v _ I0) as (c' & R & _).
    exists (mkStore c0 no_file),
      (mkStore c' (mkFS (Some (format_line "SET" k (Some v))) false)), c0.
    split; [exact Hnew|]. split.
    { unfold set. rewrite (bind_Ok _ _ _ _ _ (on_cache_run _ _ _ _ R)).
      unfold _log. rewrite append_file_Ok by reflexivity. reflexivity. }
    split; [|rewrite new_LRUCache_eq in Hc0; now injection Hc0 as <-].
    unfold new_KeyValueStore. rewrite Hc0. unfold _recover.
    cbn [log_file content]. rewrite format_line_line_of.
    rewrite readlines_single.
    + unfold on_cache. cbn [cache recover_lines].
      rewrite (bind_Raise _ _ _ ValueError c0); [reflexivity|].
      apply recover_line_pipes.
      unfold line_of. cbn [format_value]. rewrite !count_app. simpl.
      apply orb_true_iff in Hp as [Hp|Hp]; apply count_contains in Hp; lia.
    + unfold line_of. cbn [format_value]. rewrite !contains_app, Hk2, Hv2. reflexivity.
    + unfold line_of. cbn [format_value]. rewrite !contains_app, Hk1, Hv1. reflexivity.
  - eexists _, _, _. split; [reflexivity|]. split; vm_compute; reflexivity.
  - eexists _, _, _. split; [reflexivity|]. split; [vm_compute; reflexivity|].
    split; [vm_compute; reflexivity|]. split; vm_compute; reflexivity.
Qed.

Lemma log_format_injectable_witness :
  exists s0 s c,
    new_KeyValueStore 2 no_file = (Ok tt, s0)
    /\ set "a|b" "1" s0 = (Ok tt, s)
    /\ new_KeyValueStore 2 (log_file s) = (Raise ValueError, mkStore c (log_file s))
    /\ LRU.size c = 0.
Proof. apply (proj1 log_format_injectable 2%Z "a|b" "1"); reflexivity. Defined.

(** C6. The capacity-2 scenario: after [set a 1], [set b 2], [set c 3],
    [get a] finds nothing, [get b] returns 2 and [get c] returns 3; a store
    built again from the log holds the same two keys [b] and [c], with the
    same values. *)
Theorem lru_scenario :
  exists s0 s s',
    new_KeyValueStore 2 no_file = (Ok tt, s0)
    /\ (do set "a" "1" ;; do set "b" "2" ;; do set "c" "3" ;;
        let* a := get "a" in
        let* b := get "b" in
        let* c := get "c" in
        ret (a, b, c)) s0 = (Ok (None, Some "2", Some "3"), s)
    /\ items s = [(Some "c", Some "3"); (Some "b", Some "2")]
    /\ new_KeyValueStore 2 (log_file s) = (Ok tt, s')
    /\ items s' = [(Some "c", Some "3"); (Some "b", Some "2")]
    /\ dom (LRU.cache (cache s')) = dom (LRU.cache (cache s))
    /\ dom (LRU.cache (cache s')) = {["b"; "c"]}.
Proof.
  eexists _, _, _. split; [reflexivity|]. split; [vm_compute; reflexivity|].
  split; [vm_compute; reflexivity|]. split; [vm_compute; reflexivity|].
  split; [vm_compute; reflexivity|]. split; vm_compute; reflexivity.
Qed.










(** C2. Recovery of the synchronous store does not skip a line it cannot
    parse: the [ValueError] of the unpacking leaves the constructor, and the
    valid record after the corrupt line is never replayed. *)
Theorem recover_aborts_on_corrupt_line :
  exists s,
    new_KeyValueStore 2 (mkFS (Some (unlines ["SET|a|1"; "garbage"; "SET|b|2"])) false)
    = (Raise ValueError, s)
    /\ items s = [(Some "a", Some "1")].
Proof. eexists. split; vm_compute; reflexivity. Qed.

End StoreFacts.

(** ** The TTL cache *)

Module AsyncLRUFacts.

Import AsyncLRU.

Lemma has_key_true k e : has_key k e = true <-> key e = k.
Proof. unfold has_key. apply String.eqb_eq. Qed.

Lemma has_key_false k e : has_key k e = false <-> key e <> k.
Proof. unfold has_key. apply String.eqb_neq. Qed.

Lemma find_cons k e es :
  find k (e :: es) = if has_key k e then Some e else find k es.
Proof. reflexivity. Qed.

Lemma find_remove k es : find k (remove k es) = None.
Proof.
  induction es as [|e es IH]; [reflexivity|].
  unfold remove in *. simpl. destruct (has_key k e) eqn:E; simpl; [exact IH|].
  unfold find in *. simpl. now rewrite E.
Qed.

Lemma find_None k es : (forall e, e ∈ es -> key e <> k) -> find k es = None.
Proof.
  induction es as [|e es IH]; intros H; [reflexivity|].
  rewrite find_cons. rewrite (proj2 (has_key_false k e)) by (apply H; left).
  apply IH. intros x Hx. apply H. now right.
Qed.

Lemma find_NoDup es e :
  NoDup (map key es) -> e ∈ es -> find (key e) es = Some e.
Proof.
  induction es as [|x es IH]; intros Hnd Hin; [inversion Hin|].
  simpl in Hnd. apply NoDup_cons in Hnd as [Hx Hnd]. rewrite find_cons.
  apply elem_of_cons in Hin as [->|Hin].
  - now rewrite (proj2 (has_key_true (key x) x)).
  - rewrite (proj2 (has_key_false (key e) x)); [now apply IH|].
    intros E. apply Hx. rewrite E. now apply list_elem_of_fmap_2.
Qed.

Lemma find_Some k es e : find k es = Some e -> e ∈ es /\ key e = k.
Proof.
  induction es as [|x es IH]; [discriminate|]. rewrite find_cons.
  destruct (has_key k x) eqn:E.
  - intros [= <-]. split; [left | now apply has_key_true].
  - intros H. destruct (IH H). split; [now right | assumption].
Qed.

(** [put] leaves the key at the front with its value and expiry. *)
Lemma get_raw_put k v ttl now c :
  get_raw k (put k v ttl now c) = Some (v, option_map (fun t => (now + t)%Q) ttl).
Proof.
  unfold get_raw, put.
  destruct (find k (entries c)); cbn [entries]; rewrite find_cons;
    now rewrite (proj2 (has_key_true k _)).
Qed.

Lemma get_raw_delete k c : get_raw k (snd (delete k c)) = None.
Proof.
  unfold get_raw, delete. destruct (find k (entries c)) eqn:E; cbn [snd entries].
  - now rewrite find_remove.
  - now rewrite E.
Qed.

(** [put] of a new key below capacity adds the entry at the front. *)
Lemma put_fresh k v ttl now c :
  find k (entries c) = None -> (Z.of_nat (size c) < capacity c)%Z ->
  put k v ttl now c
  = mkCache (capacity c)
            (mkEntry k v (option_map (fun t => (now + t)%Q) ttl) :: entries c).
Proof.
  intros H Hlt. unfold put. rewrite H.
  destruct (Z.eqb_spec (Z.of_nat (size c)) (capacity c)); [lia | reflexivity].
Qed.

(** *** The cache invariant is kept *)

Lemma elem_of_remove k es e : e ∈ remove k es <-> e ∈ es /\ key e <> k.
Proof.
  unfold remove. rewrite !list_elem_of_In, filter_In, negb_true_iff.
  now rewrite has_key_false.
Qed.

Lemma NoDup_remove k es :
  NoDup (map key es) -> NoDup (map key (remove k es)).
Proof.
  induction es as [|e es IH]; intros H; [constructor|].
  simpl in H. apply NoDup_cons in H as [Hx H]. unfold remove in *. simpl.
  destruct (has_key k e); simpl; [now apply IH|].
  apply NoDup_cons. split; [|now apply IH].
  intros Hin. apply Hx. apply list_elem_of_fmap in Hin as (x & -> & Hx').
  apply (elem_of_remove k es x) in Hx' as [Hx' _]. now apply list_elem_of_fmap_2.
Qed.

Lemma length_remove k es : length (remove k es) <= length es.
Proof. unfold remove. apply filter_length_le. Qed.

Lemma length_remove_found k es e :
  find k es = Some e -> length (remove k es) < length es.
Proof.
  induction es as [|x es IH]; [discriminate|]. rewrite find_cons.
  unfold remove in *. simpl. destruct (has_key k x); simpl.
  - intros _. pose proof (filter_length_le (fun e => negb (has_key k e)) es). lia.
  - intros H. apply IH in H. lia.
Qed.

Lemma NoDup_removelast (es : list Entry) :
  NoDup (map key es) -> NoDup (map key (removelast es)).
Proof.
  destruct es as [|x es _] using rev_ind; [easy|].
  rewrite removelast_last, map_app. intros H. now apply NoDup_app in H as [H _].
Qed.

Lemma elem_of_removelast (es : list Entry) e : e ∈ removelast es -> e ∈ es.
Proof.
  destruct es as [|x es _] using rev_ind; [easy|].
  rewrite removelast_last. intros H. apply elem_of_app. now left.
Qed.

Lemma length_removelast (es : list Entry) :
  es <> [] -> S (length (removelast es)) = length es.
Proof.
  destruct es as [|x es _] using rev_ind; [easy|]. intros _.
  rewrite removelast_last, length_app. simpl. lia.
Qed.

Lemma async_wf_new cap : (0 <= cap)%Z -> wf (new_AsyncLRUCache cap).
Proof. intros H. split; [apply NoDup_nil_2 | unfold size; simpl; lia]. Qed.

Lemma async_wf_put k v ttl now c :
  (0 < capacity c)%Z -> wf c -> wf (put k v ttl now c).
Proof.
  intros Hpos [Hnd Hcap]. unfold put. destruct (find k (entries c)) as [e|] eqn:E.
  - split; unfold size in *; simpl.
    + apply NoDup_cons. split; [|now apply NoDup_remove].
      intros Hin. apply list_elem_of_fmap in Hin as (x & Hk & Hx).
      apply elem_of_remove in Hx as [_ Hx]. congruence.
    + pose proof (length_remove_found k _ e E). lia.
  - assert (Hfresh : forall x, x ∈ entries c -> key x <> k).
    { intros x Hx Hk. assert (F : find (key x) (entries c) = Some x)
        by now apply find_NoDup. rewrite Hk in F. congruence. }
    split; unfold size in *; simpl.
    + apply NoDup_cons. split.
      * intros Hin. apply list_elem_of_fmap in Hin as (x & Hk & Hx).
        apply (Hfresh x); [|congruence].
        destruct (_ =? _)%Z; [now apply elem_of_removelast | exact Hx].
      * destruct (_ =? _)%Z; [now apply NoDup_removelast | exact Hnd].
    + destruct (Z.eqb_spec (Z.of_nat (length (entries c))) (capacity c)) as [Heq|Hne].
      * destruct (entries c) as [|x es] eqn:Ees; [simpl in *; lia|].
        pose proof (length_removelast (x :: es)) as L.
        specialize (L ltac:(discriminate)). cbn [length] in *. lia.
      * lia.
Qed.

Lemma async_wf_delete k c : wf c -> wf (snd (delete k c)).
Proof.
  intros [Hnd Hcap]. unfold delete. destruct (find k (entries c)); [|now split].
  split; unfold size in *; simpl; [now apply NoDup_remove|].
  pose proof (length_remove k (entries c)). lia.
Qed.

Lemma async_wf_get k now c : wf c -> wf (snd (get k now c)).
Proof.
  intros [Hnd Hcap]. unfold get. destruct (find k (entries c)) as [e|] eqn:E; [|now split].
  pose proof (length_remove_found k _ e E) as L.
  destruct (expired now e); split; unfold size in *; simpl.
  - now apply NoDup_remove.
  - lia.
  - apply NoDup_cons. split; [|now apply NoDup_remove].
    intros Hin. apply list_elem_of_fmap in Hin as (x & Hk & Hx).
    apply elem_of_remove in Hx as [_ Hx]. apply find_Some in E as [_ E]. congruence.
  - lia.
Qed.

End AsyncLRUFacts.

(** ** The JSON-lines store *)

Module SimpleStoreFacts.

Import AsyncLRU AsyncLRUFacts SimpleStore.

(** *** The cache of section 4.2 on one key *)

Lemma put_new cap k v ttl now :
  put k v ttl now (new_AsyncLRUCache cap)
  = mkCache cap [mkEntry k v (option_map (fun t => (now + t)%Q) ttl)].
Proof.
  unfold put, new_AsyncLRUCache, find, size.
  cbn [entries capacity length List.find].
  now destruct (Z.of_nat 0 =? cap)%Z.
Qed.

Lemma put_again cap k v e v' ttl now :
  put k v' ttl now (mkCache cap [mkEntry k v e])
  = mkCache cap [mkEntry k v' (option_map (fun t => (now + t)%Q) ttl)].
Proof.
  unfold put, find, remove, has_key. simpl. now rewrite String.eqb_refl.
Qed.

Lemma get_single cap k v e now :
  fst (get k now (mkCache cap [mkEntry k v e]))
  = if expired now (mkEntry k v e) then None else v.
Proof.
  unfold get, find, has_key. simpl. rewrite String.eqb_refl.
  now destruct (expired now (mkEntry k v e)).
Qed.

Lemma get_raw_single cap k v e :
  get_raw k (mkCache cap [mkEntry k v e]) = Some (v, e).
Proof. unfold get_raw, find, has_key. simpl. now rewrite String.eqb_refl. Qed.

(** *** Recovery *)

Lemma simple_recover_lines_app ls ms c :
  recover_lines (ls ++ ms) c
  = match recover_lines ls c with
    | Some (Ok _, c') => recover_lines ms c'
    | r => r
    end.
Proof.
  revert c. induction ls as [|[now l] ls IH]; intros c; simpl; [reflexivity|].
  destruct (recover_line now l c) as [[[[]|e] c']|]; [apply IH | reflexivity..].
Qed.

(** A line that does not parse is skipped, wherever it stands, and the
    lines after it are recovered. *)
Lemma recover_skips_malformed ls now ms c :
  recover_lines (ls ++ (now, Fails JSONDecodeError) :: ms) c
  = recover_lines (ls ++ ms) c.
Proof. now rewrite !simple_recover_lines_app. Qed.

(** A record with the TTL 0 is put without expiry, whatever its age. *)
Lemma recovery_keeps_zero_ttl now ts k v c :
  recover_line now (log_entry ts "SET" k (Some v) (Some 0%Z)) c
  = Some (Ok tt, put k (Some v) None (snd now) c).
Proof. reflexivity. Qed.

(** C4. The replay of an expired SET record is a [continue]: it does not
    take the key out of the cache.  A key set without TTL and set again with
    a TTL of five seconds is absent from the running store once the five
    seconds are over; a store recovered from the log at that time has the
    key again, with the first value and without expiry. *)
Theorem recovery_resurrects_superseded_value (capacity : Z) (k old new : string)
    (clock : nat -> Q) :
  let s0 := mkStore (new_AsyncLRUCache capacity) (mkFS None [] false) 0 in
  exists s1 s2 s3,
    set 0 k old None s0 = (Ok tt, s1)
    /\ set 0 k new (Some 5%Z) s1 = (Ok tt, s2)
    /\ content (log_file s2)
       = Some [log_entry 0 "SET" k (Some old) None;
               log_entry 0 "SET" k (Some new) (Some 5%Z)]
    /\ fst (get k 10 (cache s2)) = None
    /\ _recover (fun i => (PyFloat.of_Z 10, clock i))
                (mkStore (new_AsyncLRUCache capacity) (log_file s2) 0)
       = Some (Ok tt, s3)
    /\ get_raw k (cache s3) = Some (Some old, None)
    /\ forall now, fst (get k now (cache s3)) = Some old.
Proof.
  intros s0.
  set (l1 := log_entry 0 "SET" k (Some old) None).
  set (l2 := log_entry 0 "SET" k (Some new) (Some 5%Z)).
  set (c1 := mkCache capacity [mkEntry k (Some old) None]).
  set (c2 := mkCache capacity [mkEntry k (Some new) (Some (0 + inject_Z 5)%Q)]).
  set (fs := mkFS (Some [l1; l2]) [] false).
  exists (mkStore c1 (mkFS (Some [l1]) [] false) 1), (mkStore c2 fs 2).
  exists (mkStore (mkCache capacity [mkEntry k (Some old) None]) fs 0).
  split; [|split; [|split; [|split; [|split; [|split]]]]].
  - unfold set, bind, on_cache, _log_operation, s0. cbn [cache log_file append_fails content backups log_size].
    now rewrite put_new.
  - unfold set, bind, on_cache, _log_operation, c1. cbn [cache log_file append_fails content backups log_size].
    now rewrite put_again.
  - reflexivity.
  - unfold c2. cbn [cache]. rewrite get_single. reflexivity.
  - unfold _recover, fs. cbn [content log_file cache log_size imap].
    unfold recover_lines, recover_line. cbn [fst snd].
    change (recover_step (PyFloat.of_Z 10) l1) with (DoPut (JStr k) (JStr old) None).
    change (recover_step (PyFloat.of_Z 10) l2) with Skip.
    cbn [apply_step as_key as_value as_ttl]. now rewrite put_new.
  - cbn [cache]. apply get_raw_single.
  - intros now. cbn [cache]. now rewrite get_single.
Qed.


(** *** Compaction *)

(** C5. Compaction truncates the time left to whole seconds and drops what
    truncates to zero: a key set with a TTL of eleven seconds is live half
    a second before its expiry, its time left is half a second, and a
    compaction at that moment writes no record for it.  The running store
    still answers with the value; a store recovered from the compacted log
    has lost the key. *)
Theorem compaction_loses_live_key (capacity : Z) (k v : string)
    (clock : nat -> PyFloat.float * Q) :
  let s0 := mkStore (new_AsyncLRUCache capacity) (mkFS None [] false) 0 in
  let now := PyFloat.of_Q (21 # 2) in
  exists s1 s2,
    set 0 k v (Some 11%Z) s0 = (Ok tt, s1)
    /\ get_raw k (cache s1) = Some (Some v, Some (0 + inject_Z 11)%Q)
    /\ fst (get k (21 # 2) (cache s1)) = Some v
    /\ PyFloat.sub (PyFloat.of_Q (0 + inject_Z 11)) now = PyFloat.of_Q (1 # 2)
    /\ compact_log (fun _ => now) s1 = (Ok tt, s2)
    /\ cache s2 = cache s1
    /\ content (log_file s2) = Some []
    /\ fst (get k (21 # 2) (cache s2)) = Some v
    /\ _recover clock (mkStore (new_AsyncLRUCache capacity) (log_file s2) 0)
       = Some (Ok tt, mkStore (new_AsyncLRUCache capacity) (log_file s2) 0).
Proof.
  intros s0 now.
  set (l1 := log_entry 0 "SET" k (Some v) (Some 11%Z)).
  set (c1 := mkCache capacity [mkEntry k (Some v) (Some (0 + inject_Z 11)%Q)]).
  exists (mkStore c1 (mkFS (Some [l1]) [] false) 1).
  exists (mkStore c1 (mkFS (Some []) [(10%Z, [l1])] false) 0).
  split; [|split; [|split; [|split; [|split; [|split; [|split; [|split]]]]]]].
  - unfold set, bind, on_cache, _log_operation, s0.
    cbn [cache log_file append_fails content backups log_size].
    now rewrite put_new.
  - apply get_raw_single.
  - cbn [cache]. unfold c1. now rewrite get_single.
  - reflexivity.
  - unfold compact_log. cbn [cache log_file content backups append_fails].
    unfold c1, get_all_keys. cbn [entries map key snapshot].
    rewrite get_raw_single. cbn [snapshot dict_set compact_items].
    change (compact_item (fun _ => now) 0 (k, (Some v, Some (0 + inject_Z 11)%Q)))
      with (@Ok (option line) None, 1%nat).
    reflexivity.
  - reflexivity.
  - reflexivity.
  - cbn [cache]. unfold c1. now rewrite get_single.
  - reflexivity.
Qed.

(** *** A failing append *)

Lemma set_raise_keeps_mutation now k v ttl s :
  append_fails (log_file s) = true ->
  let c' := put k (Some v) (option_map inject_Z ttl) now (cache s) in
  set now k v ttl s = (Raise OSError, mkStore c' (log_file s) (log_size s))
  /\ get_raw k c'
     = Some (Some v, option_map (fun t => (now + t)%Q) (option_map inject_Z ttl)).
Proof.
  intros H c'. split; [|apply get_raw_put].
  unfold set, bind, on_cache, _log_operation. cbn [log_file]. now rewrite H.
Qed.

Lemma delete_raise_keeps_mutation now k s :
  append_fails (log_file s) = true -> is_Some (get_raw k (cache s)) ->
  let c' := snd (AsyncLRU.delete k (cache s)) in
  delete now k s = (Raise OSError, mkStore c' (log_file s) (log_size s))
  /\ get_raw k c' = None.
Proof.
  intros H [x Hx] c'. split; [|apply get_raw_delete].
  unfold c', delete, bind, on_cache, _log_operation, AsyncLRU.delete.
  unfold get_raw in Hx. destruct (find k (entries (cache s))); [|discriminate].
  cbn [log_file snd]. now rewrite H.
Qed.

End SimpleStoreFacts.

(** ** Cache and log are not updated atomically *)

Module Atomicity.

Import StoreFacts.

(** C7. [set] and [delete] are not atomic with respect to the log, in either
    store: when the append raises [OSError], the call raises it to the
    caller, the log is as before, and the cache keeps the mutation: the new
    value is there after a failed [set], the key is gone after a failed
    [delete]. *)
Theorem set_not_atomic (s : Store.KeyValueStore)
    (a : SimpleStore.SimpleAsyncKeyValueStore) (now : Q) (k v : string)
    (ttl : option Z) :
  Store.reachable s ->
  Store.append_fails (Store.log_file s) = true ->
  SimpleStore.append_fails (SimpleStore.log_file a) = true ->
  (* app/store.py *)
  (exists c' n,
     LRU.put k v (Store.cache s) = (Ok tt, c')
     /\ Store.set k v s = (Raise OSError, Store.mkStore c' (Store.log_file s))
     /\ LRU.cache c' !! k = Some n
     /\ LRU.value_of (LRU.heap c') n = Some v)
  /\ (is_Some (LRU.cache (Store.cache s) !! k) ->
      exists c',
        LRU.delete k (Store.cache s) = (Ok true, c')
        /\ Store.delete k s = (Raise OSError, Store.mkStore c' (Store.log_file s))
        /\ LRU.cache c' !! k = None)
  (* app/simple_store.py *)
  /\ (let c' := AsyncLRU.put k (Some v) (option_map inject_Z ttl) now
                  (SimpleStore.cache a) in
      SimpleStore.set now k v ttl a
      = (Raise OSError,
         SimpleStore.mkStore c' (SimpleStore.log_file a) (SimpleStore.log_size a))
      /\ option_map fst (AsyncLRU.get_raw k c') = Some (Some v))
  /\ (is_Some (AsyncLRU.get_raw k (SimpleStore.cache a)) ->
      let c' := snd (AsyncLRU.delete k (SimpleStore.cache a)) in
      SimpleStore.delete now k a
      = (Raise OSError,
         SimpleStore.mkStore c' (SimpleStore.log_file a) (SimpleStore.log_size a))
      /\ AsyncLRU.get_raw k c' = None).
Proof.
  intros Hr Hf Ha.
  destruct (set_delete_raise_keeps_mutation s k v Hr Hf) as [H1 H2].
  split; [exact H1|]. split; [exact H2|]. split.
  - destruct (SimpleStoreFacts.set_raise_keeps_mutation now k v ttl a Ha) as [E1 E2].
    split; [exact E1|]. now rewrite E2.
  - intros Hk. now apply SimpleStoreFacts.delete_raise_keeps_mutation.
Qed.

Lemma set_not_atomic_witness :
  let s := snd (Store.new_KeyValueStore 2
                  (Store.mkFS (Some (PyStr.unlines ["SET|a|1"])) true)) in
  let a := SimpleStore.mkStore
             (AsyncLRU.put "a" (Some "1") None 0 (AsyncLRU.new_AsyncLRUCache 2))
             (SimpleStore.mkFS None [] true) 0 in
  Store.reachable s
  /\ Store.append_fails (Store.log_file s) = true
  /\ SimpleStore.append_fails (SimpleStore.log_file a) = true
  /\ fst (Store.set "a" "2" s) = Raise OSError
  /\ Store.items (snd (Store.set "a" "2" s)) = [(Some "a", Some "2")]
  /\ Store.log_file (snd (Store.set "a" "2" s)) = Store.log_file s.
Proof.
  intros s a.
  assert (Hr : Store.reachable s).
  { apply (Store.reach_new 2 (Store.mkFS (Some (PyStr.unlines ["SET|a|1"])) true)).
    reflexivity. }
  split; [exact Hr|]. split; [reflexivity|]. split; [reflexivity|].
  destruct (set_not_atomic s a 0 "a" "2" None Hr eq_refl eq_refl)
    as [(c' & n & Hput & Hset & _) _].
  rewrite Hset. cbn [fst snd]. split; [reflexivity|]. split; [|reflexivity].
  vm_compute in Hput. injection Hput as <-. reflexivity.
Defined.

End Atomicity.

(** ** The cache of app/lru.py as a recency list *)

Module LRUModelFacts.

Import LRU LRUFacts LRUModel.
Local Open Scope py_scope.

(** *** Keys are written once *)

Lemma keeps_ret {S A} (hp : S -> list Node) (a : A) : keeps_keys hp (ret a).
Proof. intros s r s' [= <- <-]. auto. Qed.

Lemma keeps_raise {S A} (hp : S -> list Node) e : keeps_keys hp (@raise S A e).
Proof. intros s r s' [= <- <-]. auto. Qed.

Lemma keeps_bind {S A B} (hp : S -> list Node) (m : M S A) (f : A -> M S B) :
  keeps_keys hp m -> (forall a, keeps_keys hp (f a)) -> keeps_keys hp (bind m f).
Proof.
  intros Hm Hf s r s' H. unfold bind in H.
  destruct (m s) as [[a|e] s1] eqn:E.
  - destruct (Hm _ _ _ E) as [L1 K1]. destruct (Hf a _ _ _ H) as [L2 K2].
    split; [lia|]. intros b Hb. rewrite K2 by lia. now apply K1.
  - injection H as <- <-. exact (Hm _ _ _ E).
Qed.

Lemma keeps_getattr {A} (f : Node -> A) r : keeps_keys id (getattr f r).
Proof.
  intros h x h' H. unfold getattr in H.
  destruct r as [a|]; [destruct (h !! a)|]; injection H as _ <-; auto.
Qed.

Lemma keeps_setattr upd r :
  (forall n, key (upd n) = key n) -> keeps_keys id (setattr upd r).
Proof.
  intros Hk h x h' H. unfold setattr in H.
  destruct r as [a|]; [destruct (h !! a) as [n|] eqn:E|]; injection H as _ <-; auto.
  unfold id. rewrite length_insert. split; [lia|].
  intros b _. now apply (key_of_upd h a n E).
Qed.

Lemma keeps_new_Node k v : keeps_keys id (new_Node k v).
Proof.
  intros h x h' [= _ <-]. unfold id. rewrite length_app. split; [simpl; lia|].
  intros b Hb. unfold key_of. now rewrite lookup_app_l.
Qed.

Lemma keeps_add_to_front d n : keeps_keys id (add_to_front d n).
Proof.
  unfold add_to_front.
  repeat (apply keeps_bind; [|intros ?]);
    try apply keeps_getattr; apply keeps_setattr; reflexivity.
Qed.

Lemma keeps_remove_node d n : keeps_keys id (remove_node d n).
Proof.
  unfold remove_node.
  repeat (apply keeps_bind; [|intros ?]);
    try apply keeps_getattr; apply keeps_setattr; reflexivity.
Qed.

Lemma keeps_remove_from_end d : keeps_keys id (remove_from_end d).
Proof.
  unfold remove_from_end. apply keeps_bind; [apply keeps_getattr|]. intros last.
  destruct (decide _); [apply keeps_ret|].
  apply keeps_bind; [apply keeps_getattr|]. intros [l|]; [|apply keeps_raise].
  apply keeps_bind; [apply keeps_remove_node|]. intros _. apply keeps_ret.
Qed.

Lemma keeps_on_heap {A} (m : M (list Node) A) :
  keeps_keys id m -> keeps_keys heap (on_heap m).
Proof.
  intros Hm c r c' H. unfold on_heap in H.
  destruct (m (heap c)) as [x h'] eqn:E. injection H as _ <-. simpl.
  exact (Hm _ _ _ E).
Qed.

Lemma keeps_del_cache k : keeps_keys heap (del_cache k).
Proof.
  intros c r c' H. unfold del_cache in H.
  destruct k as [k|]; [destruct (cache c !! k)|]; injection H as _ <-; auto.
Qed.

Lemma keeps_set_item k n : keeps_keys heap (set_item k n).
Proof. intros c r c' [= _ <-]. auto. Qed.

Ltac keeps :=
  repeat first
    [ apply keeps_add_to_front
    | apply keeps_remove_node
    | apply keeps_remove_from_end
    | apply keeps_del_cache
    | apply keeps_set_item
    | apply keeps_getattr
    | apply keeps_setattr; reflexivity
    | apply keeps_new_Node
    | apply keeps_ret
    | apply keeps_on_heap
    | apply keeps_bind; [|intros ?] ].

(** [put] rewrites the key of no object that was there before. *)
Lemma keeps_put k v : keeps_keys heap (put k v).
Proof.
  intros c r c' H. unfold put in H. destruct (cache c !! k) as [node|].
  - match type of H with ?m c = _ => assert (K : keeps_keys heap m) end.
    { keeps. }
    exact (K _ _ _ H).
  - match type of H with ?m c = _ => assert (K : keeps_keys heap m) end.
    { apply keeps_bind; [|intros ?; keeps].
      destruct (_ >=? _)%Z; [|keeps].
      apply keeps_bind; [keeps|]. intros [l|]; keeps. }
    exact (K _ _ _ H).
Qed.

Lemma items_wf c ns :
  wf c ns ->
  items c = map (fun a => (key_of (heap c) a, value_of (heap c) a)) ns.
Proof.
  intros W. unfold items. rewrite (nodes_wf c ns W). apply map_ext. intros a.
  unfold key_of, value_of. now destruct (heap c !! a).
Qed.

Lemma without_cons {K V} `{EqDecision K} (k : K) (p : K * V) l :
  without k (p :: l) = if decide (fst p = k) then without k l else p :: without k l.
Proof.
  unfold without. simpl. unfold bool_decide. now destruct (decide_rel eq (fst p) k).
Qed.

Lemma without_app {K V} `{EqDecision K} (k : K) (l1 l2 : list (K * V)) :
  without k (l1 ++ l2) = without k l1 ++ without k l2.
Proof. unfold without. apply List.filter_app. Qed.

Lemma without_all {K V} `{EqDecision K} (k : K) (l : list (K * V)) :
  (forall p, p ∈ l -> fst p <> k) -> without k l = l.
Proof.
  induction l as [|p l IH]; intros H; [reflexivity|].
  rewrite without_cons. rewrite decide_False by (apply H; left).
  rewrite IH; [reflexivity|]. intros q Hq. apply H. now right.
Qed.

Lemma assoc_skip {K V} `{EqDecision K} (k : K) (l1 l2 : list (K * V)) :
  (forall p, p ∈ l1 -> fst p <> k) -> assoc k (l1 ++ l2) = assoc k l2.
Proof.
  induction l1 as [|[k' v] l1 IH]; intros H; [reflexivity|]. simpl.
  rewrite decide_False by (apply (H (k', v)); left).
  apply IH. intros q Hq. apply H. now right.
Qed.

Lemma assoc_None {K V} `{EqDecision K} (k : K) (l : list (K * V)) :
  (forall p, p ∈ l -> fst p <> k) -> assoc k l = None.
Proof.
  intros H. rewrite <- (app_nil_r l). now rewrite assoc_skip.
Qed.

(** In a well-formed cache the other nodes carry other keys. *)
Lemma wf_other_keys c l1 a l2 k :
  wf c (l1 ++ a :: l2) -> key_of (heap c) a = Some k ->
  forall b, b ∈ l1 ++ l2 -> key_of (heap c) b <> Some k.
Proof.
  intros W Ha b Hb Hk.
  assert (Hina : a ∈ l1 ++ a :: l2) by (apply elem_of_app; right; left).
  assert (Hinb : b ∈ l1 ++ a :: l2).
  { apply elem_of_app in Hb as [?|?]; apply elem_of_app; [left|right; right]; auto. }
  assert (E1 : cache c !! k = Some a) by (apply (wf_index _ _ W); auto).
  assert (E2 : cache c !! k = Some b) by (apply (wf_index _ _ W); auto).
  assert (b = a) by congruence. subst b.
  pose proof (wf_nodup _ _ W) as Hnd. unfold chain in Hnd.
  apply NoDup_cons in Hnd as (_ & Hnd). apply NoDup_app in Hnd as (Hnd & _).
  apply NoDup_app in Hnd as (_ & N1 & N2). apply NoDup_cons in N2 as (N2 & _).
  apply elem_of_app in Hb as [Hb|Hb]; [apply (N1 a Hb); left | contradiction].
Qed.

Lemma assoc_items c ns k :
  wf c ns -> assoc (Some k) (items c) = peek c k.
Proof.
  intros W. rewrite (items_wf c ns W). unfold peek.
  destruct (cache c !! k) as [a|] eqn:E; simpl.
  - destruct (wf_lookup c ns k a W E) as (l1 & l2 & -> & Hk).
    rewrite map_app. simpl map. rewrite assoc_skip.
    + simpl. rewrite Hk. now rewrite decide_True.
    + intros p Hp. apply list_elem_of_fmap in Hp as (b & -> & Hb). simpl.
      apply (wf_other_keys c l1 a l2 k W Hk). apply elem_of_app. now left.
  - apply assoc_None. intros p Hp. apply list_elem_of_fmap in Hp as (b & -> & Hb).
    simpl. intros Hk. assert (cache c !! k = Some b) by (apply (wf_index _ _ W); auto).
    congruence.
Qed.

Lemma without_items c l1 a l2 k (f : nat -> option string * option string) :
  wf c (l1 ++ a :: l2) -> key_of (heap c) a = Some k ->
  (forall b, fst (f b) = key_of (heap c) b) ->
  without (Some k) (map f (l1 ++ a :: l2)) = map f l1 ++ map f l2.
Proof.
  intros W Hk Hf. rewrite map_app, without_app. simpl map. rewrite without_cons.
  rewrite decide_True by (now rewrite Hf).
  rewrite !without_all; [reflexivity| |];
    intros p Hp; apply list_elem_of_fmap in Hp as (b & -> & Hb); rewrite Hf;
    apply (wf_other_keys c l1 a l2 k W Hk); apply elem_of_app; auto.
Qed.

Lemma inv_length_items c ns : wf c ns -> length (items c) = base.size (cache c).
Proof. intros W. rewrite (items_wf c ns W), length_map. symmetry. apply (wf_size _ _ W). Qed.

Lemma get_items k c :
  inv c ->
  exists r c', get k c = (Ok r, c') /\ inv c' /\ capacity c' = capacity c
    /\ match assoc (Some k) (items c) with
       | Some v => r = v /\ items c' = (Some k, v) :: without (Some k) (items c)
       | None => r = None /\ c' = c
       end.
Proof.
  intros I. destruct (get_inv k c I) as (r & c' & R & I' & C').
  exists r, c'. split; [exact R|]. split; [exact I'|]. split; [exact C'|].
  destruct I as (ns & W & _). rewrite (assoc_items c ns k W). unfold peek.
  destruct (cache c !! k) as [a|] eqn:E; simpl.
  - destruct (get_hit c ns k a W E) as (c'' & l1 & l2 & -> & R' & W' & _ & _ & _ & S).
    assert (c'' = c' /\ r = value_of (heap c) a) as [-> ->] by (split; congruence).
    split; [reflexivity|].
    destruct (wf_lookup _ _ _ _ W E) as (_ & _ & _ & Hk).
    rewrite (items_wf _ _ W'), (items_wf _ _ W).
    rewrite (without_items c l1 a l2 k _ W Hk) by reflexivity.
    destruct S as [_ D]. simpl map. rewrite map_app.
    destruct (D a) as [-> ->]. rewrite Hk. f_equal.
    f_equal; apply map_ext; intros b; destruct (D b) as [-> ->]; reflexivity.
  - rewrite (get_miss c k E) in R. now injection R as <- <-.
Qed.

Lemma delete_items k c :
  inv c ->
  exists b c', delete k c = (Ok b, c') /\ inv c' /\ capacity c' = capacity c
    /\ match assoc (Some k) (items c) with
       | Some _ => b = true /\ items c' = without (Some k) (items c)
       | None => b = false /\ c' = c
       end.
Proof.
  intros I. destruct (delete_inv k c I) as (r & c' & R & I' & C').
  exists r, c'. split; [exact R|]. split; [exact I'|]. split; [exact C'|].
  destruct I as (ns & W & _). rewrite (assoc_items c ns k W). unfold peek.
  destruct (cache c !! k) as [a|] eqn:E; simpl.
  - destruct (delete_hit c ns k a W E) as (c'' & l1 & l2 & -> & R' & W' & _ & _ & _ & S).
    assert (c'' = c' /\ r = true) as [-> ->] by (split; congruence).
    split; [reflexivity|].
    destruct (wf_lookup _ _ _ _ W E) as (_ & _ & _ & Hk).
    rewrite (items_wf _ _ W'), (items_wf _ _ W).
    rewrite (without_items c l1 a l2 k _ W Hk) by reflexivity.
    destruct S as [_ D]. rewrite map_app.
    f_equal; apply map_ext; intros b; destruct (D b) as [-> ->]; reflexivity.
  - rewrite (delete_miss c k E) in R. now injection R as <- <-.
Qed.

Lemma removelast_map {A B} (f : A -> B) l : removelast (map f l) = map f (removelast l).
Proof.
  destruct l as [|x l _] using rev_ind; [reflexivity|].
  rewrite map_app. simpl map. now rewrite !removelast_last.
Qed.

Lemma elem_of_removelast_list {A} (l : list A) x : x ∈ removelast l -> x ∈ l.
Proof.
  destruct l as [|y l _] using rev_ind; [easy|].
  rewrite removelast_last. intros H. apply elem_of_app. now left.
Qed.

Lemma map_ext_elem {A B} (f g : A -> B) l :
  (forall a, a ∈ l -> f a = g a) -> map f l = map g l.
Proof. intros H. apply map_ext_in. intros a Ha. apply H. now apply list_elem_of_In. Qed.

Lemma put_items k v c :
  inv c ->
  exists c', put k v c = (Ok tt, c') /\ inv c' /\ capacity c' = capacity c
    /\ items c'
       = (Some k, Some v)
         :: match assoc (Some k) (items c) with
            | Some _ => without (Some k) (items c)
            | None => if (Z.of_nat (length (items c)) >=? capacity c)%Z
                      then removelast (items c) else items c
            end.
Proof.
  intros I. destruct (put_inv k v c I) as (c' & R & I' & C').
  exists c'. split; [exact R|]. split; [exact I'|]. split; [exact C'|].
  destruct I as (ns & W & _). rewrite (assoc_items c ns k W).
  rewrite (inv_length_items c ns W). unfold peek.
  destruct (cache c !! k) as [a|] eqn:E; simpl.
  - destruct (put_hit c ns k v a W E)
      as (c'' & l1 & l2 & -> & R' & W' & _ & _ & _ & _ & K & V).
    assert (c'' = c') by congruence. subst c''.
    destruct (wf_lookup _ _ _ _ W E) as (_ & _ & _ & Hk).
    rewrite (items_wf _ _ W'), (items_wf _ _ W).
    rewrite (without_items c l1 a l2 k _ W Hk) by reflexivity.
    simpl map. rewrite K, V, Hk, decide_True by reflexivity. f_equal.
    rewrite map_app.
    pose proof (wf_nodup _ _ W) as Hnd. unfold chain in Hnd.
    apply NoDup_cons in Hnd as (_ & Hnd). apply NoDup_app in Hnd as (Hnd & _).
    apply NoDup_app in Hnd as (_ & N1 & N2). apply NoDup_cons in N2 as (N2 & _).
    f_equal; apply map_ext_elem; intros b Hb; rewrite K, V;
      rewrite decide_False; try reflexivity; intros ->.
    + apply (N1 a Hb). left.
    + contradiction.
  - destruct (put_miss c ns k v W E) as (c'' & R' & W' & _ & _ & Hc & Va & Vb & _).
    assert (c'' = c') by congruence. subst c''.
    destruct (keeps_put k v c _ _ R) as [_ K].
    rewrite (items_wf _ _ W'), (items_wf _ _ W). simpl map.
    assert (Hka : key_of (heap c') (length (heap c)) = Some k).
    { now apply (wf_index _ _ W') in Hc as [_ Hc]. }
    rewrite Hka, Va. f_equal.
    assert (Hold : forall b, b ∈ ns ->
              (key_of (heap c') b, value_of (heap c') b)
              = (key_of (heap c) b, value_of (heap c) b)).
    { intros b Hb. assert (Hlt : b < length (heap c)).
      { apply (wf_chain_alloc c ns b W). right. apply elem_of_app. now left. }
      rewrite K by exact Hlt. rewrite Vb by lia. reflexivity. }
    destruct (_ >=? _)%Z.
    + rewrite removelast_map. apply map_ext_elem. intros b Hb. apply Hold.
      now apply elem_of_removelast_list.
    + apply map_ext_elem. exact Hold.
Qed.

(** *** The cache holds a recency list *)

Lemma assoc_embed k L : assoc (Some k) (embed L) = Some <$> assoc k L.
Proof.
  induction L as [|[k' v] L IH]; [reflexivity|]. simpl.
  destruct (decide (k' = k)) as [->|Hne].
  - now rewrite decide_True.
  - rewrite decide_False by congruence. exact IH.
Qed.

Lemma without_embed k L : without (Some k) (embed L) = embed (without k L).
Proof.
  induction L as [|[k' v] L IH]; [reflexivity|].
  change (embed ((k', v) :: L)) with ((Some k', Some v) :: embed L).
  rewrite !without_cons. cbn [fst].
  destruct (decide (k' = k)) as [->|Hne].
  - rewrite !decide_True by reflexivity. exact IH.
  - rewrite !decide_False by congruence.
    change (embed ((k', v) :: without k L)) with ((Some k', Some v) :: embed (without k L)).
    now rewrite IH.
Qed.

Lemma length_embed L : length (embed L) = length L.
Proof. apply length_map. Qed.

Lemma removelast_embed L : removelast (embed L) = embed (removelast L).
Proof. apply removelast_map. Qed.

Lemma keys_embed L : map fst (embed L) = Some <$> map fst L.
Proof. unfold embed. rewrite map_map. symmetry. apply map_map. Qed.

Lemma contents_embed c L : items c = embed L -> contents c = L.
Proof.
  intros H. unfold contents. rewrite H. clear H.
  induction L as [|[k v] L IH]; [reflexivity|].
  change (embed ((k, v) :: L)) with ((Some k, Some v) :: embed L).
  cbn [omap list_omap]. now f_equal.
Qed.

Lemma repr_new cap c : new_LRUCache cap = (Ok tt, c) -> repr c [] /\ capacity c = cap.
Proof.
  intros H. split; [split; [now apply (inv_new cap)|] | now apply wf_new in H].
  rewrite new_LRUCache_eq in H. now injection H as <-.
Qed.

Lemma repr_put k v c L :
  repr c L ->
  exists c', put k v c = (Ok tt, c') /\ repr c' (m_put (capacity c) k v L)
             /\ capacity c' = capacity c.
Proof.
  intros [I E]. destruct (put_items k v c I) as (c' & R & I' & C' & It).
  exists c'. split; [exact R|]. split; [|exact C']. split; [exact I'|].
  rewrite It, E, assoc_embed, length_embed. unfold m_put.
  destruct (assoc k L); cbn [fmap option_fmap option_map].
  - now rewrite without_embed.
  - destruct (Z.of_nat (length L) >=? capacity c)%Z; [|reflexivity].
    now rewrite removelast_embed.
Qed.

Lemma repr_get k c L :
  repr c L ->
  exists c', get k c = (Ok (fst (m_get k L)), c') /\ repr c' (snd (m_get k L))
             /\ capacity c' = capacity c.
Proof.
  intros [I E]. destruct (get_items k c I) as (r & c' & R & I' & C' & It).
  rewrite E, assoc_embed in It. unfold m_get.
  destruct (assoc k L) as [v|]; simpl in *.
  - destruct It as [-> It]. exists c'. split; [exact R|]. split; [|exact C'].
    split; [exact I'|]. rewrite It. now rewrite without_embed.
  - destruct It as [-> ->]. exists c. split; [exact R|]. now split.
Qed.

Lemma repr_delete k c L :
  repr c L ->
  exists c', delete k c = (Ok (fst (m_delete k L)), c')
             /\ repr c' (snd (m_delete k L)) /\ capacity c' = capacity c.
Proof.
  intros [I E]. destruct (delete_items k c I) as (r & c' & R & I' & C' & It).
  rewrite E, assoc_embed in It. unfold m_delete.
  destruct (assoc k L) as [v|]; simpl in *.
  - destruct It as [-> It]. exists c'. split; [exact R|]. split; [|exact C'].
    split; [exact I'|]. rewrite It. now rewrite without_embed.
  - destruct It as [-> ->]. exists c. split; [exact R|]. now split.
Qed.

Lemma repr_step o c L :
  repr c L ->
  exists c', step o c = (Ok (fst (m_step (capacity c) o L)), c')
             /\ repr c' (snd (m_step (capacity c) o L))
             /\ capacity c' = capacity c.
Proof.
  intros Hr. destruct o as [k v|k|k]; simpl.
  - destruct (repr_put k v c L Hr) as (c' & R & H). exists c'.
    now rewrite (bind_Ok _ _ _ _ _ R).
  - destruct (repr_get k c L Hr) as (c' & R & H). exists c'.
    rewrite (bind_Ok _ _ _ _ _ R). now destruct (m_get k L).
  - destruct (repr_delete k c L Hr) as (c' & R & H). exists c'.
    rewrite (bind_Ok _ _ _ _ _ R). now destruct (m_delete k L).
Qed.

Lemma repr_run os : forall c L,
  repr c L ->
  exists c', run os c = (Ok (fst (m_run (capacity c) os L)), c')
             /\ repr c' (snd (m_run (capacity c) os L))
             /\ capacity c' = capacity c.
Proof.
  induction os as [|o os IH]; intros c L Hr; simpl.
  - exists c. auto.
  - destruct (repr_step o c L Hr) as (c1 & R1 & H1 & C1).
    destruct (m_step (capacity c) o L) as [r L1]. simpl in *.
    destruct (IH c1 L1 H1) as (c2 & R2 & H2 & C2). rewrite C1 in *.
    destruct (m_run (capacity c) os L1) as [rs L2]. simpl in *.
    exists c2. rewrite (bind_Ok _ _ _ _ _ R1), (bind_Ok _ _ _ _ _ R2).
    split; [reflexivity|]. split; [exact H2 | congruence].
Qed.

Lemma reachable_repr c : reachable c -> repr c (contents c).
Proof.
  intros (cap & os & rs & R).
  destruct (repr_new cap _ (new_LRUCache_eq cap)) as [H0 C0].
  rewrite new_LRUCache_eq in R. simpl in R.
  destruct (repr_run os _ [] H0) as (c' & R' & H' & _).
  assert (c' = c) by congruence. subst c'.
  now rewrite (contents_embed c _ (proj2 H')).
Qed.

Lemma reachable_step o c r c' : reachable c -> step o c = (Ok r, c') -> reachable c'.
Proof.
  intros (cap & os & rs & R) Hs. exists cap, (os ++ [o]), (rs ++ [r]).
  revert R. generalize (snd (new_LRUCache cap)). clear cap. revert rs.
  induction os as [|o' os IH]; intros rs c0 R; simpl in *.
  - injection R as <- <-. now rewrite (bind_Ok _ _ _ _ _ Hs).
  - unfold bind in R |- *. destruct (step o' c0) as [[r1|e] c1]; [|discriminate].
    fold (bind (run os) (fun rs => ret (r1 :: rs)) c1) in R.
    destruct (run os c1) as [[rs1|e] c2] eqn:E.
    + unfold bind in R. rewrite E in R. injection R as <- <-.
      specialize (IH rs1 c1 E). unfold bind in IH. 
      destruct (run (os ++ [o]) c1) as [[x|e] y]; [|discriminate].
      now injection IH as -> ->.
    + unfold bind in R. rewrite E in R. discriminate.
Qed.

(** *** Facts of the recency list *)

Lemma assoc_elem {K V} `{EqDecision K} (k : K) (l : list (K * V)) :
  assoc k l = None -> forall p, p ∈ l -> fst p <> k.
Proof.
  induction l as [|[k' v] l IH]; intros H p Hp; [now apply elem_of_nil in Hp|].
  simpl in H. destruct (decide (k' = k)) as [|Hne]; [discriminate|].
  apply elem_of_cons in Hp as [->|Hp]; [exact Hne | now apply IH].
Qed.

Lemma assoc_without_same {K V} `{EqDecision K} (k : K) (l : list (K * V)) :
  assoc k (without k l) = None.
Proof.
  induction l as [|[k' v] l IH]; [reflexivity|]. rewrite without_cons. simpl fst.
  destruct (decide (k' = k)) as [|Hne]; [exact IH|]. simpl.
  now rewrite decide_False.
Qed.

Lemma assoc_without_other {K V} `{EqDecision K} (k k' : K) (l : list (K * V)) :
  k' <> k -> assoc k' (without k l) = assoc k' l.
Proof.
  intros Hne. induction l as [|[k0 v] l IH]; [reflexivity|].
  rewrite without_cons. simpl fst. destruct (decide (k0 = k)) as [->|H0]; simpl.
  - rewrite decide_False by congruence. exact IH.
  - now rewrite IH.
Qed.

Lemma assoc_removelast_None {K V} `{EqDecision K} (k : K) (l : list (K * V)) :
  assoc k l = None -> assoc k (removelast l) = None.
Proof.
  intros H. apply assoc_None. intros p Hp.
  apply (assoc_elem k l H). now apply elem_of_removelast_list.
Qed.

(** After [m_put] the pair is at the front and the key occurs nowhere else. *)
Lemma m_put_front cap k v L :
  exists T, m_put cap k v L = (k, v) :: T /\ assoc k T = None
            /\ (Z.of_nat (length T) <= Z.of_nat (length L))%Z.
Proof.
  unfold m_put. destruct (assoc k L) eqn:E.
  - exists (without k L). split; [reflexivity|]. split; [apply assoc_without_same|].
    unfold without. pose proof (List.filter_length_le
      (fun p : string * string => negb (bool_decide (fst p = k))) L). lia.
  - destruct (Z.of_nat (length L) >=? cap)%Z.
    + exists (removelast L). split; [reflexivity|].
      split; [now apply assoc_removelast_None|].
      destruct L as [|x L] using rev_ind; [simpl; lia|].
      rewrite removelast_last, length_app. simpl. lia.
    + exists L. split; [reflexivity|]. split; [exact E | lia].
Qed.

Lemma m_get_front k v T :
  assoc k T = None -> m_get k ((k, v) :: T) = (Some v, (k, v) :: T).
Proof.
  intros H. unfold m_get. cbn [assoc]. rewrite decide_True by reflexivity.
  rewrite without_cons. simpl fst. rewrite decide_True by reflexivity.
  rewrite without_all; [reflexivity|]. now apply assoc_elem.
Qed.

Lemma m_put_keeps_front cap k v T k' v' :
  k' <> k -> (2 <= cap)%Z ->
  assoc k (m_put cap k' v' ((k, v) :: T)) = Some v.
Proof.
  intros Hne Hcap.
  assert (Hk : forall X, assoc k ((k', v') :: (k, v) :: X) = Some v).
  { intros X. cbn [assoc]. rewrite decide_False by exact Hne.
    now rewrite decide_True. }
  unfold m_put.
  replace (assoc k' ((k, v) :: T)) with (assoc k' T)
    by (cbn [assoc]; now rewrite decide_False by congruence).
  destruct (assoc k' T).
  - rewrite without_cons. cbn [fst]. rewrite decide_False by congruence. apply Hk.
  - destruct (Z.of_nat (length ((k, v) :: T)) >=? cap)%Z eqn:Efull; [|apply Hk].
    apply Z.geb_le in Efull.
    destruct T as [|p T]; [simpl in Efull; lia|].
    change (removelast ((k, v) :: p :: T)) with ((k, v) :: removelast (p :: T)).
    apply Hk.
Qed.

Lemma NoDup_keys_items c ns : wf c ns -> NoDup (map fst (items c)).
Proof.
  intros W. rewrite (items_wf c ns W), map_map. simpl.
  apply (NoDup_fmap_2_strong (fun a => key_of (heap c) a)).
  - intros a b Ha Hb Hab. destruct (wf_keys _ _ W a Ha) as [k Hk].
    assert (Ia : cache c !! k = Some a) by now apply (wf_index _ _ W).
    assert (Ib : cache c !! k = Some b) by (apply (wf_index _ _ W); split; congruence).
    congruence.
  - pose proof (wf_nodup _ _ W) as Hnd. unfold chain in Hnd.
    apply NoDup_cons in Hnd as (_ & Hnd). now apply NoDup_app in Hnd as (Hnd & _).
Qed.

(** *** The cache of lru.py against its recency list *)

Lemma reachable_put k v c :
  reachable c ->
  exists c', put k v c = (Ok tt, c')
    /\ repr c' (m_put (capacity c) k v (contents c))
    /\ capacity c' = capacity c /\ reachable c'.
Proof.
  intros Hr. destruct (repr_put k v c _ (reachable_repr c Hr)) as (c' & R & H & C).
  exists c'. split; [exact R|]. split; [exact H|]. split; [exact C|].
  apply (reachable_step (Put k v) c Done c' Hr).
  simpl. now rewrite (bind_Ok _ _ _ _ _ R).
Qed.

Lemma reachable_get k c :
  reachable c ->
  exists c', get k c = (Ok (fst (m_get k (contents c))), c')
    /\ repr c' (snd (m_get k (contents c)))
    /\ capacity c' = capacity c /\ reachable c'.
Proof.
  intros Hr. destruct (repr_get k c _ (reachable_repr c Hr)) as (c' & R & H & C).
  exists c'. split; [exact R|]. split; [exact H|]. split; [exact C|].
  apply (reachable_step (Get k) c (Got (fst (m_get k (contents c)))) c' Hr).
  simpl. now rewrite (bind_Ok _ _ _ _ _ R).
Qed.

Lemma reachable_delete k c :
  reachable c ->
  exists c', delete k c = (Ok (fst (m_delete k (contents c))), c')
    /\ repr c' (snd (m_delete k (contents c)))
    /\ capacity c' = capacity c /\ reachable c'.
Proof.
  intros Hr. destruct (repr_delete k c _ (reachable_repr c Hr)) as (c' & R & H & C).
  exists c'. split; [exact R|]. split; [exact H|]. split; [exact C|].
  apply (reachable_step (Delete k) c (Deleted (fst (m_delete k (contents c)))) c' Hr).
  simpl. now rewrite (bind_Ok _ _ _ _ _ R).
Qed.

Lemma reachable_new cap : reachable (snd (new_LRUCache cap)).
Proof. now exists cap, [], []. Qed.

(** A miss changes nothing, not even the heap. *)
Lemma get_absent k c :
  reachable c -> assoc k (contents c) = None -> get k c = (Ok None, c).
Proof.
  intros Hr Hk. pose proof (reachable_repr c Hr) as [I E].
  destruct (get_items k c I) as (r & c' & R & _ & _ & It).
  rewrite E, assoc_embed, Hk in It. simpl in It. now destruct It as [-> ->].
Qed.

Lemma delete_absent_contents k c :
  reachable c -> assoc k (contents c) = None -> delete k c = (Ok false, c).
Proof.
  intros Hr Hk. pose proof (reachable_repr c Hr) as [I E].
  destruct (delete_items k c I) as (r & c' & R & _ & _ & It).
  rewrite E, assoc_embed, Hk in It. simpl in It. now destruct It as [-> ->].
Qed.

(** X1. [put] on a cache built by the constructor and used through its
    methods never raises, and rebinds the key at the front of the recency
    list; a new key first pushes out the last pair when the cache holds
    [capacity] pairs or more. *)
Theorem put_refines k v c :
  reachable c ->
  exists c', put k v c = (Ok tt, c')
    /\ contents c' = m_put (capacity c) k v (contents c)
    /\ capacity c' = capacity c
    /\ reachable c'.
Proof.
  intros Hr. destruct (reachable_put k v c Hr) as (c' & R & H & C & Hr').
  exists c'. split; [exact R|]. split; [exact (contents_embed _ _ (proj2 H))|].
  now split.
Qed.

Lemma put_refines_witness :
  exists c', put "c" "3" (snd (run [Put "a" "1"; Put "b" "2"] (snd (new_LRUCache 2)))) = (Ok tt, c')
    /\ contents c' = m_put (capacity (snd (run [Put "a" "1"; Put "b" "2"] (snd (new_LRUCache 2))))) "c" "3" (contents (snd (run [Put "a" "1"; Put "b" "2"] (snd (new_LRUCache 2)))))
    /\ capacity c' = capacity (snd (run [Put "a" "1"; Put "b" "2"] (snd (new_LRUCache 2))))
    /\ reachable c'.
Proof.
  apply (put_refines "c" "3").
  exists 2%Z, [Put "a" "1"; Put "b" "2"], [Done; Done]. vm_compute. reflexivity.
Defined.

(** X2. [get] on such a cache never raises; it returns the value bound to
    the key and moves the pair to the front of the recency list, or returns
    [None] and leaves the cache as it is. *)
Theorem get_refines k c :
  reachable c ->
  exists c', get k c = (Ok (assoc k (contents c)), c')
    /\ contents c' = snd (m_get k (contents c))
    /\ capacity c' = capacity c
    /\ reachable c'
    /\ (assoc k (contents c) = None -> c' = c).
Proof.
  intros Hr. destruct (reachable_get k c Hr) as (c' & R & H & C & Hr').
  exists c'. split.
  - rewrite R. unfold m_get. now destruct (assoc k (contents c)).
  - split; [exact (contents_embed _ _ (proj2 H))|]. split; [exact C|].
    split; [exact Hr'|]. intros Hk. rewrite (get_absent k c Hr Hk) in R. congruence.
Qed.

Lemma get_refines_witness :
  exists c', get "a" (snd (run [Put "a" "1"; Put "b" "2"] (snd (new_LRUCache 2)))) = (Ok (assoc "a" (contents (snd (run [Put "a" "1"; Put "b" "2"] (snd (new_LRUCache 2)))))), c')
    /\ contents c' = snd (m_get "a" (contents (snd (run [Put "a" "1"; Put "b" "2"] (snd (new_LRUCache 2))))))
    /\ capacity c' = capacity (snd (run [Put "a" "1"; Put "b" "2"] (snd (new_LRUCache 2))))
    /\ reachable c'
    /\ (assoc "a" (contents (snd (run [Put "a" "1"; Put "b" "2"] (snd (new_LRUCache 2))))) = None -> c' = (snd (run [Put "a" "1"; Put "b" "2"] (snd (new_LRUCache 2))))).
Proof.
  apply (get_refines "a").
  exists 2%Z, [Put "a" "1"; Put "b" "2"], [Done; Done]. vm_compute. reflexivity.
Defined.

(** X3. [delete] on such a cache never raises; it returns [True] and
    removes the pair of the key, keeping the order of the others, or
    returns [False] and leaves the cache as it is. *)
Theorem delete_refines k c :
  reachable c ->
  exists c', delete k c = (Ok (bool_decide (is_Some (assoc k (contents c)))), c')
    /\ contents c' = without k (contents c)
    /\ capacity c' = capacity c
    /\ reachable c'
    /\ (assoc k (contents c) = None -> c' = c).
Proof.
  intros Hr. destruct (reachable_delete k c Hr) as (c' & R & H & C & Hr').
  exists c'. split; [|split; [|split; [exact C|split; [exact Hr'|]]]].
  - rewrite R. unfold m_delete. now destruct (assoc k (contents c)).
  - rewrite (contents_embed _ _ (proj2 H)). unfold m_delete.
    destruct (assoc k (contents c)) eqn:E; [reflexivity|]. simpl.
    symmetry. apply without_all. now apply assoc_elem.
  - intros Hk. rewrite (delete_absent_contents k c Hr Hk) in R. congruence.
Qed.

Lemma delete_refines_witness :
  exists c', delete "a" (snd (run [Put "a" "1"; Put "b" "2"] (snd (new_LRUCache 2)))) = (Ok (bool_decide (is_Some (assoc "a" (contents (snd (run [Put "a" "1"; Put "b" "2"] (snd (new_LRUCache 2)))))))), c')
    /\ contents c' = without "a" (contents (snd (run [Put "a" "1"; Put "b" "2"] (snd (new_LRUCache 2)))))
    /\ capacity c' = capacity (snd (run [Put "a" "1"; Put "b" "2"] (snd (new_LRUCache 2))))
    /\ reachable c'
    /\ (assoc "a" (contents (snd (run [Put "a" "1"; Put "b" "2"] (snd (new_LRUCache 2))))) = None -> c' = (snd (run [Put "a" "1"; Put "b" "2"] (snd (new_LRUCache 2))))).
Proof.
  apply (delete_refines "a").
  exists 2%Z, [Put "a" "1"; Put "b" "2"], [Done; Done]. vm_compute. reflexivity.
Defined.

(** X4. Any sequence of calls on a new cache of any capacity runs to its
    end without raising, returns call by call what the recency list
    returns, and leaves the cache holding that list. *)
Theorem run_refines capacity os :
  exists c,
    run os (snd (new_LRUCache capacity)) = (Ok (fst (m_run capacity os [])), c)
    /\ contents c = snd (m_run capacity os [])
    /\ LRU.capacity c = capacity.
Proof.
  destruct (repr_new capacity _ (new_LRUCache_eq capacity)) as [H0 C0].
  rewrite new_LRUCache_eq. simpl snd.
  destruct (repr_run os _ [] H0) as (c & R & H & C).
  rewrite C0 in *. exists c. split; [exact R|].
  split; [exact (contents_embed _ _ (proj2 H)) | exact C].
Qed.

(** X5. In a cache built by the constructor and used through its methods
    the list between the two sentinels holds only nodes that carry a key
    and a value, no key twice; the index has one entry per node, and the
    value found through the index is the one the list holds for the key. *)
Theorem reachable_contents c :
  reachable c ->
  items c = embed (contents c)
  /\ NoDup (map fst (contents c))
  /\ size c = length (contents c)
  /\ forall k, peek c k = Some <$> assoc k (contents c).
Proof.
  intros Hr. pose proof (reachable_repr c Hr) as [(ns & W & _) E].
  split; [exact E|]. split; [|split].
  - pose proof (NoDup_keys_items c ns W) as H. rewrite E in H.
    rewrite keys_embed in H. exact (proj1 (NoDup_fmap Some _) H).
  - unfold size. rewrite <- (inv_length_items c ns W), E. apply length_embed.
  - intros k. rewrite <- (assoc_items c ns k W), E. apply assoc_embed.
Qed.

Lemma reachable_contents_witness :
  items (snd (run [Put "a" "1"; Put "b" "2"] (snd (new_LRUCache 2)))) = embed (contents (snd (run [Put "a" "1"; Put "b" "2"] (snd (new_LRUCache 2)))))
  /\ NoDup (map fst (contents (snd (run [Put "a" "1"; Put "b" "2"] (snd (new_LRUCache 2))))))
  /\ size (snd (run [Put "a" "1"; Put "b" "2"] (snd (new_LRUCache 2)))) = length (contents (snd (run [Put "a" "1"; Put "b" "2"] (snd (new_LRUCache 2)))))
  /\ forall k, peek (snd (run [Put "a" "1"; Put "b" "2"] (snd (new_LRUCache 2)))) k = Some <$> assoc k (contents (snd (run [Put "a" "1"; Put "b" "2"] (snd (new_LRUCache 2))))).
Proof.
  apply reachable_contents.
  exists 2%Z, [Put "a" "1"; Put "b" "2"], [Done; Done]. vm_compute. reflexivity.
Defined.

(** The model of [put] then [get] of the same key. *)
Lemma put_get_contents k v c :
  reachable c ->
  exists c1 c2,
    put k v c = (Ok tt, c1) /\ reachable c1
    /\ get k c1 = (Ok (Some v), c2) /\ reachable c2
    /\ contents c2 = contents c1.
Proof.
  intros Hr. destruct (reachable_put k v c Hr) as (c1 & R1 & H1 & _ & Hr1).
  destruct (reachable_get k c1 Hr1) as (c2 & R2 & H2 & _ & Hr2).
  pose proof (contents_embed _ _ (proj2 H1)) as E1.
  pose proof (contents_embed _ _ (proj2 H2)) as E2.
  destruct (m_put_front (capacity c) k v (contents c)) as (T & HT & HkT & _).
  rewrite E1, HT, (m_get_front k v T HkT) in R2, E2. simpl in R2, E2.
  exists c1, c2. split; [exact R1|]. split; [exact Hr1|]. split; [exact R2|].
  split; [exact Hr2|]. now rewrite E2, E1, HT.
Qed.

(** X6. A value written is the value read: after [put key value] the next
    [get key] returns [value] and changes nothing of the cached pairs or
    their order, whatever the capacity. *)
Theorem put_then_get k v c :
  reachable c ->
  exists c1 c2,
    put k v c = (Ok tt, c1)
    /\ get k c1 = (Ok (Some v), c2)
    /\ contents c2 = contents c1.
Proof.
  intros Hr. destruct (put_get_contents k v c Hr) as (c1 & c2 & R1 & _ & R2 & _ & E).
  now exists c1, c2.
Qed.

Lemma put_then_get_witness :
  exists c1 c2,
    put "c" "3" (snd (run [Put "a" "1"; Put "b" "2"] (snd (new_LRUCache 2)))) = (Ok tt, c1)
    /\ get "c" c1 = (Ok (Some "3"), c2)
    /\ contents c2 = contents c1.
Proof.
  apply (put_then_get "c" "3").
  exists 2%Z, [Put "a" "1"; Put "b" "2"], [Done; Done]. vm_compute. reflexivity.
Defined.

(** X7. The pair used last is not the one evicted: in a cache of capacity
    two or more, a key just written is still cached, with its value, after
    the [put] of any other key. *)
Theorem recently_used_survives k v k' v' c :
  reachable c -> (2 <= capacity c)%Z -> k' <> k ->
  exists c1 c2 c3,
    put k v c = (Ok tt, c1)
    /\ put k' v' c1 = (Ok tt, c2)
    /\ get k c2 = (Ok (Some v), c3).
Proof.
  intros Hr Hcap Hne.
  destruct (reachable_put k v c Hr) as (c1 & R1 & H1 & C1 & Hr1).
  destruct (reachable_put k' v' c1 Hr1) as (c2 & R2 & H2 & C2 & Hr2).
  destruct (reachable_get k c2 Hr2) as (c3 & R3 & _).
  pose proof (contents_embed _ _ (proj2 H1)) as E1.
  pose proof (contents_embed _ _ (proj2 H2)) as E2.
  exists c1, c2, c3. split; [exact R1|]. split; [exact R2|].
  rewrite R3. f_equal. f_equal.
  destruct (m_put_front (capacity c) k v (contents c)) as (T & HT & HkT & _).
  rewrite E2, E1, C1, HT. unfold m_get.
  now rewrite (m_put_keeps_front (capacity c) k v T k' v' Hne Hcap).
Qed.

Lemma recently_used_survives_witness :
  exists c1 c2 c3,
    put "a" "9" (snd (run [Put "a" "1"; Put "b" "2"] (snd (new_LRUCache 2)))) = (Ok tt, c1)
    /\ put "c" "3" c1 = (Ok tt, c2)
    /\ get "a" c2 = (Ok (Some "9"), c3).
Proof.
  apply (recently_used_survives "a" "9" "c" "3").
  - exists 2%Z, [Put "a" "1"; Put "b" "2"], [Done; Done]. vm_compute. reflexivity.
  - vm_compute. discriminate.
  - discriminate.
Defined.

Lemma length_without_lt {K V} `{EqDecision K} (k : K) (l : list (K * V)) v :
  assoc k l = Some v -> length (without k l) < length l.
Proof.
  induction l as [|[k' v'] l IH]; [discriminate|]. simpl assoc.
  rewrite without_cons. simpl fst. destruct (decide (k' = k)) as [->|Hne].
  - intros _. unfold without. simpl.
    pose proof (List.filter_length_le
                  (fun p : K * V => negb (bool_decide (fst p = k))) l). lia.
  - intros H. specialize (IH H). simpl. lia.
Qed.

Lemma length_without_le {K V} `{EqDecision K} (k : K) (l : list (K * V)) :
  length (without k l) <= length l.
Proof. unfold without. apply List.filter_length_le. Qed.

Lemma length_removelast_pred {A} (l : list A) :
  length (removelast l) = pred (length l).
Proof.
  destruct l as [|x l _] using rev_ind; [reflexivity|].
  rewrite removelast_last, length_app. simpl. lia.
Qed.

Lemma m_step_bound cap o L :
  (Z.of_nat (length L) <= Z.max 1 cap)%Z ->
  (Z.of_nat (length (snd (m_step cap o L))) <= Z.max 1 cap)%Z.
Proof.
  intros HL. destruct o as [k v|k|k]; simpl.
  - unfold m_put. destruct (assoc k L) eqn:E; simpl length.
    + pose proof (length_without_lt k L _ E). lia.
    + destruct (Z.of_nat (length L) >=? cap)%Z eqn:Ef.
      * rewrite length_removelast_pred. lia.
      * rewrite Z.geb_leb in Ef. apply Z.leb_gt in Ef. lia.
  - unfold m_get. destruct (assoc k L) eqn:E; simpl; [|exact HL].
    pose proof (length_without_lt k L _ E). lia.
  - unfold m_delete. destruct (assoc k L) eqn:E; simpl; [|exact HL].
    pose proof (length_without_le k L). lia.
Qed.

Lemma m_run_bound cap os : forall L,
  (Z.of_nat (length L) <= Z.max 1 cap)%Z ->
  (Z.of_nat (length (snd (m_run cap os L))) <= Z.max 1 cap)%Z.
Proof.
  induction os as [|o os IH]; intros L HL; simpl; [exact HL|].
  pose proof (m_step_bound cap o L HL) as H1.
  destruct (m_step cap o L) as [r L1]. simpl in H1.
  specialize (IH L1 H1). now destruct (m_run cap os L1).
Qed.

Lemma m_put_small cap k v L : (cap <= 1)%Z -> m_put cap k v L = m_put 1 k v L.
Proof.
  intros Hcap. unfold m_put. destruct (assoc k L); [reflexivity|].
  destruct L as [|p L]; simpl length.
  - now destruct (Z.of_nat 0 >=? cap)%Z.
  - assert (E : forall c, (c <= 1)%Z -> (Z.of_nat (S (length L)) >=? c)%Z = true).
    { intros c Hc. rewrite Z.geb_leb. apply Z.leb_le. lia. }
    now rewrite (E cap Hcap), (E 1%Z) by lia.
Qed.

Lemma m_run_small cap os : forall L,
  (cap <= 1)%Z -> m_run cap os L = m_run 1 os L.
Proof.
  induction os as [|o os IH]; intros L Hcap; [reflexivity|]. simpl.
  assert (E : m_step cap o L = m_step 1 o L).
  { destruct o; simpl; [|reflexivity..]. now rewrite m_put_small. }
  rewrite E. destruct (m_step 1 o L) as [r L1]. now rewrite IH.
Qed.

(** X20. Whatever the capacity and the calls, a cache never holds more
    than [max(1, capacity)] pairs, and a cache of capacity zero or less
    answers every call, and holds the same pairs, as a cache of capacity
    one. *)
Theorem size_bound capacity os :
  exists rs c,
    run os (snd (new_LRUCache capacity)) = (Ok rs, c)
    /\ (Z.of_nat (size c) <= Z.max 1 capacity)%Z
    /\ size c = length (contents c)
    /\ ((capacity <= 1)%Z ->
        exists c1, run os (snd (new_LRUCache 1)) = (Ok rs, c1)
                   /\ contents c1 = contents c).
Proof.
  destruct (repr_new capacity _ (new_LRUCache_eq capacity)) as [H0 C0].
  destruct (repr_new 1 _ (new_LRUCache_eq 1)) as [H1 C1].
  rewrite !new_LRUCache_eq. simpl snd.
  destruct (repr_run os _ [] H0) as (c & R & [(ns & W & _) E] & C).
  destruct (repr_run os _ [] H1) as (c1 & R1 & [_ E1] & _).
  rewrite C0 in *. rewrite C1 in *.
  exists (fst (m_run capacity os [])), c. split; [exact R|].
  assert (Hs : size c = length (snd (m_run capacity os []))).
  { unfold size. rewrite <- (inv_length_items c ns W), E. apply length_embed. }
  split; [|split].
  - rewrite Hs. apply m_run_bound. simpl. lia.
  - rewrite Hs. now rewrite (contents_embed _ _ E).
  - intros Hcap. exists c1. rewrite (m_run_small capacity os [] Hcap).
    split; [exact R1|].
    rewrite (contents_embed _ _ E1), (contents_embed _ _ E).
    now rewrite (m_run_small capacity os [] Hcap).
Qed.

End LRUModelFacts.

(** ** The doubly linked list of app/lru.py *)

Module ListFacts.

Import LRU LRUFacts LRUModel.
Local Open Scope py_scope.

Lemma is_list_nodes d h ns : is_list d h ns -> list_nodes d h = ns.
Proof.
  intros [Hnd Hl]. unfold list_nodes. apply walk_linked.
  - assert (Hb : forall a, a ∈ head d :: ns ++ [tail d] -> a < length h).
    { apply (linked_alloc h _ Hl). simpl. rewrite length_app. simpl. lia. }
    pose proof (NoDup_bounded_length _ (length h) Hnd Hb) as H.
    simpl in H. rewrite length_app in H. simpl in H. lia.
  - apply NoDup_cons in Hnd as (_ & Hnd). apply NoDup_app in Hnd as (_ & H & _).
    intros Hin. apply (H _ Hin). left.
  - exact Hl.
Qed.

Lemma NoDup_chain_removelast (x y : nat) ns l :
  NoDup (x :: (ns ++ [l]) ++ [y]) -> NoDup (x :: ns ++ [y]).
Proof.
  intros H. rewrite <- app_assoc in H. simpl in H.
  change (x :: ns ++ l :: [y]) with ((x :: ns) ++ l :: [y]) in H.
  apply NoDup_app in H as (H1 & H2 & H3).
  change (x :: ns ++ [y]) with ((x :: ns) ++ [y]).
  apply NoDup_app. split; [exact H1|]. split.
  - intros a Ha Hy. apply (H2 a Ha). now right.
  - apply NoDup_singleton.
Qed.

Lemma NoDup_chain_remove (x y : nat) l1 n l2 :
  NoDup (x :: (l1 ++ n :: l2) ++ [y]) -> NoDup (x :: (l1 ++ l2) ++ [y]).
Proof.
  intros H. rewrite <- !app_assoc in *. simpl in H.
  change (x :: l1 ++ n :: l2 ++ [y]) with ((x :: l1) ++ n :: l2 ++ [y]) in H.
  change (x :: l1 ++ l2 ++ [y]) with ((x :: l1) ++ l2 ++ [y]).
  apply NoDup_app in H as (H1 & H2 & H3).
  apply NoDup_cons in H3 as (_ & H3).
  apply NoDup_app. split; [exact H1|]. split; [|exact H3].
  intros a Ha Hin. apply (H2 a Ha). now right.
Qed.

(** X18. The list of lru.py is a deque over its nodes.  When a list links
    its sentinels and the nodes [ns] without a repetition, following [next]
    from the head reads [ns] back; [remove_from_end] returns the last node
    and unlinks it, or returns [None] from the empty list and writes
    nothing; [remove_node] unlinks a node and keeps the order of the others;
    [add_to_front] links an object from outside the list before the first
    node.  None of them raises or touches a key or a value. *)
Theorem list_is_deque d h ns :
  is_list d h ns ->
  list_nodes d h = ns
  /\ (exists h', remove_from_end d h = (Ok (last ns), h')
        /\ is_list d h' (removelast ns) /\ same_data h h'
        /\ (ns = [] -> h' = h))
  /\ (forall l1 n l2, ns = l1 ++ n :: l2 ->
        exists h', remove_node d n h = (Ok tt, h')
          /\ is_list d h' (l1 ++ l2) /\ same_data h h')
  /\ (forall n, n < length h -> n ∉ head d :: ns ++ [tail d] ->
        exists h', add_to_front d n h = (Ok tt, h')
          /\ is_list d h' (n :: ns) /\ same_data h h').
Proof.
  intros L. split; [exact (is_list_nodes d h ns L)|]. destruct L as [Hnd Hl].
  split; [|split].
  - destruct ns as [|x ns] using rev_ind.
    + exists h. split; [exact (remove_from_end_empty d h Hl)|].
      split; [now split|]. split; [|reflexivity]. split; [reflexivity|]. now intros a.
    + clear IHns.
      destruct (remove_from_end_last d h ns x Hnd Hl) as (h' & R & Hl' & Hsd).
      exists h'. rewrite last_snoc, removelast_last. split; [exact R|].
      split; [split; [exact (NoDup_chain_removelast _ _ _ _ Hnd) | exact Hl']|].
      split; [exact Hsd|]. intros E. now destruct ns.
  - intros l1 n l2 ->.
    destruct (remove_node_mid d h (head d :: l1) n (l2 ++ [tail d])) as (h' & R & Hl' & Hsd).
    + discriminate.
    + now destruct l2.
    + now rewrite <- app_assoc in Hnd.
    + now rewrite <- app_assoc in Hl.
    + exists h'. split; [exact R|]. split; [|exact Hsd]. split.
      * exact (NoDup_chain_remove _ _ _ _ _ Hnd).
      * rewrite <- app_assoc. exact Hl'.
  - intros n Hn Hout.
    assert (exists f rest, ns ++ [tail d] = f :: rest) as (f & rest & E).
    { destruct ns as [|x ns]; simpl; eauto. }
    rewrite E in Hnd, Hl, Hout.
    destruct (add_to_front_chain d h n f rest Hn Hout Hnd Hl) as (h' & R & Hl' & Hsd).
    exists h'. split; [exact R|]. split; [|exact Hsd]. split.
    + simpl. rewrite E. apply NoDup_cons in Hnd as (Hh & Hnd).
      apply NoDup_cons. split.
      * intros Hin. apply elem_of_cons in Hin as [Heq|Hin]; [|exact (Hh Hin)].
        apply Hout. rewrite <- Heq. left.
      * apply NoDup_cons. split; [|exact Hnd]. intros Hin. apply Hout. now right.
    + simpl. rewrite E. exact Hl'.
Qed.

Lemma list_is_deque_witness :
  let h := heap (snd (run [Put "a" "1"; Put "b" "2"] (snd (new_LRUCache 2)))) in
  let d := mkDLL 0 1 in
  list_nodes d h = [3; 2]
  /\ (exists h', remove_from_end d h = (Ok (last [3; 2]), h')
        /\ is_list d h' (removelast [3; 2]) /\ same_data h h'
        /\ ([3; 2] = [] -> h' = h))
  /\ (forall l1 n l2, [3; 2] = l1 ++ n :: l2 ->
        exists h', remove_node d n h = (Ok tt, h')
          /\ is_list d h' (l1 ++ l2) /\ same_data h h')
  /\ (forall n, n < length h -> n ∉ head d :: [3; 2] ++ [tail d] ->
        exists h', add_to_front d n h = (Ok tt, h')
          /\ is_list d h' (n :: [3; 2]) /\ same_data h h').
Proof.
  intros h d. apply (list_is_deque d h [3; 2]). split.
  - apply (bool_decide_unpack _). vm_compute. exact I.
  - vm_compute. repeat split.
Defined.

(** X19. [DoublyLinkedList()] allocates its two sentinels after the
    objects of the heap, which it leaves as they are, and links them into
    the empty list: the walk from the head finds no node and
    [remove_from_end] returns [None] without writing. *)
Theorem new_list_empty (h0 : Heap) :
  exists d h,
    new_DoublyLinkedList h0 = (Ok d, h)
    /\ head d = length h0 /\ tail d = S (length h0)
    /\ take (length h0) h = h0 /\ length h = S (S (length h0))
    /\ is_list d h []
    /\ list_nodes d h = []
    /\ remove_from_end d h = (Ok None, h).
Proof.
  set (n := length h0).
  set (h := h0 ++ [mkNode None None None (Some (S n)); mkNode None None (Some n) None]).
  assert (E1 : forall x y, (h0 ++ [x; y]) !! n = Some x).
  { intros. rewrite lookup_app_r by (unfold n; lia). unfold n.
    now rewrite Nat.sub_diag. }
  assert (E2 : forall x y, (h0 ++ [x; y]) !! S n = Some y).
  { intros. rewrite lookup_app_r by (unfold n; lia). unfold n.
    now replace (S (length h0) - length h0) with 1 by lia. }
  assert (I1 : forall x y z, <[n := z]> (h0 ++ [x; y]) = h0 ++ [z; y]).
  { intros. rewrite insert_app_r_alt by (unfold n; lia). unfold n.
    now rewrite Nat.sub_diag. }
  assert (I2 : forall x y z, <[S n := z]> (h0 ++ [x; y]) = h0 ++ [x; z]).
  { intros. rewrite insert_app_r_alt by (unfold n; lia). unfold n.
    now replace (S (length h0) - length h0) with 1 by lia. }
  assert (R : new_DoublyLinkedList h0 = (Ok (mkDLL n (S n)), h)).
  { unfold new_DoublyLinkedList.
    assert (N1 : new_Node None None h0
                 = (Ok n, h0 ++ [mkNode None None None None])) by reflexivity.
    rewrite (bind_Ok _ _ _ _ _ N1).
    assert (N2 : new_Node None None (h0 ++ [mkNode None None None None])
                 = (Ok (S n), h0 ++ [mkNode None None None None;
                                     mkNode None None None None])).
    { unfold new_Node. rewrite length_app, <- app_assoc. simpl.
      f_equal. f_equal. unfold n. lia. }
    rewrite (bind_Ok _ _ _ _ _ N2).
    rewrite (bind_Ok _ _ _ _ _ (setattr_Ok _ _ _ (E1 _ _) _)), I1.
    rewrite (bind_Ok _ _ _ _ _ (setattr_Ok _ _ _ (E2 _ _) _)), I2.
    reflexivity. }
  assert (L : is_list (mkDLL n (S n)) h []).
  { split; simpl.
    - apply NoDup_cons. split; [|apply NoDup_singleton].
      intros H. apply list_elem_of_singleton in H. lia.
    - unfold next_of, prev_of, h. rewrite E1, E2. simpl. auto. }
  exists (mkDLL n (S n)), h. split; [exact R|]. split; [reflexivity|].
  split; [reflexivity|]. split; [unfold h, n; apply take_app_length|].
  split; [unfold h, n; rewrite length_app; simpl; lia|].
  split; [exact L|]. split; [exact (is_list_nodes _ _ _ L)|].
  exact (remove_from_end_empty _ _ (proj2 L)).
Qed.

End ListFacts.

(** ** The store of app/store.py over the recency list *)

Module StoreModelFacts.

Import PyStr PyStrFacts Store LRUFacts StoreFacts LRUModelFacts.
Local Open Scope py_scope.

Local Abbreviation contents := LRUModel.contents.
Local Abbreviation assoc := LRUModel.assoc.

(** Recovery only ever calls [put] and [delete]. *)
Lemma recover_line_reachable l c r c' :
  LRUModel.reachable c -> recover_line l c = (r, c') -> LRUModel.reachable c'.
Proof.
  intros Hr. unfold recover_line.
  destruct (split PIPE (strip l)) as [|action [|k [|v [|x xs]]]];
    try (intros [= _ <-]; exact Hr).
  destruct (String.eqb action "SET").
  - destruct (reachable_put k v c Hr) as (c1 & R & _ & _ & Hr1).
    rewrite R. now intros [= _ <-].
  - destruct (String.eqb action "DEL"); [|intros [= _ <-]; exact Hr].
    destruct (reachable_delete k c Hr) as (c1 & R & _ & _ & Hr1).
    rewrite (bind_Ok _ _ _ _ _ R). now intros [= _ <-].
Qed.

Lemma recover_lines_reachable ls : forall c r c',
  LRUModel.reachable c -> recover_lines ls c = (r, c') -> LRUModel.reachable c'.
Proof.
  induction ls as [|l ls IH]; intros c r c' Hr; simpl.
  - now intros [= _ <-].
  - unfold bind. destruct (recover_line l c) as [[[]|e] c1] eqn:E.
    + apply IH. exact (recover_line_reachable l c _ c1 Hr E).
    + intros [= _ <-]. exact (recover_line_reachable l c _ c1 Hr E).
Qed.

Lemma cache_reachable s : reachable s -> LRUModel.reachable (cache s).
Proof.
  induction 1 as [cap fs s Hnew | k v s r s' _ IH Hrun | k s r s' _ IH Hrun
                 | k s r s' _ IH Hrun].
  - unfold new_KeyValueStore in Hnew. rewrite new_LRUCache_eq in Hnew.
    pose proof (reachable_new cap) as R0. rewrite new_LRUCache_eq in R0. simpl in R0.
    unfold _recover in Hnew. simpl in Hnew. destruct (content fs) as [t|].
    + unfold on_cache in Hnew. simpl in Hnew.
      destruct (recover_lines (readlines t) _) as [r c'] eqn:E.
      injection Hnew as _ <-. exact (recover_lines_reachable _ _ _ _ R0 E).
    + injection Hnew as <-. exact R0.
  - unfold set in Hrun. destruct (reachable_put k v _ IH) as (c' & R & _ & _ & Hr').
    rewrite (bind_Ok _ _ _ _ _ (on_cache_run _ s _ _ R)) in Hrun.
    unfold _log, append_file in Hrun. simpl in Hrun.
    destruct (append_fails (log_file s)); injection Hrun as _ <-; exact Hr'.
  - unfold get in Hrun. destruct (reachable_get k _ IH) as (c' & R & _ & _ & Hr').
    rewrite (on_cache_run _ s _ _ R) in Hrun. injection Hrun as _ <-. exact Hr'.
  - unfold delete in Hrun. destruct (reachable_delete k _ IH) as (c' & R & _ & _ & Hr').
    rewrite (bind_Ok _ _ _ _ _ (on_cache_run _ s _ _ R)) in Hrun.
    unfold bind, ret, _log, append_file in Hrun. simpl in Hrun.
    destruct (fst (LRUModel.m_delete k (contents (cache s)))); simpl in Hrun;
      [destruct (append_fails (log_file s))|]; injection Hrun as _ <-; exact Hr'.
Qed.

Lemma store_get_run k s :
  reachable s ->
  exists c', LRU.get k (cache s) = (Ok (assoc k (contents (cache s))), c')
    /\ get k s = (Ok (assoc k (contents (cache s))), mkStore c' (log_file s))
    /\ contents c' = snd (LRUModel.m_get k (contents (cache s)))
    /\ LRUModel.reachable c'.
Proof.
  intros Hr. pose proof (cache_reachable s Hr) as Hc.
  destruct (reachable_get k _ Hc) as (c' & R & H & _ & Hr').
  assert (R' : LRU.get k (cache s) = (Ok (assoc k (contents (cache s))), c')).
  { rewrite R. unfold LRUModel.m_get. now destruct (assoc k (contents (cache s))). }
  exists c'. split; [exact R'|]. split; [exact (on_cache_run _ s _ _ R')|].
  split; [exact (contents_embed _ _ (proj2 H)) | exact Hr'].
Qed.

Lemma store_set_run k v s :
  reachable s ->
  exists c', LRU.put k v (cache s) = (Ok tt, c')
    /\ set k v s = _log "SET" k (Some v) (mkStore c' (log_file s))
    /\ contents c' = LRUModel.m_put (LRU.capacity (cache s)) k v (contents (cache s))
    /\ LRUModel.reachable c'.
Proof.
  intros Hr. pose proof (cache_reachable s Hr) as Hc.
  destruct (reachable_put k v _ Hc) as (c' & R & H & _ & Hr').
  exists c'. split; [exact R|]. split.
  - unfold set. now rewrite (bind_Ok _ _ _ _ _ (on_cache_run _ s _ _ R)).
  - split; [exact (contents_embed _ _ (proj2 H)) | exact Hr'].
Qed.

Lemma store_delete_run k s :
  reachable s ->
  exists c',
    LRU.delete k (cache s) = (Ok (bool_decide (is_Some (assoc k (contents (cache s))))), c')
    /\ contents c' = LRUModel.without k (contents (cache s))
    /\ LRUModel.reachable c'
    /\ (assoc k (contents (cache s)) = None -> delete k s = (Ok false, s))
    /\ (is_Some (assoc k (contents (cache s))) ->
        delete k s
        = match _log "DEL" k None (mkStore c' (log_file s)) with
          | (Ok _, s') => (Ok true, s')
          | (Raise e, s') => (Raise e, s')
          end).
Proof.
  intros Hr. pose proof (cache_reachable s Hr) as Hc.
  destruct (reachable_delete k _ Hc) as (c' & R & H & _ & Hr').
  pose proof (contents_embed _ _ (proj2 H)) as E.
  unfold LRUModel.m_delete in R, E.
  exists c'. destruct (assoc k (contents (cache s))) as [v|] eqn:Ek; simpl in R, E.
  - split; [exact R|]. split; [exact E|]. split; [exact Hr'|].
    split; [discriminate|]. intros _.
    unfold delete. rewrite (bind_Ok _ _ _ _ _ (on_cache_run _ s _ _ R)).
    unfold bind, ret. now destruct (_log "DEL" k None _) as [[[]|e] s1].
  - pose proof (delete_absent_contents k _ Hc Ek) as R0.
    assert (c' = cache s) by congruence. subst c'.
    split; [exact R|]. split.
    + symmetry. apply without_all. now apply assoc_elem.
    + split; [exact Hr'|]. split; [|intros [? [=]]]. intros _.
      unfold delete. rewrite (bind_Ok _ _ _ _ _ (on_cache_run _ s _ _ R)).
      unfold bind, ret. simpl. now destruct s.
Qed.

(** X8. The cache of a store is always one that the calls of [LRUCache]
    alone produce: recovery from any log and the methods of the store,
    whether they return or raise, reach the cache only through [put], [get]
    and [delete].  So the cache of a store holds a recency list without a
    repeated key, within the capacity when that is positive. *)
Theorem store_cache_reachable s :
  reachable s ->
  LRUModel.reachable (cache s)
  /\ items s = LRUModel.embed (contents (cache s))
  /\ NoDup (map fst (contents (cache s)))
  /\ ((0 < LRU.capacity (cache s))%Z ->
      (Z.of_nat (length (contents (cache s))) <= LRU.capacity (cache s))%Z).
Proof.
  intros Hr. pose proof (cache_reachable s Hr) as Hc.
  pose proof (reachable_repr _ Hc) as [(ns & W & Hcap) E].
  split; [exact Hc|]. split; [exact E|]. split.
  - pose proof (NoDup_keys_items _ ns W) as H. rewrite E in H.
    rewrite keys_embed in H. exact (proj1 (NoDup_fmap Some _) H).
  - intros Hpos. specialize (Hcap Hpos).
    rewrite <- (length_embed (contents (cache s))), <- E.
    rewrite (inv_length_items _ ns W), (LRU.wf_size _ _ W). exact Hcap.
Qed.

Lemma store_cache_reachable_witness :
  let s0 := snd (new_KeyValueStore 2
                   (mkFS (Some (unlines ["SET|a|1"; "SET|b|2"; "DEL|a|None"])) true)) in
  let s := snd (set "d" "4" s0) in
  LRUModel.reachable (cache s)
  /\ items s = LRUModel.embed (contents (cache s))
  /\ NoDup (map fst (contents (cache s)))
  /\ ((0 < LRU.capacity (cache s))%Z ->
      (Z.of_nat (length (contents (cache s))) <= LRU.capacity (cache s))%Z).
Proof.
  intros s0 s. apply store_cache_reachable.
  apply (reach_set "d" "4" s0 (Raise OSError) s).
  - apply (reach_new 2 (mkFS (Some (unlines ["SET|a|1"; "SET|b|2"; "DEL|a|None"])) true)).
    reflexivity.
  - reflexivity.
Defined.

(** X9. [get] of the store never raises, whatever the state of the disk,
    returns the cached value of the key, and leaves the log as it is: a
    read is not recorded. *)
Theorem get_reads_only k s :
  reachable s ->
  exists s', get k s = (Ok (assoc k (contents (cache s))), s')
    /\ log_file s' = log_file s
    /\ contents (cache s') = snd (LRUModel.m_get k (contents (cache s)))
    /\ reachable s'.
Proof.
  intros Hr. destruct (store_get_run k s Hr) as (c' & _ & R & E & _).
  exists (mkStore c' (log_file s)). split; [exact R|]. split; [reflexivity|].
  split; [exact E|]. exact (reach_get k s _ _ Hr R).
Qed.

Lemma get_reads_only_witness :
  let s := snd (set "a" "1" (snd (new_KeyValueStore 2 no_file))) in
  exists s', get "a" s = (Ok (assoc "a" (contents (cache s))), s')
    /\ log_file s' = log_file s
    /\ contents (cache s') = snd (LRUModel.m_get "a" (contents (cache s)))
    /\ reachable s'.
Proof.
  intros s. apply get_reads_only.
  apply (reach_set "a" "1" (snd (new_KeyValueStore 2 no_file)) (Ok tt) s).
  - apply (reach_new 2 no_file). reflexivity.
  - reflexivity.
Defined.

(** X10. [set] of the store on a disk that takes the write returns, puts
    the pair at the front of the cache, and appends exactly the line
    [SET|key|value] to the log, whatever the key and the value hold. *)
Theorem set_appends k v s :
  reachable s -> append_fails (log_file s) = false ->
  exists s', set k v s = (Ok tt, s')
    /\ content (log_file s')
       = Some (log_text (log_file s) +:+ "SET|" +:+ k +:+ "|" +:+ v +:+ newline)
    /\ append_fails (log_file s') = false
    /\ contents (cache s')
       = LRUModel.m_put (LRU.capacity (cache s)) k v (contents (cache s)).
Proof.
  intros Hr Hf. destruct (store_set_run k v s Hr) as (c' & _ & R & E & _).
  rewrite R. unfold _log. rewrite append_file_Ok by exact Hf.
  eexists. split; [reflexivity|]. simpl. split; [|split; [reflexivity | exact E]].
  reflexivity.
Qed.

Lemma set_appends_witness :
  let s := snd (set "a" "1" (snd (new_KeyValueStore 2 no_file))) in
  exists s', set "b|" " 2 " s = (Ok tt, s')
    /\ content (log_file s')
       = Some (log_text (log_file s) +:+ "SET|" +:+ "b|" +:+ "|" +:+ " 2 " +:+ newline)
    /\ append_fails (log_file s') = false
    /\ contents (cache s')
       = LRUModel.m_put (LRU.capacity (cache s)) "b|" " 2 " (contents (cache s)).
Proof.
  intros s. apply set_appends; [|reflexivity].
  apply (reach_set "a" "1" (snd (new_KeyValueStore 2 no_file)) (Ok tt) s).
  - apply (reach_new 2 no_file). reflexivity.
  - reflexivity.
Defined.

(** *** What [strip] does to a logged value *)

Lemma rstrip_app_empty a b : rstrip b = "" -> rstrip (a +:+ b) = rstrip a.
Proof.
  intros Hb. induction a as [|x a IH]; sapp; [exact Hb|]. now rewrite IH.
Qed.

Lemma rstrip_app_bar a v : rstrip ((a +:+ "|") +:+ v) = (a +:+ "|") +:+ rstrip v.
Proof.
  destruct (rstrip v) eqn:E.
  - rewrite rstrip_app_empty by exact E. rewrite app_empty_r.
    rewrite rstrip_app by discriminate. reflexivity.
  - rewrite rstrip_app by (rewrite E; discriminate). now rewrite E.
Qed.

Lemma contains_rstrip c v : contains c v = false -> contains c (rstrip v) = false.
Proof.
  induction v as [|x v IH]; simpl; [reflexivity|].
  intros H. apply orb_false_iff in H as [Hx Hv]. specialize (IH Hv).
  destruct (rstrip v) eqn:E.
  - destruct (isspace x); simpl; [reflexivity|]. now rewrite Hx.
  - simpl in *. now rewrite Hx.
Qed.

Lemma strip_line_value c a k v :
  isspace c = false ->
  strip (String c a +:+ "|" +:+ k +:+ "|" +:+ v +:+ newline)
  = String c a +:+ "|" +:+ k +:+ "|" +:+ rstrip v.
Proof.
  intros Hc. unfold strip. rewrite app_String. simpl lstrip. rewrite Hc.
  rewrite <- app_String.
  replace (String c a +:+ "|" +:+ k +:+ "|" +:+ v +:+ newline)
    with ((((String c a +:+ "|" +:+ k) +:+ "|") +:+ v) +:+ newline)
    by now rewrite !app_assoc_s.
  unfold newline. rewrite rstrip_app_space by reflexivity.
  rewrite rstrip_app_bar. now rewrite !app_assoc_s.
Qed.

(** The line [set] writes, as recovery reads it. *)
Lemma recover_line_SET_value k v :
  contains PIPE k = false -> contains PIPE v = false ->
  recover_line (format_line "SET" k (Some v)) = LRU.put k (rstrip v).
Proof.
  intros Hk Hv. unfold recover_line, format_line. simpl format_value.
  rewrite (strip_line_value "S" "ET" k v) by reflexivity.
  rewrite (split_line "SET" k (rstrip v))
    by (reflexivity || assumption || now apply contains_rstrip).
  reflexivity.
Qed.

(** X11. White space at the end of a value does not survive a restart: a
    value without ['|'] and line breaks, written under such a key into a new
    store, is cached as it is, logged as it is, and recovered from the log
    without its trailing white space. *)
Theorem restart_strips_value (capacity : Z) (k v : string) :
  safe_key k = true -> safe_key v = true ->
  exists s0 s s',
    new_KeyValueStore capacity no_file = (Ok tt, s0)
    /\ set k v s0 = (Ok tt, s)
    /\ contents (cache s) = [(k, v)]
    /\ content (log_file s) = Some ("SET|" +:+ k +:+ "|" +:+ v +:+ newline)
    /\ new_KeyValueStore capacity (log_file s) = (Ok tt, s')
    /\ contents (cache s') = [(k, rstrip v)].
Proof.
  intros Hk Hv.
  destruct (new_KeyValueStore_no_file capacity) as (c0 & Hc0 & Hnew & _).
  assert (Hr0 : reachable (mkStore c0 no_file)) by exact (reach_new _ _ _ Hnew).
  assert (Hm0 : LRUModel.reachable c0).
  { pose proof (reachable_new capacity) as H. now rewrite Hc0 in H. }
  assert (E0 : contents c0 = []).
  { destruct (repr_new capacity c0 Hc0) as [[_ H] _]. exact (contents_embed _ _ H). }
  assert (Hput : forall w, exists c, LRU.put k w c0 = (Ok tt, c) /\ contents c = [(k, w)]).
  { intros w. destruct (reachable_put k w c0 Hm0) as (c & R & H & _).
    exists c. split; [exact R|]. rewrite (contents_embed _ _ (proj2 H)), E0.
    unfold LRUModel.m_put. cbn [LRUModel.assoc length].
    now destruct (Z.of_nat 0 >=? LRU.capacity c0)%Z. }
  destruct (Hput v) as (c1 & R1 & E1). destruct (Hput (rstrip v)) as (c2 & R2 & E2).
  set (text := "SET|" +:+ k +:+ "|" +:+ v +:+ newline).
  exists (mkStore c0 no_file), (mkStore c1 (mkFS (Some text) false)).
  exists (mkStore c2 (mkFS (Some text) false)).
  split; [exact Hnew|]. split.
  { unfold set. rewrite (bind_Ok _ _ _ _ _ (on_cache_run _ (mkStore c0 no_file) _ _ R1)).
    unfold _log. now rewrite append_file_Ok by reflexivity. }
  split; [exact E1|]. split; [reflexivity|]. split; [|exact E2].
  unfold new_KeyValueStore. rewrite Hc0. unfold _recover. simpl.
  apply safe_key_spec in Hk as (Hk1 & Hk2 & Hk3).
  apply safe_key_spec in Hv as (Hv1 & Hv2 & Hv3).
  change text with (format_line "SET" k (Some v)). rewrite format_line_line_of.
  rewrite readlines_single.
  - unfold on_cache. simpl. rewrite <- format_line_line_of.
    rewrite recover_line_SET_value by assumption.
    rewrite (bind_Ok _ _ _ _ _ R2). reflexivity.
  - unfold line_of. simpl format_value. rewrite !contains_app, Hk3, Hv3. reflexivity.
  - unfold line_of. simpl format_value. rewrite !contains_app, Hk2, Hv2. reflexivity.
Qed.

Lemma restart_strips_value_witness :
  exists s0 s s',
    new_KeyValueStore 2 no_file = (Ok tt, s0)
    /\ set "a" "1  " s0 = (Ok tt, s)
    /\ contents (cache s) = [("a", "1  ")]
    /\ content (log_file s) = Some ("SET|" +:+ "a" +:+ "|" +:+ "1  " +:+ newline)
    /\ new_KeyValueStore 2 (log_file s) = (Ok tt, s')
    /\ contents (cache s') = [("a", rstrip "1  ")].
Proof. apply (restart_strips_value 2 "a" "1  "); reflexivity. Defined.

Lemma unlines_empty ls : unlines ls = "" -> ls = [].
Proof.
  destruct ls as [|l ls]; [reflexivity|]. simpl.
  destruct l; sapp; discriminate.
Qed.

(** A store recovered from a log of clean lines is in step with that log. *)
Lemma synced_new capacity fs ls s0 :
  Forall (fun l => contains CR l = false /\ contains LF l = false) ls ->
  log_text fs = unlines ls -> append_fails fs = false ->
  new_KeyValueStore capacity fs = (Ok tt, s0) ->
  log_file s0 = fs /\ synced (snd (LRU.new_LRUCache capacity)) s0.
Proof.
  intros Hls Htext Hf Hnew.
  pose proof (reachable_inv s0 (reach_new _ _ _ Hnew)) as I.
  unfold new_KeyValueStore in Hnew. rewrite new_LRUCache_eq in Hnew |- *.
  simpl snd. unfold _recover in Hnew. simpl in Hnew. unfold log_text in Htext.
  destruct (content fs) as [t|] eqn:Ec.
  - unfold on_cache in Hnew. simpl in Hnew. subst t.
    rewrite (readlines_unlines ls Hls) in Hnew.
    destruct (recover_lines _ _) as [r c'] eqn:E. injection Hnew as -> <-.
    split; [reflexivity|]. exists ls. simpl. unfold log_text. rewrite Ec.
    repeat split; auto.
  - injection Hnew as <-. symmetry in Htext. apply unlines_empty in Htext. subst ls.
    split; [reflexivity|]. exists []. simpl. unfold log_text. rewrite Ec.
    repeat split; auto.
Qed.

(** X12. The round trip also holds after a restart: a store recovered from
    a log of complete lines without carriage return, then used through
    [set] and [delete] on strings the line format carries, is recovered
    from its log as the very same store, cache and recency order included. *)
Theorem roundtrip_from_log (capacity : Z) (fs : FS) (ls : list string)
    (os : list op) (s0 : KeyValueStore) :
  Forall (fun l => contains CR l = false /\ contains LF l = false) ls ->
  log_text fs = unlines ls -> append_fails fs = false ->
  new_KeyValueStore capacity fs = (Ok tt, s0) ->
  Forall (fun o => loggable o = true) os ->
  exists s, run_ops os s0 = (Ok tt, s)
            /\ new_KeyValueStore capacity (log_file s) = (Ok tt, s).
Proof.
  intros Hls Htext Hf Hnew Hos.
  destruct (synced_new capacity fs ls s0 Hls Htext Hf Hnew) as [_ Hs0].
  destruct (run_ops_synced _ os s0 Hos Hs0) as (s & R & Hs).
  exists s. split; [exact R|]. unfold new_KeyValueStore.
  rewrite new_LRUCache_eq in Hs |- *. simpl snd in Hs. now apply synced_recover.
Qed.

Lemma roundtrip_from_log_witness :
  exists s,
    run_ops [SetOp "b" "2"; DeleteOp "a"; SetOp "c" "x y"]
            (snd (new_KeyValueStore 2 (mkFS (Some (unlines ["SET|a|1"; "SET|z|9"])) false)))
    = (Ok tt, s)
    /\ new_KeyValueStore 2 (log_file s) = (Ok tt, s).
Proof.
  apply (roundtrip_from_log 2 (mkFS (Some (unlines ["SET|a|1"; "SET|z|9"])) false)
           ["SET|a|1"; "SET|z|9"]).
  - repeat constructor.
  - reflexivity.
  - reflexivity.
  - reflexivity.
  - repeat constructor.
Defined.

End StoreModelFacts.

(** ** The handlers of app/main.py *)

Module MainFacts.

Import PyStr Store StoreFacts LRUModelFacts StoreModelFacts Main.

Local Abbreviation contents := LRUModel.contents.
Local Abbreviation assoc := LRUModel.assoc.

(** X13. [GET /get/{key}] answers 404 exactly when the key is not cached
    and the pair otherwise; it never fails otherwise, and never writes the
    log. *)
Theorem get_key_reply k s :
  reachable s ->
  exists s',
    get_key k s
    = (match assoc k (contents (cache s)) with
       | Some v => Return [("key", k); ("value", v)]
       | None => HTTPException 404 "Key not found"
       end, s')
    /\ log_file s' = log_file s
    /\ reachable s'.
Proof.
  intros Hr. destruct (store_get_run k s Hr) as (c' & _ & R & _ & _).
  exists (mkStore c' (log_file s)). unfold get_key. rewrite R.
  split; [now destruct (assoc k (contents (cache s)))|].
  split; [reflexivity|]. exact (reach_get k s _ _ Hr R).
Qed.

Lemma get_key_reply_witness :
  let s := snd (set "a" "1" (snd (new_KeyValueStore 2 no_file))) in
  exists s',
    get_key "b" s
    = (match assoc "b" (contents (cache s)) with
       | Some v => Return [("key", "b"); ("value", v)]
       | None => HTTPException 404 "Key not found"
       end, s')
    /\ log_file s' = log_file s
    /\ reachable s'.
Proof.
  intros s. apply get_key_reply.
  apply (reach_set "a" "1" (snd (new_KeyValueStore 2 no_file)) (Ok tt) s).
  - apply (reach_new 2 no_file). reflexivity.
  - reflexivity.
Defined.

(** X14. [DELETE /delete/{key}] answers 404 and changes nothing when the
    key is not cached.  When it is cached the key leaves the cache, also
    when the write of the log fails and the handler ends with that
    exception: the next [GET] of the key answers 404 in both cases. *)
Theorem delete_key_reply k s :
  reachable s ->
  (assoc k (contents (cache s)) = None ->
   delete_key k s = (HTTPException 404 "Key not found", s))
  /\ (is_Some (assoc k (contents (cache s))) ->
      exists s' s'',
        delete_key k s
        = (if append_fails (log_file s) then Uncaught OSError
           else Return [("status", "deleted")], s')
        /\ contents (cache s') = LRUModel.without k (contents (cache s))
        /\ get_key k s' = (HTTPException 404 "Key not found", s'')).
Proof.
  intros Hr. destruct (store_delete_run k s Hr) as (c' & R & E & Hc' & Hnone & Hsome).
  split.
  - intros Hk. unfold delete_key. now rewrite (Hnone Hk).
  - intros Hk. specialize (Hsome Hk).
    assert (exists r s', delete k s = (r, s') /\ cache s' = c'
              /\ delete_key k s
                 = (if append_fails (log_file s) then Uncaught OSError
                    else Return [("status", "deleted")], s'))
      as (r & s' & Hd & Hcache & Hreply).
    { unfold delete_key. rewrite Hsome. unfold _log, append_file. simpl.
      destruct (append_fails (log_file s)); eexists _, _; repeat split. }
    pose proof (reach_delete k s r s' Hr Hd) as Hr'.
    destruct (store_get_run k s' Hr') as (c'' & _ & Rg & _ & _).
    exists s', (mkStore c'' (log_file s')). split; [exact Hreply|].
    rewrite Hcache. split; [exact E|].
    unfold get_key. rewrite Rg, Hcache, E. now rewrite assoc_without_same.
Qed.

Lemma delete_key_reply_witness :
  let s := snd (new_KeyValueStore 2 (mkFS (Some (unlines ["SET|a|1"])) true)) in
  (assoc "a" (contents (cache s)) = None ->
   delete_key "a" s = (HTTPException 404 "Key not found", s))
  /\ (is_Some (assoc "a" (contents (cache s))) ->
      exists s' s'',
        delete_key "a" s
        = (if append_fails (log_file s) then Uncaught OSError
           else Return [("status", "deleted")], s')
        /\ contents (cache s') = LRUModel.without "a" (contents (cache s))
        /\ get_key "a" s' = (HTTPException 404 "Key not found", s'')).
Proof.
  intros s. apply delete_key_reply.
  apply (reach_new 2 (mkFS (Some (unlines ["SET|a|1"])) true)). reflexivity.
Defined.

(** X15. [POST /set] then [GET /get/{key}] answers the value that was
    posted, whatever the capacity and whatever [ttl] the request carries;
    this is so also when the write of the log failed and the [POST] ended
    with that exception. *)
Theorem set_key_then_get_key data s :
  reachable s ->
  exists s1 s2,
    set_key data s
    = (if append_fails (log_file s) then Uncaught OSError
       else Return [("status", "success")], s1)
    /\ get_key (key data) s1
       = (Return [("key", key data); ("value", value data)], s2)
    /\ log_file s2 = log_file s1.
Proof.
  intros Hr.
  destruct (store_set_run (key data) (value data) s Hr) as (c' & _ & R & E & _).
  assert (exists r s1, set (key data) (value data) s = (r, s1) /\ cache s1 = c'
            /\ set_key data s
               = (if append_fails (log_file s) then Uncaught OSError
                  else Return [("status", "success")], s1))
    as (r & s1 & Hs & Hcache & Hreply).
  { unfold set_key. rewrite R. unfold _log, append_file. simpl.
    destruct (append_fails (log_file s)); eexists _, _; repeat split. }
  pose proof (reach_set _ _ s r s1 Hr Hs) as Hr1.
  destruct (store_get_run (key data) s1 Hr1) as (c'' & _ & Rg & _ & _).
  exists s1, (mkStore c'' (log_file s1)). split; [exact Hreply|].
  split; [|reflexivity]. unfold get_key. rewrite Rg, Hcache, E.
  destruct (m_put_front (LRU.capacity (cache s)) (key data) (value data)
              (contents (cache s))) as (T & -> & _).
  simpl. now rewrite decide_True.
Qed.

Lemma set_key_then_get_key_witness :
  let s := snd (new_KeyValueStore 1 (mkFS (Some (unlines ["SET|a|1"])) true)) in
  exists s1 s2,
    set_key (mkSetRequest "b" "2" (Some 5%Z)) s
    = (if append_fails (log_file s) then Uncaught OSError
       else Return [("status", "success")], s1)
    /\ get_key (key (mkSetRequest "b" "2" (Some 5%Z))) s1
       = (Return [("key", key (mkSetRequest "b" "2" (Some 5%Z)));
                  ("value", value (mkSetRequest "b" "2" (Some 5%Z)))], s2)
    /\ log_file s2 = log_file s1.
Proof.
  intros s. apply set_key_then_get_key.
  apply (reach_new 1 (mkFS (Some (unlines ["SET|a|1"])) true)). reflexivity.
Defined.

End MainFacts.

(** ** Recovery and compaction of app/simple_store.py *)

Module SimpleRecoveryFacts.

Import AsyncLRU SimpleStore AsyncLRUFacts SimpleStoreFacts.




(** *** Backups *)

Lemma length_dict_set {V} k (v : V) d : length (dict_set k v d) <= S (length d).
Proof.
  induction d as [|[k' v'] d IH]; simpl; [lia|].
  destruct (String.eqb k' k); simpl; lia.
Qed.

Lemma length_snapshot c keys : forall acc,
  length (snapshot c keys acc) <= length acc + length keys.
Proof.
  induction keys as [|k keys IH]; intros acc; simpl; [lia|].
  destruct (get_raw k c).
  - specialize (IH (dict_set k p acc)). pose proof (length_dict_set k p acc). lia.
  - specialize (IH acc). lia.
Qed.

Lemma length_compact_items clock items : forall i new j,
  compact_items clock i items = (Ok new, j) -> length new <= length items.
Proof.
  induction items as [|item items IH]; intros i new j; simpl.
  - intros [= <- _]. simpl. lia.
  - destruct (compact_item clock i item) as [[l|x] i1]; [|discriminate].
    destruct (compact_items clock i1 items) as [[ls|x] i2] eqn:E; [|discriminate].
    intros [= <- _]. specialize (IH _ _ _ E). destruct l; simpl; lia.
Qed.

Lemma backup_rename name old bs : backup name (rename name old bs) = Some old.
Proof. unfold rename. simpl. now rewrite Z.eqb_refl. Qed.

Lemma backup_filter name other bs :
  name <> other ->
  backup name (List.filter (fun b => negb (fst b =? other)%Z) bs) = backup name bs.
Proof.
  intros Hne. induction bs as [|[n ls] bs IH]; [reflexivity|]. simpl.
  destruct (n =? other)%Z eqn:E; simpl.
  - apply Z.eqb_eq in E. subst n.
    assert (E' : (other =? name)%Z = false) by (apply Z.eqb_neq; congruence).
    now rewrite E'.
  - now rewrite IH.
Qed.

Lemma backup_rename_other name other old bs :
  name <> other -> backup name (rename other old bs) = backup name bs.
Proof.
  intros Hne. unfold rename. simpl.
  assert (E : (other =? name)%Z = false) by (apply Z.eqb_neq; congruence).
  rewrite E. now apply backup_filter.
Qed.

Lemma filter_filter_same {A} (f : A -> bool) l :
  List.filter f (List.filter f l) = List.filter f l.
Proof.
  induction l as [|x l IH]; [reflexivity|]. simpl.
  destruct (f x) eqn:E; simpl; [rewrite E|]; now rewrite IH.
Qed.

Lemma length_rename_twice name x y bs :
  length (rename name x (rename name y bs)) = length (rename name y bs).
Proof.
  unfold rename. simpl. rewrite Z.eqb_refl. simpl. now rewrite filter_filter_same.
Qed.

Lemma compact_log_run clock s old s' :
  content (log_file s) = Some old ->
  compact_log clock s = (Ok tt, s') ->
  exists new i name,
    compact_items clock 0 (snapshot (cache s) (get_all_keys (cache s)) [])
    = (Ok new, i)
    /\ PyFloat.int (clock i) = Ok name
    /\ s' = mkStore (cache s)
                    (mkFS (Some new) (rename name old (backups (log_file s)))
                          (append_fails (log_file s)))
                    (length new).
Proof.
  intros Hc. unfold compact_log. rewrite Hc.
  destruct (compact_items clock 0 _) as [[new|x] i] eqn:E; [|discriminate].
  destruct (PyFloat.int (clock i)) as [name|x] eqn:En; [|discriminate].
  intros [= <-]. exists new, i, name. auto.
Qed.

(** X17. The backups of [compact_log].  A compaction of an existing log
    that returns leaves the cache as it is, moves the old log to the backup
    named after the whole seconds of the clock, and sets [log_size] to the
    number of records written, at most the number of cached keys.  A second
    compaction moves the log of the first to its backup; when both fall in
    the same second it takes the name of the first backup, so the number of
    backups does not grow and the log from before the first compaction is
    kept only if the two runs fall in different seconds. *)
Theorem compaction_backup_same_second (clock1 clock2 : nat -> PyFloat.float)
    (s s1 s2 : SimpleAsyncKeyValueStore) (old : list line) :
  content (log_file s) = Some old ->
  compact_log clock1 s = (Ok tt, s1) ->
  compact_log clock2 s1 = (Ok tt, s2) ->
  exists new1 new2 i1 i2 n1 n2,
    PyFloat.int (clock1 i1) = Ok n1 /\ PyFloat.int (clock2 i2) = Ok n2
    /\ cache s1 = cache s /\ cache s2 = cache s
    /\ content (log_file s1) = Some new1 /\ content (log_file s2) = Some new2
    /\ log_size s1 = length new1 /\ length new1 <= size (cache s)
    /\ backup n1 (backups (log_file s1)) = Some old
    /\ backup n2 (backups (log_file s2)) = Some new1
    /\ (n1 <> n2 -> backup n1 (backups (log_file s2)) = Some old)
    /\ (n1 = n2 ->
        length (backups (log_file s2)) = length (backups (log_file s1))).
Proof.
  intros Hc H1 H2.
  destruct (compact_log_run clock1 s old s1 Hc H1) as (new1 & i1 & n1 & C1 & N1 & ->).
  assert (Hc1 : content (log_file
                 (mkStore (cache s)
                    (mkFS (Some new1) (rename n1 old (backups (log_file s)))
                          (append_fails (log_file s)))
                    (length new1))) = Some new1) by reflexivity.
  destruct (compact_log_run clock2 _ new1 s2 Hc1 H2) as (new2 & i2 & n2 & C2 & N2 & ->).
  exists new1, new2, i1, i2, n1, n2. cbn [cache log_file content backups log_size].
  repeat (split; [first [assumption | reflexivity]|]).
  split.
  { etransitivity; [exact (length_compact_items _ _ _ _ _ C1)|].
    etransitivity; [apply length_snapshot|].
    unfold get_all_keys, size. rewrite length_map. simpl. lia. }
  split; [apply backup_rename|]. split; [apply backup_rename|]. split.
  - intros Hne. rewrite backup_rename_other by exact Hne. apply backup_rename.
  - intros <-. apply length_rename_twice.
Qed.

Lemma compaction_backup_same_second_witness :
  let s := mkStore (put "a" (Some "1") None 0 (new_AsyncLRUCache 2))
                   (mkFS (Some [log_entry 0 "SET" "a" (Some "1") None;
                                log_entry 1 "SET" "a" (Some "1") None])
                         [] false) 2 in
  let clock := fun _ : nat => PyFloat.of_Q (21 # 2) in
  let s1 := snd (compact_log clock s) in
  let s2 := snd (compact_log clock s1) in
  exists new1 new2 i1 i2 n1 n2,
    PyFloat.int (clock i1) = Ok n1 /\ PyFloat.int (clock i2) = Ok n2
    /\ cache s1 = cache s /\ cache s2 = cache s
    /\ content (log_file s1) = Some new1 /\ content (log_file s2) = Some new2
    /\ log_size s1 = length new1 /\ length new1 <= size (cache s)
    /\ backup n1 (backups (log_file s1))
       = Some [log_entry 0 "SET" "a" (Some "1") None;
               log_entry 1 "SET" "a" (Some "1") None]
    /\ backup n2 (backups (log_file s2)) = Some new1
    /\ (n1 <> n2 ->
        backup n1 (backups (log_file s2))
        = Some [log_entry 0 "SET" "a" (Some "1") None;
                log_entry 1 "SET" "a" (Some "1") None])
    /\ (n1 = n2 ->
        length (backups (log_file s2)) = length (backups (log_file s1))).
Proof.
  intros s clock s1 s2.
  apply (compaction_backup_same_second clock clock s s1 s2); reflexivity.
Defined.

End SimpleRecoveryFacts.
